(** * Large-audio transcription pipeline: chunking, batch transcription,
      recombination and progress reporting.

    Shallow embedding of [src/utils/audioProcessor] ([chunkAudioFile],
    [combineChunkResults], [estimateProcessingTime]) and of the
    [OpenAIService] methods of [src/services/openai.ts]
    ([transcribeSingleFile], [transcribeWithCompression],
    [transcribeAudioInBatches], [transcribeAudio]).

    Conventions of the embedding:
    - a JavaScript string is the list of its UTF-16 code units;
    - integers that the code handles (sizes, indices, counters, clock
      readings) are [Z]: they stay below 2^53, where the arithmetic of the
      source on them is exact, also through [Math.ceil] and [Math.floor]
      of a quotient of two of them;
    - the other numbers (durations, percentages, averages) are the
      rationals [Q] that are doubles: every operation of the source on
      them is followed by [fl], the rounding of IEEE 754 binary64 (to
      nearest, ties to even); durations are finite;
    - an [ArrayBuffer] / [Blob] is a length with an indexing function;
    - asynchronous code is sequential here (every call is awaited in the
      source); its effects are threaded through a [World]: the progress
      events handed to the callback, the requests submitted to the remote
      endpoint and the number of clock readings;
    - the progress callback [onBatchProgress] is always supplied and
      returns: calling it records the event in the world;
    - whatever the program cannot decide (metadata decoding, the encoder,
      the remote endpoint, the clock) is a field of the environment [Env];
    - console logging is not modelled. *)

From Stdlib Require Import ZArith NArith List Bool Lia QArith Qround Qpower.
From Stdlib Require Import Qabs.
From Stdlib Require Import Permutation Sorted String Ascii Strings.Byte.
From Stdlib Require Import DecimalString Lqa.
Import ListNotations.

Set Implicit Arguments.
Local Open Scope Z_scope.

(* ================================================================== *)
(** * JavaScript strings *)

Module Js.

Definition codeunit := N.
Definition jsstring := list codeunit.

(** A literal of the source, code unit by code unit. *)
Definition lit (s : string) : jsstring :=
  List.map N_of_ascii (list_ascii_of_string s).

Definition SPACE : codeunit := 32%N.
Definition DOT : codeunit := 46%N.
Definition SLASH : codeunit := 47%N.

Definition inN (lo hi c : N) : bool := (N.leb lo c && N.leb c hi)%bool.

(** ECMAScript WhiteSpace and LineTerminator: the set stripped by
    [String.prototype.trim] and matched by the regular expression
    class [\s]. *)
Definition is_ws (c : codeunit) : bool :=
  (inN 9 13 c || N.eqb c 32 || N.eqb c 160 || N.eqb c 5760
   || inN 8192 8202 c || N.eqb c 8232 || N.eqb c 8233 || N.eqb c 8239
   || N.eqb c 8287 || N.eqb c 12288 || N.eqb c 65279)%bool.

Fixpoint trimStart (s : jsstring) : jsstring :=
  match s with
  | [] => []
  | c :: r => if is_ws c then trimStart r else s
  end.

Fixpoint trimEnd (s : jsstring) : jsstring :=
  match s with
  | [] => []
  | c :: r =>
      match trimEnd r with
      | [] => if is_ws c then [] else [c]
      | r' => c :: r'
      end
  end.

(** [s.trim()] *)
Definition trim (s : jsstring) : jsstring := trimEnd (trimStart s).

(** [s.replace(/\s+/g, ' ')]: scanning left to right, every maximal run
    of white space is replaced by one space.  [in_run] tells that the
    previous code unit belonged to the run being replaced. *)
Fixpoint replace_ws_runs (in_run : bool) (s : jsstring) : jsstring :=
  match s with
  | [] => []
  | c :: r =>
      if is_ws c
      then if in_run then replace_ws_runs true r
           else SPACE :: replace_ws_runs true r
      else c :: replace_ws_runs false r
  end.

Definition collapse_ws (s : jsstring) : jsstring := replace_ws_runs false s.

(** [parts.join(sep)] *)
Fixpoint join (sep : jsstring) (parts : list jsstring) : jsstring :=
  match parts with
  | [] => []
  | x :: r =>
      match r with
      | [] => x
      | _ :: _ => x ++ sep ++ join sep r
      end
  end.

Fixpoint starts_with (p s : jsstring) : bool :=
  match p, s with
  | [], _ => true
  | _ :: _, [] => false
  | a :: p', b :: s' => (N.eqb a b && starts_with p' s')%bool
  end.

(** [s.includes(p)] *)
Fixpoint includes (s p : jsstring) : bool :=
  (starts_with p s ||
   match s with
   | [] => false
   | _ :: r => includes r p
   end)%bool.

(** [s.split('.').pop()]: the segment after the last dot (the whole
    string when it has none). *)
Fixpoint last_segment (acc s : jsstring) : jsstring :=
  match s with
  | [] => acc
  | c :: r => if N.eqb c DOT then last_segment [] r
              else last_segment (acc ++ [c]) r
  end.

Definition not_dot_or_slash (c : codeunit) : bool :=
  negb (N.eqb c DOT || N.eqb c SLASH).

(** [s.replace(/\.[^/.]+$/, '')]: the leftmost dot that is followed, up
    to the end of the string, by one or more code units other than a dot
    and a slash, is removed with what follows it. *)
Fixpoint strip_extension (s : jsstring) : jsstring :=
  match s with
  | [] => []
  | c :: r =>
      if (N.eqb c DOT && negb (Nat.eqb (List.length r) 0)
          && forallb not_dot_or_slash r)%bool
      then []
      else c :: strip_extension r
  end.

(** Decimal rendering of a non-negative integer inside a template
    literal. *)
Definition of_int (n : Z) : jsstring :=
  lit (NilEmpty.string_of_uint (N.to_uint (Z.to_N n))).

Definition is_empty (s : jsstring) : bool :=
  match s with
  | [] => true
  | _ :: _ => false
  end.

End Js.
Import Js.

(* ================================================================== *)
(** * JavaScript numbers *)

Module Double.

Definition pow2 (e : Z) : Q := Qpower 2 e.

(** [floor(log2 x)], for [x > 0]. *)
Definition ilog2 (x : Q) : Z :=
  let k := Z.log2 (Qnum x) - Z.log2 (Zpos (Qden x)) in
  if Qle_bool (pow2 k) x then k else k - 1.

(** The integer nearest to [x], the even one of the two when [x] is half
    way. *)
Definition round_half_even (x : Q) : Z :=
  let f := Qfloor x in
  match (x - inject_Z f ?= 1 # 2)%Q with
  | Lt => f
  | Gt => f + 1
  | Eq => if Z.even f then f else f + 1
  end.

(** The exponent of the last bit of the double nearest to [x > 0]: 53
    bits of mantissa, and no exponent below that of the subnormal
    numbers. *)
Definition expo (x : Q) : Z := Z.max (ilog2 x - 52) (-1074).

Definition fl_pos (x : Q) : Q :=
  (inject_Z (round_half_even (x / pow2 (expo x))) * pow2 (expo x))%Q.

(** The double nearest to [x] (IEEE 754 binary64, round to nearest, ties
    to even), in lowest terms.  The quantities of this program stay far
    below the largest double, beyond which a result would be
    [Infinity]. *)
Definition fl (x : Q) : Q :=
  let r := Qred x in
  match Qnum r with
  | 0 => 0%Q
  | Z.pos _ => Qred (fl_pos r)
  | Z.neg _ => Qred (- fl_pos (- r))
  end.

End Double.
Import Double.

(* ================================================================== *)
(** * Buffers, files, chunks, progress records and thrown values *)

(** [ArrayBuffer.prototype.slice] index clamping: a negative index counts
    from the end. *)
Definition clamp_index (len k : Z) : Z :=
  if k <? 0 then Z.max (len + k) 0 else Z.min k len.

Record ArrayBuffer := mkBuffer {
  byteLength : Z;
  byteAt : Z -> byte
}.

Definition slice (b : ArrayBuffer) (first final : Z) : ArrayBuffer :=
  let len := byteLength b in
  let s := clamp_index len first in
  let e := clamp_index len final in
  {| byteLength := Z.max (e - s) 0;
     byteAt := fun k => byteAt b (s + k) |}.

(** The bytes a buffer holds, in order. *)
Definition bytes (b : ArrayBuffer) : list byte :=
  List.map (fun k => byteAt b (Z.of_nat k)) (seq 0 (Z.to_nat (byteLength b))).

Record File := mkFile {
  name : jsstring;
  mime : jsstring;
  content : ArrayBuffer
}.

Definition size (f : File) : Z := byteLength (content f).

Record AudioChunk := mkChunk {
  file : File;
  index : Z;
  startTime : Q;
  duration : Q
}.

Inductive Phase := analyzing | chunking | processing | combining.

Record ChunkingProgress := mkChunkingProgress {
  cp_phase : Phase;
  cp_currentChunk : Z;
  cp_totalChunks : Z;
  cp_progress : Q
}.

Record BatchProgress := mkBatchProgress {
  phase : Phase;
  currentChunk : Z;
  totalChunks : Z;
  progress : Q;
  estimatedTimeRemaining : option Z
}.

Inductive ErrorType := api_error | file_error | network_error | validation_error.

Inductive ErrorClass := PlainError | TypeError | SyntaxError.

(** What a [throw] carries: an instance of [Error] (or of a subclass) with
    its message, or an object literal with the optional properties of
    [TranscriptionError]. *)
Inductive Thrown :=
| JsError (cls : ErrorClass) (message : jsstring)
| JsObject (message : option jsstring) (type : option ErrorType)
           (code : option jsstring).

Definition message_of (e : Thrown) : option jsstring :=
  match e with
  | JsError _ m => Some m
  | JsObject m _ _ => m
  end.

Record TranscriptionRequest := mkRequest {
  req_file : File;
  req_model : jsstring;
  req_language : option jsstring;
  req_temperature : option Q;
  req_response_format : option jsstring
}.

Definition with_file (r : TranscriptionRequest) (f : File) : TranscriptionRequest :=
  {| req_file := f;
     req_model := req_model r;
     req_language := req_language r;
     req_temperature := req_temperature r;
     req_response_format := req_response_format r |}.

(** The fields of [TranscriptionResult] that the pipeline computes ([id]
    and [createdAt] are fresh values, [duration] is always undefined). *)
Record TranscriptionResult := mkResult {
  text : jsstring;
  audioFileName : jsstring;
  language : option jsstring
}.

(* ================================================================== *)
(** * The environment and the effects *)

(** Answer of the remote endpoint to one [fetch]. *)
Inductive RemoteResponse :=
| FetchRejects (msg : jsstring)
| HttpFailure (error_message : option jsstring) (error_code : option jsstring)
| HttpOkUnparsable (msg : jsstring)
| HttpOk (data_text : option jsstring).

(** Outcome of the encoder on one input, by the stage that fails. *)
Inductive EncoderOutcome :=
| EncoderUnavailable (e : Thrown)
| StagingFails (e : Thrown)
| TransformFails (e : Thrown)
| OutputUnreadable (e : Thrown)
| Encoded (out : ArrayBuffer).

(** What the program asks of its surroundings: the duration that the
    browser reads in the metadata of a file (or the rejection of
    [getAudioDuration]); the outcome of the encoder on a file; the answer
    of the endpoint to a request made with a key, as the [n]-th request it
    receives (counted from 0); the value of the clock, in milliseconds, at
    its [k]-th reading (counted from 0). *)
Record Env := mkEnv {
  audioDuration : File -> Thrown + Q;
  encoder : File -> EncoderOutcome;
  remote : nat -> jsstring -> TranscriptionRequest -> RemoteResponse;
  now : nat -> Z
}.

(** What the program has done so far: the progress events handed to the
    callback, oldest first; the requests sent to the endpoint, oldest
    first; the number of readings of the clock. *)
Record World := mkWorld {
  events : list BatchProgress;
  submitted : list TranscriptionRequest;
  clockReads : nat
}.

Definition initial : World :=
  {| events := []; submitted := []; clockReads := 0 |}.

Definition M (A : Type) : Type := World -> (Thrown + A) * World.

Definition ret {A} (a : A) : M A := fun w => (inr a, w).

Definition bind {A B} (m : M A) (k : A -> M B) : M B :=
  fun w =>
    match m w with
    | (inl e, w') => (inl e, w')
    | (inr a, w') => k a w'
    end.

Definition throw {A} (e : Thrown) : M A := fun w => (inl e, w).

Definition try_catch {A} (m : M A) (handler : Thrown -> M A) : M A :=
  fun w =>
    match m w with
    | (inl e, w') => handler e w'
    | (inr a, w') => (inr a, w')
    end.

Declare Scope js_scope.
Delimit Scope js_scope with js.
Notation "x <- c ;; k" := (bind c (fun x => k))
  (at level 61, c at next level, right associativity) : js_scope.
Notation "c ;;; k" := (bind c (fun _ => k))
  (at level 61, right associativity) : js_scope.
Local Open Scope js_scope.

(** The world once the callback has been handed the events [evs]. *)
Definition emit (w : World) (evs : list BatchProgress) : World :=
  {| events := events w ++ evs;
     submitted := submitted w;
     clockReads := clockReads w |}.

(** [onBatchProgress?.(p)] *)
Definition onBatchProgress (p : BatchProgress) : M unit :=
  fun w => (inr tt, emit w [p]).

(** The world once the clock has been read. *)
Definition tick (w : World) : World :=
  {| events := events w;
     submitted := submitted w;
     clockReads := S (clockReads w) |}.

(** [Date.now()] *)
Definition date_now (env : Env) : M Z :=
  fun w => (inr (now env (clockReads w)), tick w).

(** The world once [request] has been sent to the endpoint. *)
Definition submit (w : World) (request : TranscriptionRequest) : World :=
  {| events := events w;
     submitted := submitted w ++ [request];
     clockReads := clockReads w |}.

(** [fetch] of the transcription endpoint with the request as form data:
    the answer is that of the environment to this request, the
    [List.length (submitted w)]-th it receives. *)
Definition fetch_transcription (env : Env) (apiKey : jsstring)
    (request : TranscriptionRequest) : M RemoteResponse :=
  fun w => (inr (remote env (List.length (submitted w)) apiKey request),
            submit w request).

Definition lift_result {A} (r : Thrown + A) : M A := fun w => (r, w).

(* ================================================================== *)
(** * [src/utils/audioProcessor] *)

Module AudioProcessor.

(** [getAudioDuration(file)]: resolves with the duration the browser
    decodes from the metadata, or rejects. *)
Definition getAudioDuration (env : Env) (f : File) : M Q :=
  lift_result (audioDuration env f).

(** [`${file.name.replace(/\.[^/.]+$/, '')}_chunk_${i + 1}.${extension}`]
    with [extension = file.name.split('.').pop() || 'mp3']. *)
Definition chunk_file_name (fname : jsstring) (i : Z) : jsstring :=
  let popped := last_segment [] fname in
  let extension := if is_empty popped then lit "mp3" else popped in
  strip_extension fname ++ lit "_chunk_" ++ of_int (i + 1)
    ++ lit "." ++ extension.

(** The chunk that the loop of [chunkAudioFile] builds at iteration [i]. *)
Definition chunk_of (f : File) (buffer : ArrayBuffer)
    (estimatedChunks chunkSize : Z) (chunkDuration : Q) (i : Z)
    : AudioChunk :=
  let start := i * chunkSize in
  let final := if i =? estimatedChunks - 1 then byteLength buffer
               else (i + 1) * chunkSize in
  let chunkBuffer := slice buffer start final in
  let chunkFile := {| name := chunk_file_name (name f) i;
                      mime := mime f;
                      content := chunkBuffer |} in
  {| file := chunkFile;
     index := i;
     startTime := fl (inject_Z i * chunkDuration);
     duration := chunkDuration |}.

(** The [for] loop of [chunkAudioFile], over the values that [i] still
    has to take. *)
Fixpoint chunk_loop (onProgress : ChunkingProgress -> M unit) (f : File)
    (buffer : ArrayBuffer) (estimatedChunks chunkSize : Z)
    (chunkDuration : Q) (todo : list Z) (chunks : list AudioChunk)
    : M (list AudioChunk) :=
  match todo with
  | [] => ret chunks
  | i :: rest =>
      let chunk :=
        chunk_of f buffer estimatedChunks chunkSize chunkDuration i in
      onProgress {| cp_phase := chunking;
                    cp_currentChunk := i + 1;
                    cp_totalChunks := estimatedChunks;
                    cp_progress :=
                      fl (fl (inject_Z (i + 1) / inject_Z estimatedChunks)
                          * 100) |} ;;;
      chunk_loop onProgress f buffer estimatedChunks chunkSize
                 chunkDuration rest (chunks ++ [chunk])
  end.

(** The values of [i] in [for (let i = 0; i < n; i++)]. *)
Definition loop_indices (n : Z) : list Z :=
  List.map Z.of_nat (seq 0 (Z.to_nat n)).

(** [chunkAudioFile].  The model is that of the source for a positive
    [maxChunkSize] (the service passes 25 MiB) and a finite duration. *)
Definition chunkAudioFile (env : Env) (f : File) (maxChunkSize : Z)
    (onProgress : ChunkingProgress -> M unit) : M (list AudioChunk) :=
  try_catch
    (onProgress {| cp_phase := analyzing; cp_currentChunk := 0;
                   cp_totalChunks := 0; cp_progress := 0%Q |} ;;;
     duration <- getAudioDuration env f ;;
     let estimatedChunks :=
       Qceiling (inject_Z (size f) / inject_Z maxChunkSize)%Q in
     let chunkDuration := fl (duration / inject_Z estimatedChunks) in
     onProgress {| cp_phase := chunking; cp_currentChunk := 0;
                   cp_totalChunks := estimatedChunks; cp_progress := 0%Q |} ;;;
     let chunkSize :=
       Qfloor (inject_Z (size f) / inject_Z estimatedChunks)%Q in
     let buffer := content f in
     chunk_loop onProgress f buffer estimatedChunks chunkSize
                chunkDuration (loop_indices estimatedChunks) [])
    (fun _ => throw (JsError PlainError (lit "Failed to chunk audio file"))).

(** A pair [{ chunk, transcription }]. *)
Definition ChunkResult : Type := AudioChunk * jsstring.

(** [Array.prototype.sort] with the comparator
    [(a, b) => a.chunk.index - b.chunk.index]: the stable sort, here by
    insertion from the right ([x] stood before every element of [l]). *)
Fixpoint insert_result (x : ChunkResult) (l : list ChunkResult)
    : list ChunkResult :=
  match l with
  | [] => [x]
  | y :: r => if index (fst x) - index (fst y) <=? 0 then x :: l
              else y :: insert_result x r
  end.

Definition sort_results (l : list ChunkResult) : list ChunkResult :=
  fold_right insert_result [] l.

(** The order that the comparator of the sort stands for. *)
Definition by_index (a b : ChunkResult) : Prop :=
  index (fst a) <= index (fst b).

Definition length_mismatch : Thrown :=
  JsError PlainError
          (lit "Chunk and transcription arrays must have the same length").

(** [chunks.map((chunk, index) => ({ chunk, transcription:
    transcriptions[index] }))] is [List.combine] once the lengths are
    known to agree. *)
Definition combineChunkResults (chunks : list AudioChunk)
    (transcriptions : list jsstring) : Thrown + jsstring :=
  if negb (Nat.eqb (List.length chunks) (List.length transcriptions))
  then inl length_mismatch
  else
    let sortedResults := sort_results (List.combine chunks transcriptions) in
    inr (trim
           (collapse_ws
              (join [SPACE]
                 (filter (fun t => negb (is_empty t))
                    (List.map (fun result => trim (snd result))
                              sortedResults))))).

(** [Math.ceil(chunks.reduce((sum, c) => sum + c.duration, 0) * 0.5)] *)
Definition estimateProcessingTime (chunks : list AudioChunk) : Z :=
  let totalDuration :=
    fold_left (fun sum chunk => fl (sum + duration chunk)) chunks 0%Q in
  Qceiling (fl (totalDuration * (1 # 2))).

End AudioProcessor.
Import AudioProcessor.

(* ================================================================== *)
(** * [OpenAIService] *)

Module OpenAIService.

Definition maxFileSize : Z := 25 * 1024 * 1024.

Definition unknown_error : jsstring := lit "Unknown error".

(** What [transcribeSingleFile] makes of the answer to its [fetch]: a
    failed [fetch] rejects with a [TypeError]; a response that is not
    [ok] throws a [TranscriptionError] built from the parsed error body
    ([errorData.error?.message || 'Unknown error']); a body that does
    not parse rejects with a [SyntaxError]; otherwise the result is
    [data.text || '']. *)
Definition interpret_response (response : RemoteResponse)
    : Thrown + jsstring :=
  match response with
  | FetchRejects m => inl (JsError TypeError m)
  | HttpFailure emsg ecode =>
      let detail := match emsg with
                    | Some m => if is_empty m then unknown_error else m
                    | None => unknown_error
                    end in
      inl (JsObject (Some (lit "Transcription failed: " ++ detail))
                    (Some api_error) ecode)
  | HttpOkUnparsable m => inl (JsError SyntaxError m)
  | HttpOk t => inr (match t with Some s => s | None => [] end)
  end.

(** [transcribeSingleFile]: one request to the endpoint. *)
Definition transcribeSingleFile (env : Env) (apiKey : jsstring)
    (request : TranscriptionRequest) : M jsstring :=
  response <- fetch_transcription env apiKey request ;;
  lift_result (interpret_response response).

(** [chunkError.message?.includes('Invalid file format') ||
     chunkError.message?.includes('file format')] *)
Definition is_format_error (chunkError : Thrown) : bool :=
  match message_of chunkError with
  | Some m => (includes m (lit "Invalid file format")
               || includes m (lit "file format"))%bool
  | None => false
  end.

(** Body of the [for] loop of [transcribeAudioInBatches], over the
    chunks from position [i] on. *)
Fixpoint process_chunks (env : Env) (apiKey : jsstring)
    (request : TranscriptionRequest) (total startTime : Z) (i : Z)
    (todo : list AudioChunk) (transcriptions : list jsstring)
    : M (list jsstring) :=
  match todo with
  | [] => ret transcriptions
  | chunk :: rest =>
      let chunkRequest := with_file request (file chunk) in
      if size (file chunk) <? 1000
      then process_chunks env apiKey request total startTime (i + 1) rest
                          (transcriptions ++ [[]])
      else
        transcriptions' <-
          try_catch
            (transcription <- transcribeSingleFile env apiKey chunkRequest ;;
             ret (transcriptions ++ [transcription]))
            (fun chunkError =>
               if is_format_error chunkError
               then ret (transcriptions ++ [[]])
               else throw chunkError) ;;
        t <- date_now env ;;
        let elapsed := fl (inject_Z (t - startTime) / 1000) in
        let avgTimePerChunk := fl (elapsed / inject_Z (i + 1)) in
        let remainingChunks := total - (i + 1) in
        let estimatedTimeRemaining :=
          Qceiling (fl (avgTimePerChunk * inject_Z remainingChunks)) in
        onBatchProgress
          {| phase := processing;
             currentChunk := i + 1;
             totalChunks := total;
             progress := fl (fl (inject_Z (i + 1) / inject_Z total) * 100);
             estimatedTimeRemaining := Some estimatedTimeRemaining |} ;;;
        process_chunks env apiKey request total startTime (i + 1) rest
                       transcriptions'
  end.

Definition onChunkingProgress (chunkProgress : ChunkingProgress) : M unit :=
  onBatchProgress {| phase := cp_phase chunkProgress;
                     currentChunk := cp_currentChunk chunkProgress;
                     totalChunks := cp_totalChunks chunkProgress;
                     progress := cp_progress chunkProgress;
                     estimatedTimeRemaining := None |}.

Definition batch_failure (error : Thrown) : Thrown :=
  JsObject
    (Some (lit "Batch transcription failed: "
           ++ match error with
              | JsError _ m => m
              | JsObject _ _ _ => unknown_error
              end))
    (Some api_error) None.

Definition transcribeAudioInBatches (env : Env) (apiKey : jsstring)
    (request : TranscriptionRequest) : M TranscriptionResult :=
  try_catch
    (chunks <- chunkAudioFile env (req_file request) maxFileSize
                              onChunkingProgress ;;
     let estimatedTime := estimateProcessingTime chunks in
     let total := Z.of_nat (List.length chunks) in
     startTime <- date_now env ;;
     onBatchProgress {| phase := processing; currentChunk := 0;
                        totalChunks := total; progress := 0%Q;
                        estimatedTimeRemaining := Some estimatedTime |} ;;;
     transcriptions <-
       process_chunks env apiKey request total startTime 0 chunks [] ;;
     onBatchProgress {| phase := combining; currentChunk := total;
                        totalChunks := total; progress := 100%Q;
                        estimatedTimeRemaining := None |} ;;;
     combinedText <- lift_result (combineChunkResults chunks transcriptions) ;;
     _ <- date_now env ;;
     ret {| text := combinedText;
            audioFileName := name (req_file request);
            language := req_language request |})
    (fun error => throw (batch_failure error)).

(** The stages of the encoder, each failing as the environment says. *)
Definition ffmpeg_load (env : Env) (f : File) : M unit :=
  match encoder env f with
  | EncoderUnavailable e => throw e
  | _ => ret tt
  end.

Definition ffmpeg_writeFile (env : Env) (f : File) : M unit :=
  match encoder env f with
  | StagingFails e => throw e
  | _ => ret tt
  end.

Definition ffmpeg_exec (env : Env) (f : File) : M unit :=
  match encoder env f with
  | TransformFails e => throw e
  | _ => ret tt
  end.

Definition ffmpeg_readFile (env : Env) (f : File) : M ArrayBuffer :=
  match encoder env f with
  | Encoded out => ret out
  | EncoderUnavailable e | StagingFails e | TransformFails e
  | OutputUnreadable e => throw e
  end.

Definition compression_checkpoint (ph : Phase) (cur : Z) (pct : Q)
    : BatchProgress :=
  {| phase := ph; currentChunk := cur; totalChunks := 1; progress := pct;
     estimatedTimeRemaining := None |}.

Definition transcribeWithCompression (env : Env) (apiKey : jsstring)
    (request : TranscriptionRequest) : M TranscriptionResult :=
  try_catch
    (onBatchProgress (compression_checkpoint analyzing 0 0%Q) ;;;
     ffmpeg_load env (req_file request) ;;;
     onBatchProgress (compression_checkpoint processing 0 25%Q) ;;;
     ffmpeg_writeFile env (req_file request) ;;;
     onBatchProgress (compression_checkpoint processing 0 50%Q) ;;;
     ffmpeg_exec env (req_file request) ;;;
     onBatchProgress (compression_checkpoint processing 0 75%Q) ;;;
     compressedData <- ffmpeg_readFile env (req_file request) ;;
     let compressedFile := {| name := lit "compressed_audio.ogg";
                              mime := lit "audio/ogg";
                              content := compressedData |} in
     onBatchProgress (compression_checkpoint combining 1 90%Q) ;;;
     let compressedRequest := with_file request compressedFile in
     transcription <- transcribeSingleFile env apiKey compressedRequest ;;
     onBatchProgress (compression_checkpoint combining 1 100%Q) ;;;
     ret {| text := transcription;
            audioFileName := name (req_file request);
            language := req_language request |})
    (fun _ => transcribeAudioInBatches env apiKey request).

Definition validation (m : jsstring) : Thrown :=
  JsObject (Some m) (Some validation_error) None.

(** [transcribeAudio].  The type of [request.file] excludes [null], so
    the guard [!request.file] has no counterpart here. *)
Definition transcribeAudio (env : Env) (apiKey : jsstring)
    (request : TranscriptionRequest) : M TranscriptionResult :=
  try_catch
    (if is_empty (trim apiKey)
     then throw (validation (lit "API key is required"))
     else if size (req_file request) >? maxFileSize
     then transcribeWithCompression env apiKey request
     else
       transcription <- transcribeSingleFile env apiKey request ;;
       ret {| text := transcription;
              audioFileName := name (req_file request);
              language := req_language request |})
    (fun error =>
       match error with
       | JsError cls m =>
           match cls with
           | TypeError =>
               if includes m (lit "fetch")
               then throw (JsObject
                             (Some (lit "Network error. Please check your connection."))
                             (Some network_error) None)
               else throw (validation m)
           | _ => throw (validation m)
           end
       | JsObject _ _ _ => throw error
       end).

Definition supportedFormats : list jsstring :=
  [lit "mp3"; lit "mp4"; lit "m4a"; lit "wav"; lit "webm"].

(** [getSupportedFormats()]: a copy of the list. *)
Definition getSupportedFormats : list jsstring := supportedFormats.

(** [getMaxFileSize()] *)
Definition getMaxFileSize : Z := maxFileSize.

End OpenAIService.
Import OpenAIService.

(* ================================================================== *)
(** * [src/utils/file.ts] *)

Module FileUtils.

(** [Math.round]: the nearest integer, halves going up. *)
Definition Math_round (x : Q) : Z := Qfloor (x + (1 # 2)).

(** [Math.trunc], as the remainder operator uses it. *)
Definition Qtruncate (x : Q) : Z :=
  if Qle_bool 0 x then Qfloor x else Qceiling x.

(** [x % m]: the remainder has the sign of [x]. *)
Definition js_rem (x m : Q) : Q :=
  (x - m * inject_Z (Qtruncate (x / m)))%Q.

(** An integer inside a template literal (below 2^53 in magnitude, where
    every digit is printed). *)
Definition number_to_string (n : Z) : jsstring :=
  if n <? 0 then lit "-" ++ of_int (- n) else of_int n.

(** [formatDuration(seconds)], for the doubles below 2^53 in magnitude.
    There the quotients of the source, once rounded down, the remainder
    and [Math.round] are those of exact arithmetic, and the integers are
    printed digit for digit.  From 2^53 on the source rounds its quotients
    and prints its integers otherwise: these durations are left out
    ([None]). *)
Definition formatDuration (seconds : Q) : option jsstring :=
  if Qle_bool (inject_Z (2 ^ 53)) (Qabs seconds) then None
  else if negb (Qle_bool 60 seconds)
  then Some (number_to_string (Math_round seconds) ++ lit "s")
  else
    let minutes := Qfloor (seconds / 60) in
    let remainingSeconds := Math_round (js_rem seconds 60) in
    if minutes <? 60
    then Some (number_to_string minutes ++ lit "m "
                 ++ number_to_string remainingSeconds ++ lit "s")
    else
      let hours := Qfloor (inject_Z minutes / 60) in
      let remainingMinutes := minutes mod 60 in
      Some (number_to_string hours ++ lit "h "
              ++ number_to_string remainingMinutes ++ lit "m "
              ++ number_to_string remainingSeconds ++ lit "s").

(** [s.toLowerCase()] on the letters A to Z.  The other code units that
    [toLowerCase] changes are not letters of the extensions that the result
    is compared with below, nor mapped to one. *)
Definition lower_unit (c : codeunit) : codeunit :=
  if inN 65 90 c then (c + 32)%N else c.

Definition toLowerCase (s : jsstring) : jsstring := List.map lower_unit s.

Fixpoint string_eqb (a b : jsstring) : bool :=
  match a, b with
  | [], [] => true
  | x :: a', y :: b' => (N.eqb x y && string_eqb a' b')%bool
  | _, _ => false
  end.

(** [array.includes(s)] on an array of strings. *)
Definition array_includes (array : list jsstring) (s : jsstring) : bool :=
  existsb (string_eqb s) array.

Definition audioTypes : list jsstring :=
  [lit "audio/mpeg"; lit "audio/mp3"; lit "audio/wav"; lit "audio/wave";
   lit "audio/webm"; lit "audio/mp4"; lit "audio/m4a"; lit "audio/x-m4a";
   lit "audio/aac"; lit "audio/ogg"; lit "audio/flac"].

Definition audioExtensions : list jsstring :=
  [lit "mp3"; lit "wav"; lit "m4a"; lit "aac"; lit "ogg"; lit "flac";
   lit "wma"; lit "webm"; lit "mp4"].

(** [isAudioFile(file)].  [file.name.split('.').pop()] is never
    undefined, and the empty string is falsy. *)
Definition isAudioFile (f : File) : bool :=
  let extension := toLowerCase (last_segment [] (name f)) in
  let isMimeTypeAudio :=
    (array_includes audioTypes (mime f)
     || starts_with (lit "audio/") (mime f))%bool in
  let isExtensionAudio :=
    if is_empty extension then false
    else array_includes audioExtensions extension in
  (isMimeTypeAudio || isExtensionAudio)%bool.

End FileUtils.
Import FileUtils.

(* ================================================================== *)
(** * [useSettings] *)

Module Settings.

(** [validateApiKey(apiKey)] *)
Definition validateApiKey (apiKey : jsstring) : bool :=
  let trimmed := trim apiKey in
  ((0 <? List.length trimmed)%nat && starts_with (lit "sk-") trimmed)%bool.

End Settings.
Import Settings.

(* ================================================================== *)
(** * Fixtures used by the closed examples *)

Definition zeros (n : Z) : ArrayBuffer :=
  {| byteLength := n; byteAt := fun _ => x00 |}.

Definition audio (fname : string) (n : Z) : File :=
  {| name := lit fname; mime := lit "audio/mpeg"; content := zeros n |}.

Definition chunk_at (i : Z) : AudioChunk :=
  {| file := audio "part.mp3" 4096; index := i;
     startTime := inject_Z i; duration := 1 |}.

(** A chunk of 500 bytes. *)
Definition scrap_at (i : Z) : AudioChunk :=
  {| file := audio "scrap.mp3" 500; index := i;
     startTime := inject_Z i; duration := 1 |}.

Definition MiB : Z := 1024 * 1024.

Definition key : jsstring := lit "sk-test".

(** The error body of the endpoint for a key it does not accept. *)
Definition unauthorized : RemoteResponse :=
  HttpFailure (Some (lit "Incorrect API key provided"))
              (Some (lit "invalid_api_key")).

(** The error that [transcribeSingleFile] throws for that body. *)
Definition unauthorized_error : Thrown :=
  JsObject (Some (lit "Transcription failed: Incorrect API key provided"))
           (Some api_error) (Some (lit "invalid_api_key")).

Definition request_for (f : File) : TranscriptionRequest :=
  {| req_file := f; req_model := lit "whisper-1"; req_language := None;
     req_temperature := None;
     req_response_format := Some (lit "verbose_json") |}.

(** An environment in which every file lasts ten minutes, the encoder
    cannot be loaded, the endpoint transcribes every request as "ok" and
    the clock advances by one second at each reading. *)
Definition studio : Env :=
  {| audioDuration := fun _ => inr (600 # 1)%Q;
     encoder := fun _ => EncoderUnavailable
                           (JsError PlainError (lit "failed to load ffmpeg"));
     remote := fun _ _ _ => HttpOk (Some (lit "ok"));
     now := fun k => 1000 * Z.of_nat k |}.

(** The same, with an endpoint that cannot decode the second request it
    receives. *)
Definition garbled : Env :=
  {| audioDuration := audioDuration studio;
     encoder := encoder studio;
     remote := fun n _ _ =>
       if Nat.eqb n 1
       then HttpFailure (Some (lit "Invalid file format."))
                        (Some (lit "invalid_request_error"))
       else HttpOk (Some (lit "ok"));
     now := now studio |}.

(** The same as [studio], with an encoder that loads and stages its input
    but fails to transform it. *)
Definition transform_broken : Env :=
  {| audioDuration := audioDuration studio;
     encoder := fun _ => TransformFails
                           (JsError PlainError (lit "ffmpeg exited"));
     remote := remote studio;
     now := now studio |}.

(** An encoder that shrinks every input to 200000 bytes, in front of an
    endpoint that refuses the key at every request. *)
Definition shrinking_locked_out : Env :=
  {| audioDuration := audioDuration studio;
     encoder := fun _ => Encoded (zeros 200000);
     remote := fun _ _ _ => unauthorized;
     now := now studio |}.

(** The same encoder, in front of an endpoint that fails once, at the
    first request, with a server error, and transcribes the next ones. *)
Definition shrinking_flaky : Env :=
  {| audioDuration := audioDuration studio;
     encoder := fun _ => Encoded (zeros 200000);
     remote := fun n _ _ =>
       if Nat.eqb n 0
       then HttpFailure (Some (lit "The server had an error"))
                        (Some (lit "server_error"))
       else HttpOk (Some (lit "ok"));
     now := now studio |}.

(** The same, with an endpoint that refuses the key at every request. *)
Definition locked_out : Env :=
  {| audioDuration := audioDuration studio;
     encoder := encoder studio;
     remote := fun _ _ _ => unauthorized;
     now := now studio |}.

(* ================================================================== *)
(** * Vocabulary of the statements *)

Definition not_ws (c : codeunit) : Prop := is_ws c = false.

(** The words of a string: its maximal runs of code units that are not
    white space, in order.  [cur] is the word being read. *)
Definition emit_word (cur : jsstring) : list jsstring :=
  match cur with
  | [] => []
  | _ :: _ => [cur]
  end.

Fixpoint tokens (cur s : jsstring) : list jsstring :=
  match s with
  | [] => emit_word cur
  | c :: r => if is_ws c then emit_word cur ++ tokens [] r
              else tokens (cur ++ [c]) r
  end.

Definition words (s : jsstring) : list jsstring := tokens [] s.

(** Words put one space apart. *)
Definition unwords (ws : list jsstring) : jsstring := join [SPACE] ws.

(** The bytes of a chunk. *)
Definition payload (c : AudioChunk) : list byte := bytes (content (file c)).

Definition sum_sizes (chunks : list AudioChunk) : Z :=
  fold_right Z.add 0 (List.map (fun c => size (file c)) chunks).

(** The events of the chunking phase, as the batch callback receives
    them. *)
Definition analyzing_event : BatchProgress :=
  {| phase := analyzing; currentChunk := 0; totalChunks := 0;
     progress := 0%Q; estimatedTimeRemaining := None |}.

Definition chunking_started (N : Z) : BatchProgress :=
  {| phase := chunking; currentChunk := 0; totalChunks := N;
     progress := 0%Q; estimatedTimeRemaining := None |}.

Definition chunking_event (N i : Z) : BatchProgress :=
  {| phase := chunking; currentChunk := i + 1; totalChunks := N;
     progress := fl (fl (inject_Z (i + 1) / inject_Z N) * 100);
     estimatedTimeRemaining := None |}.

(** The events of the processing phase. *)
Definition processing_started (total estimatedTime : Z) : BatchProgress :=
  {| phase := processing; currentChunk := 0; totalChunks := total;
     progress := 0%Q; estimatedTimeRemaining := Some estimatedTime |}.

Definition processing_event (total startTime i t : Z) : BatchProgress :=
  {| phase := processing; currentChunk := i + 1; totalChunks := total;
     progress := fl (fl (inject_Z (i + 1) / inject_Z total) * 100);
     estimatedTimeRemaining :=
       Some (Qceiling
               (fl (fl (fl (inject_Z (t - startTime) / 1000)
                        / inject_Z (i + 1))
                    * inject_Z (total - (i + 1))))) |}.

Definition combining_event (total : Z) : BatchProgress :=
  {| phase := combining; currentChunk := total; totalChunks := total;
     progress := 100%Q; estimatedTimeRemaining := None |}.

(** The world once chunk number [i] has been handled with a call to the
    endpoint that left the world [w]: the clock is read and the progress
    reported. *)
Definition chunk_done (env : Env) (total startTime i : Z) (w : World)
    : World :=
  emit (tick w) [processing_event total startTime i (now env (clockReads w))].

(** The world in which the loop of [transcribeAudioInBatches] starts,
    [wc] being the world that chunking left: the clock is read and
    the start of the processing phase reported. *)
Definition loop_start (chunks : list AudioChunk) (wc : World) : World :=
  emit (tick wc)
       [processing_started (Z.of_nat (List.length chunks))
                           (estimateProcessingTime chunks)].

(** The checkpoints of [transcribeWithCompression]. *)
Definition checkpoint_analyzing : BatchProgress :=
  compression_checkpoint analyzing 0 0%Q.
Definition checkpoint_loaded : BatchProgress :=
  compression_checkpoint processing 0 25%Q.
Definition checkpoint_staged : BatchProgress :=
  compression_checkpoint processing 0 50%Q.
Definition checkpoint_transformed : BatchProgress :=
  compression_checkpoint processing 0 75%Q.
Definition checkpoint_read : BatchProgress :=
  compression_checkpoint combining 1 90%Q.
Definition checkpoint_transcribed : BatchProgress :=
  compression_checkpoint combining 1 100%Q.

(** The checkpoints that are reported before the encoder fails, or before
    the compressed file is submitted. *)
Definition checkpoints_before (o : EncoderOutcome) : list BatchProgress :=
  match o with
  | EncoderUnavailable _ => [checkpoint_analyzing]
  | StagingFails _ => [checkpoint_analyzing; checkpoint_loaded]
  | TransformFails _ =>
      [checkpoint_analyzing; checkpoint_loaded; checkpoint_staged]
  | OutputUnreadable _ =>
      [checkpoint_analyzing; checkpoint_loaded; checkpoint_staged;
       checkpoint_transformed]
  | Encoded _ =>
      [checkpoint_analyzing; checkpoint_loaded; checkpoint_staged;
       checkpoint_transformed; checkpoint_read]
  end.

Definition encoder_fails (o : EncoderOutcome) : bool :=
  match o with
  | Encoded _ => false
  | _ => true
  end.

(** The request that carries the compressed file. *)
Definition compressed_request (request : TranscriptionRequest)
    (out : ArrayBuffer) : TranscriptionRequest :=
  with_file request {| name := lit "compressed_audio.ogg";
                       mime := lit "audio/ogg";
                       content := out |}.

Definition result_of (request : TranscriptionRequest) (t : jsstring)
    : TranscriptionResult :=
  {| text := t;
     audioFileName := name (req_file request);
     language := req_language request |}.

(** The environment with another encoder. *)
Definition with_encoder (env : Env) (enc : File -> EncoderOutcome) : Env :=
  {| audioDuration := audioDuration env;
     encoder := enc;
     remote := remote env;
     now := now env |}.

(** The order of the phases. *)
Definition phase_rank (p : Phase) : Z :=
  match p with
  | analyzing => 0
  | chunking => 1
  | processing => 2
  | combining => 3
  end.

(** A sequence of phases only moves forward: no phase is followed, at
    any distance, by an earlier one. *)
Fixpoint forward_from (p : Phase) (l : list Phase) : bool :=
  match l with
  | [] => true
  | q :: r => (phase_rank p <=? phase_rank q) && forward_from q r
  end.

Definition forward (l : list Phase) : bool :=
  match l with
  | [] => true
  | p :: r => forward_from p r
  end.

Definition phases (evs : list BatchProgress) : list Phase :=
  List.map phase evs.

(** [q] is the request that the loop makes for one of the [chunks], which
    holds 1000 bytes or more. *)
Definition submits_chunk (request : TranscriptionRequest)
    (chunks : list AudioChunk) (q : TranscriptionRequest) : Prop :=
  1000 <= size (req_file q) /\
  exists c, In c chunks /\ q = with_file request (file c).

(** [ev] is the report of the processing phase for one of the [chunks],
    which holds 1000 bytes or more, the first of them being chunk number
    [i]. *)
Definition reports_chunk (chunks : list AudioChunk) (i : Z)
    (ev : BatchProgress) : Prop :=
  phase ev = processing /\
  exists k c, nth_error chunks k = Some c /\
              1000 <= size (file c) /\
              currentChunk ev = i + Z.of_nat k + 1.

Definition is_processing (ev : BatchProgress) : bool :=
  match phase ev with
  | processing => true
  | _ => false
  end.

(** A progress callback that returns normally, whatever it does to the
    world. *)
Definition returns (onProgress : ChunkingProgress -> M unit) : Prop :=
  forall p w, fst (onProgress p w) = inr tt.

(** A string made of white space only (the empty string is one). *)
Definition blank (s : jsstring) : Prop := Forall (fun c => is_ws c = true) s.

(** A chunk of 1000 bytes or more, which the loop submits. *)
Definition big_enough (c : AudioChunk) : bool := negb (size (file c) <? 1000).

(** The request that the loop makes for a chunk. *)
Definition chunk_request (request : TranscriptionRequest) (c : AudioChunk)
    : TranscriptionRequest :=
  with_file request (file c).

(** What the loop records for a call that [response] answers: the text of
    the answer, or the empty string when the call fails (with an error that
    the loop tolerates, if it goes on). *)
Definition recorded_text (response : RemoteResponse) : jsstring :=
  match interpret_response response with
  | inr t => t
  | inl _ => []
  end.

(** The transcript that a completed loop records for the chunk [c], the
    chunks [before] standing before it in the list and the endpoint having
    received [n] requests when the loop started: the empty string for a
    chunk under 1000 bytes; otherwise what the endpoint answered to the
    request made for [c], which it received after these [n] and after
    those of the chunks of 1000 bytes or more among [before]. *)
Definition chunk_transcript (env : Env) (apiKey : jsstring)
    (request : TranscriptionRequest) (n : nat) (before : list AudioChunk)
    (c : AudioChunk) : jsstring :=
  if big_enough c
  then recorded_text
         (remote env (n + List.length (filter big_enough before)) apiKey
                 (chunk_request request c))
  else [].

(** The error that [transcribeAudio] throws for a key that is blank. *)
Definition key_required : Thrown :=
  JsObject (Some (lit "API key is required")) (Some validation_error) None.

(** The error that it throws when a [fetch] fails. *)
Definition network_failure : Thrown :=
  JsObject (Some (lit "Network error. Please check your connection."))
           (Some network_error) None.

(** The error of a batch whose file could not be chunked. *)
Definition chunking_failed : Thrown :=
  JsObject
    (Some (lit "Batch transcription failed: Failed to chunk audio file"))
    (Some api_error) None.

(** An endpoint that answers every request with the same text. *)
Definition echoing (t : jsstring) : Env :=
  {| audioDuration := audioDuration studio;
     encoder := fun _ => Encoded (zeros 200000);
     remote := fun _ _ _ => HttpOk (Some t);
     now := now studio |}.

(** A file whose metadata cannot be read, in front of an encoder that
    cannot be loaded. *)
Definition unreadable : Env :=
  {| audioDuration := fun _ =>
       inl (JsError PlainError (lit "Failed to load audio metadata"));
     encoder := encoder studio;
     remote := remote studio;
     now := now studio |}.

(** A connection that fails at every request. *)
Definition offline (msg : string) : Env :=
  {| audioDuration := audioDuration studio;
     encoder := encoder studio;
     remote := fun _ _ _ => FetchRejects (lit msg);
     now := now studio |}.

(** An endpoint that cannot decode any request it receives. *)
Definition undecodable : Env :=
  {| audioDuration := audioDuration studio;
     encoder := encoder studio;
     remote := fun _ _ _ =>
       HttpFailure (Some (lit "Invalid file format."))
                   (Some (lit "invalid_request_error"));
     now := now studio |}.

(** A word: one code unit or more, none of them white space. *)
Definition is_word (w : jsstring) : Prop := w <> [] /\ Forall not_ws w.

(** The endpoint refuses every request with an error that the loop of the
    batch tolerates. *)
Definition always_tolerated (env : Env) (apiKey : jsstring) : Prop :=
  forall n q, exists e,
    interpret_response (remote env n apiKey q) = inl e /\
    is_format_error e = true.

(* ================================================================== *)
(** * Numbers: rounding to a double *)

Section DoubleFacts.

Unset Implicit Arguments.

Lemma pow2_pos (e : Z) : (0 < pow2 e)%Q.
Proof. apply Qpower_0_lt. reflexivity. Qed.

Lemma pow2_le (a b : Z) : a <= b -> (pow2 a <= pow2 b)%Q.
Proof. intros H. apply Qpower_le_compat_l; [exact H|discriminate]. Qed.

Lemma pow2_lt (a b : Z) : a < b -> (pow2 a < pow2 b)%Q.
Proof. intros H. apply Qpower_lt_compat_l; [exact H|reflexivity]. Qed.

Lemma pow2_add (a b : Z) : (pow2 (a + b) == pow2 a * pow2 b)%Q.
Proof. apply Qpower_plus. discriminate. Qed.

Lemma pow2_Z (a : Z) : 0 <= a -> (inject_Z (2 ^ a) == pow2 a)%Q.
Proof. intros H. apply (Zpower_Qpower 2 a H). Qed.

Lemma ilog2_spec (x : Q) :
  (0 < x)%Q -> (pow2 (ilog2 x) <= x)%Q /\ (x < pow2 (ilog2 x + 1))%Q.
Proof.
  destruct x as [n d]. intros Hx.
  assert (Hn : 0 < n) by (unfold Qlt in Hx; simpl in Hx; lia).
  unfold ilog2. cbn [Qnum Qden].
  set (a := Z.log2 n). set (b := Z.log2 (Z.pos d)).
  pose proof (Z.log2_spec n Hn) as [Ha1 Ha2].
  pose proof (Z.log2_spec (Z.pos d) eq_refl) as [Hb1 Hb2].
  pose proof (Z.log2_nonneg n) as Ha0.
  pose proof (Z.log2_nonneg (Z.pos d)) as Hb0.
  fold a in Ha1, Ha2, Ha0. fold b in Hb1, Hb2, Hb0.
  rewrite Zle_Qle, pow2_Z in Ha1, Hb1 by lia.
  rewrite Zlt_Qlt, pow2_Z in Ha2, Hb2 by lia.
  assert (E : ((n # d) * inject_Z (Z.pos d) == inject_Z n)%Q)
    by (unfold Qeq; simpl; lia).
  set (X := n # d) in *. set (Dq := inject_Z (Z.pos d)) in *.
  set (Nq := inject_Z n) in *.
  pose proof (pow2_pos b) as Pb. pose proof (pow2_pos (a - b)) as Pk.
  pose proof (pow2_pos (a - b - 1)) as Pk1.
  pose proof (pow2_pos (a - b + 1)) as Pk2.
  destruct (Qle_bool (pow2 (a - b)) X) eqn:Hle.
  - apply Qle_bool_iff in Hle. split; [exact Hle|].
    pose proof (pow2_add (a - b + 1) b) as Hadd.
    replace (a - b + 1 + b) with (Z.succ a) in Hadd by lia.
    apply Qnot_le_lt. intros Hc. nra.
  - assert (Hlt : (X < pow2 (a - b))%Q).
    { apply Qnot_le_lt. intros Hc. apply Qle_bool_iff in Hc. congruence. }
    replace (a - b - 1 + 1) with (a - b) by lia.
    split; [|exact Hlt].
    pose proof (pow2_add (a - b - 1) (Z.succ b)) as Hadd.
    replace (a - b - 1 + Z.succ b) with a in Hadd by lia.
    apply Qnot_lt_le. intros Hc. nra.
Qed.

Lemma ilog2_le (x y : Q) : (0 < x)%Q -> (x <= y)%Q -> ilog2 x <= ilog2 y.
Proof.
  intros Hx Hxy.
  destruct (ilog2_spec x Hx) as [Hx1 _].
  destruct (ilog2_spec y ltac:(lra)) as [_ Hy2].
  assert (H : (pow2 (ilog2 x) < pow2 (ilog2 y + 1))%Q) by lra.
  apply Qpower_lt_compat_l_inv in H; [lia|reflexivity].
Qed.

Lemma round_half_even_cases (x : Q) :
  round_half_even x = Qfloor x \/ round_half_even x = Qfloor x + 1.
Proof.
  unfold round_half_even.
  destruct (_ ?= _)%Q; auto. destruct (Z.even _); auto.
Qed.

Lemma round_half_even_le (x y : Q) :
  (x <= y)%Q -> round_half_even x <= round_half_even y.
Proof.
  intros Hxy. pose proof (Qfloor_resp_le x y Hxy) as Hf.
  destruct (Z.eq_dec (Qfloor x) (Qfloor y)) as [E|NE].
  - unfold round_half_even. rewrite <- E.
    destruct (Qcompare_spec (x - inject_Z (Qfloor x)) (1 # 2));
      destruct (Qcompare_spec (y - inject_Z (Qfloor x)) (1 # 2));
      try lia; try (exfalso; lra); destruct (Z.even (Qfloor x)); lia.
  - destruct (round_half_even_cases x) as [-> | ->];
      destruct (round_half_even_cases y) as [-> | ->]; lia.
Qed.

Lemma round_half_even_Z (x : Q) (n : Z) :
  (x == inject_Z n)%Q -> round_half_even x = n.
Proof.
  intros E. unfold round_half_even.
  assert (Hf : Qfloor x = n) by (rewrite E; apply Qfloor_Z).
  rewrite Hf.
  destruct (Qcompare_spec (x - inject_Z n) (1 # 2));
    [exfalso; lra|reflexivity|exfalso; lra].
Qed.

Lemma round_half_even_ge (x : Q) (n : Z) :
  (inject_Z n <= x)%Q -> n <= round_half_even x.
Proof.
  intros H. rewrite <- (round_half_even_Z (inject_Z n) n) at 1 by reflexivity.
  now apply round_half_even_le.
Qed.

Lemma round_half_even_le_Z (x : Q) (n : Z) :
  (x <= inject_Z n)%Q -> round_half_even x <= n.
Proof.
  intros H. rewrite <- (round_half_even_Z (inject_Z n) n) at 1 by reflexivity.
  now apply round_half_even_le.
Qed.

Lemma fl_pos_eq (x : Q) :
  fl_pos x
  = (inject_Z (round_half_even (x / pow2 (expo x))) * pow2 (expo x))%Q.
Proof. reflexivity. Qed.

Lemma scaled_lt (x : Q) :
  (0 < x)%Q -> (x / pow2 (expo x) < inject_Z (2 ^ 53))%Q.
Proof.
  intros Hx. destruct (ilog2_spec x Hx) as [_ Hu].
  pose proof (pow2_pos (expo x)) as Pe.
  apply Qlt_shift_div_r; [exact Pe|].
  rewrite pow2_Z, <- pow2_add by lia.
  eapply Qlt_le_trans; [exact Hu|].
  apply pow2_le. unfold expo. lia.
Qed.

Lemma scaled_ge (x : Q) :
  (0 < x)%Q -> -1074 < expo x ->
  (inject_Z (2 ^ 52) <= x / pow2 (expo x))%Q.
Proof.
  intros Hx He. destruct (ilog2_spec x Hx) as [Hl _].
  pose proof (pow2_pos (expo x)) as Pe.
  apply Qle_shift_div_l; [exact Pe|].
  rewrite pow2_Z, <- pow2_add by lia.
  eapply Qle_trans; [|exact Hl].
  apply pow2_le. unfold expo in *. lia.
Qed.

Lemma fl_pos_nonneg (x : Q) : (0 < x)%Q -> (0 <= fl_pos x)%Q.
Proof.
  intros Hx. rewrite fl_pos_eq.
  pose proof (pow2_pos (expo x)) as Pe.
  apply Qmult_le_0_compat; [|lra].
  change 0%Q with (inject_Z 0). rewrite <- Zle_Qle.
  apply round_half_even_ge. change (inject_Z 0) with 0%Q.
  apply Qle_shift_div_l; [exact Pe|]. lra.
Qed.

Lemma fl_pos_le (x y : Q) :
  (0 < x)%Q -> (x <= y)%Q -> (fl_pos x <= fl_pos y)%Q.
Proof.
  intros Hx Hxy. assert (Hy : (0 < y)%Q) by lra.
  rewrite !fl_pos_eq.
  assert (He : expo x <= expo y)
    by (unfold expo; pose proof (ilog2_le x y Hx Hxy); lia).
  pose proof (pow2_pos (expo x)) as Px. pose proof (pow2_pos (expo y)) as Py.
  destruct (Z.eq_dec (expo x) (expo y)) as [E|NE].
  - rewrite E. apply Qmult_le_compat_r; [|lra].
    rewrite <- Zle_Qle. apply round_half_even_le.
    apply Qmult_le_compat_r; [exact Hxy|].
    apply Qlt_le_weak, Qinv_lt_0_compat, Py.
  - assert (Hm : round_half_even (x / pow2 (expo x)) <= 2 ^ 53)
      by (apply round_half_even_le_Z, Qlt_le_weak, scaled_lt, Hx).
    assert (Hn : 2 ^ 52 <= round_half_even (y / pow2 (expo y))).
    { apply round_half_even_ge, scaled_ge; [exact Hy|].
      unfold expo in *. lia. }
    rewrite Zle_Qle in Hm, Hn.
    assert (Hp : (inject_Z (2 ^ 53) * pow2 (expo x)
                  <= inject_Z (2 ^ 52) * pow2 (expo y))%Q).
    { rewrite !pow2_Z, <- !pow2_add by lia. apply pow2_le. lia. }
    eapply Qle_trans; [apply Qmult_le_compat_r; [exact Hm|lra]|].
    eapply Qle_trans; [exact Hp|].
    apply Qmult_le_compat_r; [exact Hn|lra].
Qed.

Lemma Qnum_Qred_pos (x : Q) : (0 < x)%Q -> exists p, Qnum (Qred x) = Z.pos p.
Proof.
  intros Hx. pose proof (Qred_correct x) as E.
  assert (H : (0 < Qred x)%Q) by (rewrite E; exact Hx).
  destruct (Qred x) as [[|p|p] d]; unfold Qlt in H; simpl in H; try lia.
  exists p. reflexivity.
Qed.

Lemma Qnum_Qred_zero (x : Q) : (x == 0)%Q -> Qnum (Qred x) = 0.
Proof. intros E. now rewrite (Qred_complete _ _ E). Qed.

(** [fl] gives the same double for equal rationals. *)
Lemma fl_proper (x y : Q) : (x == y)%Q -> fl x = fl y.
Proof. intros E. unfold fl. now rewrite (Qred_complete _ _ E). Qed.

Lemma fl_0 : fl 0 = 0%Q.
Proof. reflexivity. Qed.

Lemma fl_pos_branch (x : Q) : (0 < x)%Q -> (fl x == fl_pos (Qred x))%Q.
Proof.
  intros Hx. unfold fl. destruct (Qnum_Qred_pos x Hx) as [p ->].
  apply Qred_correct.
Qed.

Lemma fl_nonneg (x : Q) : (0 <= x)%Q -> (0 <= fl x)%Q.
Proof.
  intros Hx. destruct (Qlt_le_dec 0 x) as [H|H].
  - rewrite fl_pos_branch by exact H. apply fl_pos_nonneg.
    now rewrite Qred_correct.
  - rewrite (fl_proper x 0) by lra. discriminate.
Qed.

(** Rounding is monotone. *)
Lemma fl_le (x y : Q) : (0 <= x)%Q -> (x <= y)%Q -> (fl x <= fl y)%Q.
Proof.
  intros Hx Hxy. destruct (Qlt_le_dec 0 x) as [H|H].
  - rewrite !fl_pos_branch by lra.
    apply fl_pos_le; rewrite !Qred_correct; assumption.
  - rewrite (fl_proper x 0) by lra. apply fl_nonneg. lra.
Qed.

(** A double multiplied by zero. *)
Lemma fl_mult_0 (x : Q) : fl (x * inject_Z 0) = 0%Q.
Proof. rewrite (fl_proper (x * inject_Z 0) 0); [reflexivity|]. ring. Qed.

(** [(n / n) * 100] is 100. *)
Lemma fl_whole (n : Z) :
  0 < n -> fl (fl (inject_Z n / inject_Z n) * 100) = 100%Q.
Proof.
  intros Hn.
  rewrite (fl_proper (inject_Z n / inject_Z n) 1).
  - reflexivity.
  - field. intros H. unfold Qeq in H. simpl in H. lia.
Qed.

(** [(i / n) * 100] does not decrease with [i]. *)
Lemma fl_percentage_le (i j n : Z) :
  0 <= i <= j -> 0 < n ->
  (fl (fl (inject_Z i / inject_Z n) * 100)
   <= fl (fl (inject_Z j / inject_Z n) * 100))%Q.
Proof.
  intros Hij Hn.
  assert (Hinv : (0 <= / inject_Z n)%Q)
    by (apply Qinv_le_0_compat; rewrite <- (Zle_Qle 0); lia).
  assert (H0 : (0 <= inject_Z i / inject_Z n)%Q).
  { unfold Qdiv. apply Qmult_le_0_compat; [|exact Hinv].
    rewrite <- (Zle_Qle 0). lia. }
  assert (Hle : (inject_Z i / inject_Z n <= inject_Z j / inject_Z n)%Q).
  { unfold Qdiv. apply Qmult_le_compat_r; [|exact Hinv].
    rewrite <- Zle_Qle. lia. }
  pose proof (fl_nonneg _ H0) as F0.
  pose proof (fl_le _ _ H0 Hle) as Fle.
  apply fl_le; [|apply Qmult_le_compat_r; [exact Fle|discriminate]].
  apply Qmult_le_0_compat; [exact F0|discriminate].
Qed.

End DoubleFacts.

Set Implicit Arguments.

(* ================================================================== *)
(** * Strings: trimming, collapsing and words *)

Section StringFacts.

Lemma is_ws_SPACE : is_ws SPACE = true.
Proof. reflexivity. Qed.

Lemma trimStart_replace_ws_runs (s : jsstring) :
  forall b, trimStart (replace_ws_runs b s) = replace_ws_runs true s.
Proof.
  induction s as [|c r IH]; intros b; simpl; [reflexivity|].
  destruct (is_ws c) eqn:Hc.
  - destruct b; [apply IH|].
    change (trimStart (SPACE :: replace_ws_runs true r))
      with (if is_ws SPACE then trimStart (replace_ws_runs true r)
            else SPACE :: replace_ws_runs true r).
    rewrite is_ws_SPACE. apply IH.
  - simpl. rewrite Hc. reflexivity.
Qed.

Lemma trimEnd_app (a b : jsstring) :
  trimEnd (a ++ b) =
  match trimEnd b with
  | [] => trimEnd a
  | _ :: _ => a ++ trimEnd b
  end.
Proof.
  induction a as [|c a IH]; simpl.
  - destruct (trimEnd b); reflexivity.
  - rewrite IH. destruct (trimEnd b) as [|x b'] eqn:Hb; [reflexivity|].
    destruct a; reflexivity.
Qed.

Lemma trimEnd_word (w : jsstring) : Forall not_ws w -> trimEnd w = w.
Proof.
  induction 1 as [|c w Hc _ IH]; simpl; [reflexivity|].
  rewrite IH. unfold not_ws in Hc. rewrite Hc. destruct w; reflexivity.
Qed.

Lemma trimEnd_snoc_ws (s : jsstring) (c : codeunit) :
  is_ws c = true -> trimEnd (s ++ [c]) = trimEnd s.
Proof.
  intros Hc. rewrite trimEnd_app. simpl. rewrite Hc. reflexivity.
Qed.

Lemma trimEnd_snoc_word (s : jsstring) (c : codeunit) :
  is_ws c = false -> trimEnd (s ++ [c]) = s ++ [c].
Proof.
  intros Hc. rewrite trimEnd_app. simpl. rewrite Hc. reflexivity.
Qed.

(** [trimEnd] strips at the end what [trimStart] strips at the start. *)
Lemma trimEnd_rev (s : jsstring) : trimEnd s = rev (trimStart (rev s)).
Proof.
  induction s as [|c s IH] using rev_ind; [reflexivity|].
  rewrite rev_app_distr. simpl.
  destruct (is_ws c) eqn:Hc.
  - rewrite trimEnd_snoc_ws by assumption. exact IH.
  - rewrite trimEnd_snoc_word by assumption.
    simpl. rewrite rev_involutive. reflexivity.
Qed.

Lemma tokens_nonempty (s : jsstring) :
  forall cur, Forall (fun w => w <> []) (tokens cur s).
Proof.
  assert (E : forall cur, Forall (fun w : jsstring => w <> []) (emit_word cur)).
  { intros [|c cur]; simpl; constructor; [discriminate|constructor]. }
  induction s as [|c r IH]; intros cur; simpl; [apply E|].
  destruct (is_ws c); [|apply IH].
  apply Forall_app. split; [apply E|apply IH].
Qed.

Lemma unwords_cons (w : jsstring) (ws : list jsstring) :
  ws <> [] -> unwords (w :: ws) = w ++ SPACE :: unwords ws.
Proof. destruct ws; [congruence|reflexivity]. Qed.

Lemma unwords_nonempty (w : jsstring) (ws : list jsstring) :
  w <> [] -> unwords (w :: ws) <> [].
Proof.
  intros Hw. unfold unwords. simpl.
  destruct ws; [assumption|]. destruct w; [congruence|discriminate].
Qed.

(** Collapsing the runs and trimming the end leaves the words, one space
    apart: once for a scan that has just replaced a run, once for a scan
    inside the word [cur]. *)
Lemma trimEnd_replace_ws_runs (s : jsstring) :
  trimEnd (replace_ws_runs true s) = unwords (words s) /\
  forall cur, cur <> [] -> Forall not_ws cur ->
    trimEnd (cur ++ replace_ws_runs false s) = unwords (tokens cur s).
Proof.
  unfold words.
  induction s as [|c r [IHa IHb]].
  - split; [reflexivity|]. intros cur Hne Hcur. simpl.
    rewrite app_nil_r, trimEnd_word by assumption.
    destruct cur; [congruence|reflexivity].
  - cbn [replace_ws_runs tokens]. destruct (is_ws c) eqn:Hc.
    + split; [exact IHa|]. intros cur Hne Hcur.
      rewrite trimEnd_app.
      cbn [trimEnd]. rewrite IHa, is_ws_SPACE.
      destruct cur as [|d cur]; [congruence|]. cbn [emit_word app].
      destruct (tokens [] r) as [|w ws] eqn:Hw.
      * cbn [unwords join]. rewrite trimEnd_word by assumption.
        reflexivity.
      * assert (Hwne : w <> []).
        { pose proof (tokens_nonempty r []) as F.
          rewrite Hw in F. inversion F; assumption. }
        pose proof (unwords_nonempty ws Hwne) as Hu.
        rewrite (@unwords_cons (d :: cur) (w :: ws)) by discriminate.
        destruct (unwords (w :: ws)) as [|u us] eqn:Hj; [congruence|].
        reflexivity.
    + split.
      * apply (IHb [c]); [discriminate|].
        constructor; [exact Hc|constructor].
      * intros cur Hne Hcur.
        change (cur ++ c :: replace_ws_runs false r)
          with (cur ++ [c] ++ replace_ws_runs false r).
        rewrite app_assoc. apply IHb.
        -- destruct cur; discriminate.
        -- apply Forall_app. split; [assumption|].
           constructor; [exact Hc|constructor].
Qed.

Theorem trim_collapse_ws (s : jsstring) :
  trim (collapse_ws s) = unwords (words s).
Proof.
  unfold trim, collapse_ws. rewrite trimStart_replace_ws_runs.
  apply trimEnd_replace_ws_runs.
Qed.

Lemma words_trimStart (s : jsstring) : words (trimStart s) = words s.
Proof.
  unfold words. induction s as [|c r IH]; simpl; [reflexivity|].
  destruct (is_ws c) eqn:Hc; [exact IH|].
  simpl. rewrite Hc. reflexivity.
Qed.

Lemma tokens_trimEnd (s : jsstring) :
  forall cur, tokens cur (trimEnd s) = tokens cur s.
Proof.
  induction s as [|c r IH]; intros cur; simpl; [reflexivity|].
  destruct (trimEnd r) as [|x r'] eqn:Hr.
  - destruct (is_ws c) eqn:Hc; simpl.
    + rewrite <- IH. simpl. rewrite app_nil_r. reflexivity.
    + rewrite Hc, <- IH. reflexivity.
  - simpl. destruct (is_ws c); rewrite <- IH; reflexivity.
Qed.

Lemma words_trim (s : jsstring) : words (trim s) = words s.
Proof.
  unfold trim, words. rewrite tokens_trimEnd. apply words_trimStart.
Qed.

Lemma tokens_app_ws (a b : jsstring) (w : codeunit) :
  is_ws w = true ->
  forall cur, tokens cur (a ++ w :: b) = tokens cur a ++ words b.
Proof.
  intros Hw. induction a as [|c a IH]; intros cur; simpl.
  - rewrite Hw. reflexivity.
  - destruct (is_ws c); [|apply IH].
    rewrite IH, app_assoc. reflexivity.
Qed.

Lemma words_join (parts : list jsstring) :
  words (join [SPACE] parts) = flat_map words parts.
Proof.
  induction parts as [|x r IH]; [reflexivity|].
  destruct r as [|y r].
  - simpl. rewrite app_nil_r. reflexivity.
  - change (join [SPACE] (x :: y :: r))
      with (x ++ SPACE :: join [SPACE] (y :: r)).
    unfold words at 1. rewrite tokens_app_ws by reflexivity.
    rewrite IH. reflexivity.
Qed.

Lemma flat_map_words_survivors (parts : list jsstring) :
  flat_map words (filter (fun t => negb (is_empty t)) (List.map trim parts))
  = flat_map words parts.
Proof.
  induction parts as [|x r IH]; [reflexivity|].
  simpl. destruct (trim x) as [|c t] eqn:Hx; simpl.
  - rewrite IH, <- (words_trim x), Hx. reflexivity.
  - rewrite IH, <- Hx, words_trim. reflexivity.
Qed.

(** The normalisation of [combineChunkResults], as one fact about
    strings: trimming, dropping, joining, collapsing and trimming again
    keeps the words of the parts, in order, one space apart. *)
Theorem normalise_parts (parts : list jsstring) :
  trim (collapse_ws
          (join [SPACE]
             (filter (fun t => negb (is_empty t)) (List.map trim parts))))
  = unwords (flat_map words parts).
Proof.
  rewrite trim_collapse_ws, words_join, flat_map_words_survivors.
  reflexivity.
Qed.

(** [includes] finds its argument anywhere in the string. *)
Lemma starts_with_spec (p : jsstring) :
  forall s, starts_with p s = true <-> exists b, s = p ++ b.
Proof.
  induction p as [|a p IH]; intros s; simpl.
  - split; [intros _; exists s; reflexivity|reflexivity].
  - destruct s as [|c s].
    + split; [discriminate|intros [b E]; discriminate].
    + rewrite andb_true_iff, N.eqb_eq, IH. split.
      * intros [-> [b ->]]. exists b. reflexivity.
      * intros [b E]. inversion E; subst.
        split; [reflexivity|exists b; reflexivity].
Qed.

Lemma includes_spec (s p : jsstring) :
  includes s p = true <-> exists a b, s = a ++ p ++ b.
Proof.
  induction s as [|c s IH]; cbn [includes].
  - rewrite orb_false_r, starts_with_spec. split.
    + intros [b E]. exists [], b. exact E.
    + intros [a [b E]]. destruct a; simpl in E; [exists b; exact E|].
      discriminate.
  - rewrite orb_true_iff, starts_with_spec, IH. split.
    + intros [[b E]|[a [b E]]].
      * exists [], b. exact E.
      * exists (c :: a), b. simpl. now rewrite E.
    + intros [a [b E]]. destruct a as [|x a]; simpl in E.
      * left. exists b. exact E.
      * right. inversion E. exists a, b. reflexivity.
Qed.

End StringFacts.

(* ================================================================== *)
(** * [combineChunkResults]: the sort and the combined text *)

Section CombineFacts.

Lemma insert_result_perm (x : ChunkResult) (l : list ChunkResult) :
  Permutation (insert_result x l) (x :: l).
Proof.
  induction l as [|y r IH]; simpl; [apply Permutation_refl|].
  destruct (index (fst x) - index (fst y) <=? 0).
  - apply Permutation_refl.
  - eapply perm_trans; [apply perm_skip, IH|apply perm_swap].
Qed.

Lemma sort_results_perm (l : list ChunkResult) :
  Permutation (sort_results l) l.
Proof.
  induction l as [|x r IH]; simpl; [constructor|].
  eapply perm_trans; [apply insert_result_perm|].
  apply perm_skip, IH.
Qed.

Lemma insert_result_sorted (x : ChunkResult) (l : list ChunkResult) :
  StronglySorted by_index l -> StronglySorted by_index (insert_result x l).
Proof.
  induction 1 as [|y r Hr IH Hy]; simpl.
  - constructor; constructor.
  - destruct (index (fst x) - index (fst y) <=? 0) eqn:E.
    + apply Z.leb_le in E.
      constructor; [constructor; assumption|].
      constructor; [unfold by_index; lia|].
      eapply Forall_impl; [|exact Hy].
      unfold by_index. intros; lia.
    + apply Z.leb_gt in E.
      constructor; [exact IH|].
      eapply Permutation_Forall;
        [apply Permutation_sym, insert_result_perm|].
      constructor; [unfold by_index; lia|exact Hy].
Qed.

Lemma sort_results_sorted (l : list ChunkResult) :
  StronglySorted by_index (sort_results l).
Proof.
  induction l as [|x r IH]; simpl; [constructor|].
  apply insert_result_sorted, IH.
Qed.

Lemma NoDup_map_inj {A B} (f : A -> B) (l : list A) (a b : A) :
  NoDup (List.map f l) -> In a l -> In b l -> f a = f b -> a = b.
Proof.
  induction l as [|x r IH]; simpl; intros Hnd Ha Hb E; [contradiction|].
  inversion Hnd as [|? ? Hx Hr]; subst.
  destruct Ha as [->|Ha], Hb as [->|Hb]; auto.
  - exfalso. apply Hx. rewrite E. apply in_map, Hb.
  - exfalso. apply Hx. rewrite <- E. apply in_map, Ha.
Qed.

(** Among the arrangements of pairs with pairwise distinct chunk
    indices, one only is in index order. *)
Lemma sorted_arrangement_unique (l1 : list ChunkResult) :
  forall l2,
    Permutation l1 l2 ->
    NoDup (List.map (fun r => index (fst r)) l1) ->
    StronglySorted by_index l1 -> StronglySorted by_index l2 ->
    l1 = l2.
Proof.
  induction l1 as [|a l1 IH]; intros l2 HP Hnd S1 S2.
  - apply Permutation_nil in HP. congruence.
  - destruct l2 as [|b l2];
      [apply Permutation_sym, Permutation_nil in HP; discriminate|].
    assert (Hab : a = b).
    { apply (NoDup_map_inj (fun r => index (fst r)) (a :: l1)); auto.
      - left; reflexivity.
      - eapply Permutation_in; [apply Permutation_sym, HP|left; reflexivity].
      - inversion S1 as [|? ? _ F1]; inversion S2 as [|? ? _ F2]; subst.
        assert (Hb : In b (a :: l1))
          by (eapply Permutation_in;
              [apply Permutation_sym, HP|left; reflexivity]).
        assert (Ha : In a (b :: l2))
          by (eapply Permutation_in; [apply HP|left; reflexivity]).
        rewrite Forall_forall in F1, F2. unfold by_index in *.
        destruct Hb as [->|Hb]; [reflexivity|].
        destruct Ha as [<-|Ha]; [reflexivity|].
        specialize (F1 _ Hb). specialize (F2 _ Ha). lia. }
    subst b. f_equal.
    inversion Hnd; inversion S1; inversion S2; subst.
    apply IH; auto. eapply Permutation_cons_inv; exact HP.
Qed.

Lemma combine_fst_snd {A B} (l : list (A * B)) :
  List.combine (List.map fst l) (List.map snd l) = l.
Proof.
  induction l as [|[a b] l IH]; simpl; [reflexivity|]. now rewrite IH.
Qed.

Lemma combineChunkResults_ok (chunks : list AudioChunk)
    (transcriptions : list jsstring) :
  List.length chunks = List.length transcriptions ->
  combineChunkResults chunks transcriptions =
  inr (unwords
         (flat_map words
            (List.map snd
               (sort_results (List.combine chunks transcriptions))))).
Proof.
  intros H. unfold combineChunkResults.
  rewrite H, Nat.eqb_refl. cbn [negb].
  rewrite <- normalise_parts, map_map. reflexivity.
Qed.

End CombineFacts.

(** C5. [combineChunkResults], given as many transcripts as chunks, puts the
    (chunk, transcript) pairs in ascending chunk-index order, trims every
    transcript, drops those that are empty once trimmed, joins the others
    with one space, collapses every run of white space to one space and
    trims the result; what it returns is therefore the words of the
    transcripts, in chunk-index order, one space apart.  With chunks
    indexed 0, 1, 2 the transcripts [" a  b "], empty, [" c"] give
    ["a b c"], and ["Hello "], empty, ["world"] give ["Hello world"]. *)
Theorem combine_trims_drops_joins_collapses :
  (forall (chunks : list AudioChunk) (transcriptions : list jsstring),
      List.length chunks = List.length transcriptions ->
      exists sortedResults : list ChunkResult,
        Permutation sortedResults (List.combine chunks transcriptions) /\
        StronglySorted by_index sortedResults /\
        combineChunkResults chunks transcriptions =
          inr (trim
                 (collapse_ws
                    (join [SPACE]
                       (filter (fun t => negb (is_empty t))
                          (List.map trim (List.map snd sortedResults)))))) /\
        combineChunkResults chunks transcriptions =
          inr (unwords (flat_map words (List.map snd sortedResults)))) /\
  combineChunkResults [chunk_at 0; chunk_at 1; chunk_at 2]
                      [lit " a  b "; []; lit " c"] = inr (lit "a b c") /\
  combineChunkResults [chunk_at 0; chunk_at 1; chunk_at 2]
                      [lit "Hello "; []; lit "world"]
    = inr (lit "Hello world").
Proof.
  split; [|split; reflexivity].
  intros chunks transcriptions H.
  exists (sort_results (List.combine chunks transcriptions)).
  split; [apply sort_results_perm|].
  split; [apply sort_results_sorted|].
  split; [|apply combineChunkResults_ok; exact H].
  unfold combineChunkResults. rewrite H, Nat.eqb_refl. cbn [negb].
  rewrite map_map. reflexivity.
Qed.

Lemma combine_trims_drops_joins_collapses_witness :
  exists sortedResults : list ChunkResult,
    Permutation sortedResults
      (List.combine [chunk_at 1; chunk_at 0] [lit " b"; lit "a  "]) /\
    StronglySorted by_index sortedResults /\
    combineChunkResults [chunk_at 1; chunk_at 0] [lit " b"; lit "a  "] =
      inr (trim
             (collapse_ws
                (join [SPACE]
                   (filter (fun t => negb (is_empty t))
                      (List.map trim (List.map snd sortedResults)))))) /\
    combineChunkResults [chunk_at 1; chunk_at 0] [lit " b"; lit "a  "] =
      inr (unwords (flat_map words (List.map snd sortedResults))).
Proof.
  apply (proj1 combine_trims_drops_joins_collapses
               [chunk_at 1; chunk_at 0] [lit " b"; lit "a  "]).
  reflexivity.
Defined.

(** C6. [combineChunkResults] does not depend on the order in which the
    (chunk, transcript) pairs arrive: two sequences of the same correctly
    tagged pairs (chunk indices pairwise distinct), in whatever order, give
    the same combined string, because the pairs are sorted by chunk index
    before they are joined. *)
Theorem combine_independent_of_arrival_order
    (arrived1 arrived2 : list ChunkResult) :
  Permutation arrived1 arrived2 ->
  NoDup (List.map (fun r => index (fst r)) arrived1) ->
  exists out : jsstring,
    combineChunkResults (List.map fst arrived1) (List.map snd arrived1)
      = inr out /\
    combineChunkResults (List.map fst arrived2) (List.map snd arrived2)
      = inr out.
Proof.
  intros HP Hnd.
  assert (E : sort_results arrived1 = sort_results arrived2).
  { apply sorted_arrangement_unique.
    - eapply perm_trans; [apply sort_results_perm|].
      eapply perm_trans; [exact HP|apply Permutation_sym, sort_results_perm].
    - eapply Permutation_NoDup; [|exact Hnd].
      apply Permutation_map, Permutation_sym, sort_results_perm.
    - apply sort_results_sorted.
    - apply sort_results_sorted. }
  eexists. split.
  - rewrite combineChunkResults_ok by (now rewrite !length_map).
    rewrite combine_fst_snd. reflexivity.
  - rewrite combineChunkResults_ok by (now rewrite !length_map).
    rewrite combine_fst_snd, E. reflexivity.
Qed.

Lemma combine_independent_of_arrival_order_witness :
  exists out : jsstring,
    combineChunkResults
      (List.map fst [(chunk_at 2, lit "c"); (chunk_at 0, lit "a");
                     (chunk_at 1, lit "b")])
      (List.map snd [(chunk_at 2, lit "c"); (chunk_at 0, lit "a");
                     (chunk_at 1, lit "b")]) = inr out /\
    combineChunkResults
      (List.map fst [(chunk_at 0, lit "a"); (chunk_at 1, lit "b");
                     (chunk_at 2, lit "c")])
      (List.map snd [(chunk_at 0, lit "a"); (chunk_at 1, lit "b");
                     (chunk_at 2, lit "c")]) = inr out.
Proof.
  apply combine_independent_of_arrival_order.
  - eapply perm_trans; [apply perm_swap|].
    apply perm_skip, perm_swap.
  - simpl. repeat constructor; simpl; intuition discriminate.
Defined.

(** C10. [combineChunkResults] requires as many transcriptions as chunks:
    when the two lengths differ it throws the error 'Chunk and
    transcription arrays must have the same length' and returns no
    string. *)
Theorem combine_rejects_length_mismatch
    (chunks : list AudioChunk) (transcriptions : list jsstring) :
  List.length chunks <> List.length transcriptions ->
  combineChunkResults chunks transcriptions =
    inl (JsError PlainError
           (lit "Chunk and transcription arrays must have the same length")).
Proof.
  intros H. unfold combineChunkResults.
  apply Nat.eqb_neq in H. rewrite H. reflexivity.
Qed.

Lemma combine_rejects_length_mismatch_witness :
  combineChunkResults [chunk_at 0; chunk_at 1] [lit "only one"] =
    inl (JsError PlainError
           (lit "Chunk and transcription arrays must have the same length")).
Proof.
  apply combine_rejects_length_mismatch. simpl. discriminate.
Defined.

(* ================================================================== *)
(** * [chunkAudioFile]: the byte ranges and the chunks *)

Section ChunkingFacts.

Lemma Qceiling_div (L C : Z) :
  0 < C -> Qceiling (inject_Z L / inject_Z C) = - ((- L) / C).
Proof.
  intros HC. destruct C as [|p|p]; try lia.
  unfold Qceiling, Qfloor, Qdiv, Qmult, Qinv, Qopp, inject_Z. simpl.
  rewrite Z.mul_1_r. reflexivity.
Qed.

Lemma Qfloor_div (L N : Z) : Qfloor (inject_Z L / inject_Z N) = L / N.
Proof. symmetry. apply Zdiv_Qdiv. Qed.

(** [Math.ceil(L / C)] is the least number of chunks of at most [C]
    bytes that cover [L] bytes. *)
Lemma estimatedChunks_bounds (L C : Z) :
  0 < L -> 0 < C ->
  let N := Qceiling (inject_Z L / inject_Z C) in
  (N - 1) * C < L <= N * C /\ 1 <= N <= L.
Proof.
  intros HL HC N. subst N. rewrite Qceiling_div by assumption.
  pose proof (Z.div_mod (- L) C ltac:(lia)) as E.
  pose proof (Z.mod_pos_bound (- L) C HC) as B.
  set (q := (- L) / C) in *. nia.
Qed.

Lemma chunkSize_bounds (L N : Z) :
  0 < L -> 1 <= N <= L ->
  1 <= L / N /\ (N - 1) * (L / N) <= L /\ N * (L / N) <= L.
Proof.
  intros HL HN.
  pose proof (Z.div_mod L N ltac:(lia)) as E.
  pose proof (Z.mod_pos_bound L N ltac:(lia)) as B.
  assert (1 <= L / N) by (apply Z.div_le_lower_bound; lia).
  nia.
Qed.

Lemma byteLength_slice (b : ArrayBuffer) (a e : Z) :
  0 <= a <= e -> e <= byteLength b -> byteLength (slice b a e) = e - a.
Proof.
  intros Ha He. unfold slice, clamp_index. simpl.
  destruct (Z.ltb_spec a 0), (Z.ltb_spec e 0); lia.
Qed.

Lemma map_seq_from {A} (g : nat -> A) (n : nat) :
  forall m, List.map g (seq m n) = List.map (fun k => g (m + k)%nat) (seq 0 n).
Proof.
  intros m. rewrite <- (Nat.add_0_r m) at 1.
  generalize 0%nat as z.
  induction n as [|n IH]; intros z; simpl; [reflexivity|].
  f_equal. rewrite <- Nat.add_succ_r. apply IH.
Qed.

Lemma bytes_slice (b : ArrayBuffer) (a e : Z) :
  0 <= a <= e -> e <= byteLength b ->
  bytes (slice b a e) =
  List.map (fun k => byteAt b (a + Z.of_nat k)) (seq 0 (Z.to_nat (e - a))).
Proof.
  intros Ha He. unfold bytes. rewrite byteLength_slice by assumption.
  apply map_ext. intros k. unfold slice, clamp_index. simpl.
  destruct (Z.ltb_spec a 0); [lia|]. f_equal. lia.
Qed.

Lemma bytes_slice_app (b : ArrayBuffer) (a m e : Z) :
  0 <= a <= m -> m <= e <= byteLength b ->
  bytes (slice b a m) ++ bytes (slice b m e) = bytes (slice b a e).
Proof.
  intros Ha He. rewrite !bytes_slice by lia.
  replace (Z.to_nat (e - a)) with (Z.to_nat (m - a) + Z.to_nat (e - m))%nat
    by lia.
  rewrite seq_app, map_app. f_equal.
  rewrite (map_seq_from _ _ (0 + Z.to_nat (m - a))).
  apply map_ext. intros k. f_equal. lia.
Qed.

Lemma bytes_slice_all (b : ArrayBuffer) :
  0 <= byteLength b -> bytes (slice b 0 (byteLength b)) = bytes b.
Proof.
  intros H. rewrite bytes_slice by lia. unfold bytes.
  rewrite Z.sub_0_r. reflexivity.
Qed.

Lemma loop_indices_succ (k : nat) :
  loop_indices (Z.of_nat (S k)) = loop_indices (Z.of_nat k) ++ [Z.of_nat k].
Proof.
  unfold loop_indices. rewrite !Nat2Z.id, seq_S, map_app. reflexivity.
Qed.

Lemma length_loop_indices (n : Z) :
  List.length (loop_indices n) = Z.to_nat n.
Proof. unfold loop_indices. now rewrite length_map, length_seq. Qed.

Lemma nth_error_loop_indices (n : Z) (i : nat) (x : Z) :
  nth_error (loop_indices n) i = Some x ->
  x = Z.of_nat i /\ Z.of_nat i < n.
Proof.
  unfold loop_indices. intros H.
  assert (Hi : (i < Z.to_nat n)%nat).
  { rewrite <- (length_seq (Z.to_nat n) 0), <- (length_map Z.of_nat).
    apply nth_error_Some. congruence. }
  rewrite nth_error_map, nth_error_seq in H.
  apply Nat.ltb_lt in Hi as Hb. rewrite Hb in H. simpl in H.
  inversion H. split; lia.
Qed.

Lemma sum_sizes_app (a b : list AudioChunk) :
  sum_sizes (a ++ b) = sum_sizes a + sum_sizes b.
Proof.
  unfold sum_sizes. induction a as [|c a IH]; simpl; [reflexivity|].
  rewrite IH. lia.
Qed.

Variables (f : File) (N s : Z) (d : Q).
Let L := size f.
Let chunk := chunk_of f (content f) N s d.

Hypothesis HN : 1 <= N.
Hypothesis Hs : 0 <= s.
Hypothesis Hfit : (N - 1) * s <= L.

Lemma size_chunk (i : Z) :
  0 <= i < N ->
  size (file (chunk i)) = if i =? N - 1 then L - (N - 1) * s else s.
Proof.
  intros Hi. unfold chunk, chunk_of, size. cbn [file content].
  fold (size f). fold L.
  destruct (Z.eqb_spec i (N - 1)) as [->|Hne].
  - rewrite byteLength_slice; unfold size in L; fold L; nia.
  - rewrite byteLength_slice; unfold size in L; fold L; nia.
Qed.

Lemma payload_chunk (i : Z) :
  payload (chunk i) =
  bytes (slice (content f) (i * s)
               (if i =? N - 1 then L else (i + 1) * s)).
Proof. reflexivity. Qed.

Lemma payloads_prefix (k : nat) :
  Z.of_nat k <= N - 1 ->
  List.concat (List.map payload (List.map chunk (loop_indices (Z.of_nat k))))
  = bytes (slice (content f) 0 (Z.of_nat k * s)).
Proof.
  induction k as [|k IH]; intros Hk.
  { rewrite bytes_slice by (unfold size in L; fold L; nia). reflexivity. }
  rewrite loop_indices_succ, !map_app, concat_app, IH by lia.
  cbn [List.map List.concat]. rewrite app_nil_r, payload_chunk.
  destruct (Z.eqb_spec (Z.of_nat k) (N - 1)); [lia|].
  replace (Z.of_nat (S k) * s) with ((Z.of_nat k + 1) * s) by lia.
  apply bytes_slice_app; unfold size in L; fold L; nia.
Qed.

Lemma sizes_prefix (k : nat) :
  Z.of_nat k <= N - 1 ->
  sum_sizes (List.map chunk (loop_indices (Z.of_nat k))) = Z.of_nat k * s.
Proof.
  induction k as [|k IH]; intros Hk; [reflexivity|].
  rewrite loop_indices_succ, map_app, sum_sizes_app, IH by lia.
  unfold sum_sizes. cbn [List.map fold_right].
  rewrite size_chunk by lia.
  destruct (Z.eqb_spec (Z.of_nat k) (N - 1)); lia.
Qed.

Lemma loop_indices_last :
  loop_indices N = loop_indices (Z.of_nat (Z.to_nat (N - 1))) ++ [N - 1].
Proof.
  replace N with (Z.of_nat (S (Z.to_nat (N - 1)))) at 1 by lia.
  rewrite loop_indices_succ. f_equal. f_equal. lia.
Qed.

Lemma payloads_partition :
  List.concat (List.map payload (List.map chunk (loop_indices N)))
  = bytes (content f).
Proof.
  rewrite loop_indices_last, !map_app, concat_app, payloads_prefix by lia.
  cbn [List.map List.concat]. rewrite app_nil_r, payload_chunk, Z.eqb_refl.
  rewrite Z2Nat.id by lia.
  rewrite bytes_slice_app; unfold size in L; fold L; try nia.
  apply bytes_slice_all. unfold size in L. fold L. nia.
Qed.

Lemma sizes_sum : sum_sizes (List.map chunk (loop_indices N)) = L.
Proof.
  rewrite loop_indices_last, map_app, sum_sizes_app, sizes_prefix by lia.
  unfold sum_sizes. cbn [List.map fold_right].
  rewrite size_chunk by lia. rewrite Z.eqb_refl, Z2Nat.id by lia. lia.
Qed.

Lemma indices_contiguous :
  List.map index (List.map chunk (loop_indices N)) = loop_indices N.
Proof. rewrite map_map. apply map_id. Qed.

End ChunkingFacts.

Section ChunkAudioFileFacts.

Variables (env : Env) (onProgress : ChunkingProgress -> M unit).
Hypothesis Hret : returns onProgress.

Lemma chunk_loop_result (f : File) (buffer : ArrayBuffer) (N s : Z) (d : Q)
    (todo : list Z) :
  forall chunks w,
    fst (chunk_loop onProgress f buffer N s d todo chunks w) =
    inr (chunks ++ List.map (chunk_of f buffer N s d) todo).
Proof.
  induction todo as [|i rest IH]; intros chunks w; simpl.
  - now rewrite app_nil_r.
  - unfold bind.
    match goal with
    | |- context [onProgress ?p w] =>
        pose proof (Hret p w) as R; destruct (onProgress p w) as [[e|[]] w1]
    end; simpl in R; [discriminate|].
    rewrite IH, <- app_assoc. reflexivity.
Qed.

Lemma chunkAudioFile_result (f : File) (C : Z) (D : Q) (w : World) :
  audioDuration env f = inr D ->
  let N := Qceiling (inject_Z (size f) / inject_Z C) in
  let s := Qfloor (inject_Z (size f) / inject_Z N) in
  fst (chunkAudioFile env f C onProgress w) =
  inr (List.map (chunk_of f (content f) N s (fl (D / inject_Z N)))
                (loop_indices N)).
Proof.
  intros HD N s.
  unfold chunkAudioFile, try_catch, bind, getAudioDuration, lift_result.
  match goal with
  | |- context [onProgress ?p w] =>
      pose proof (Hret p w) as R; destruct (onProgress p w) as [[e|[]] w1]
  end; simpl in R; [discriminate|].
  rewrite HD.
  match goal with
  | |- context [onProgress ?p w1] =>
      pose proof (Hret p w1) as R'; destruct (onProgress p w1) as [[e|[]] w2]
  end; simpl in R'; [discriminate|].
  fold N. fold s.
  pose proof (chunk_loop_result f (content f) N s (fl (D / inject_Z N))
                (loop_indices N) [] w2) as E.
  destruct (chunk_loop onProgress f (content f) N s (fl (D / inject_Z N))
              (loop_indices N) [] w2) as [[e|cs] w3]; simpl in E.
  - discriminate.
  - simpl. exact E.
Qed.

End ChunkAudioFileFacts.

(** C4. For a file of [L > 0] bytes and a maximal chunk size [C > 0],
    [chunkAudioFile] (its duration [D] read, its callback returning)
    produces [N = ceil(L / C)] chunks, that is [(N-1)*C < L <= N*C]; their
    indices are 0..N-1 in order; their payloads, put end to end, are the
    bytes of the file, so that their lengths sum to [L]; every chunk but
    the last holds [floor(L / N)] bytes and the last one the remainder;
    chunk [i] starts at [i * (D / N)] and lasts [D / N], as doubles (the
    quotient rounded, then the product).  A file of 60 MiB cut with a
    maximal chunk size of 25 MiB gives three chunks of 20 MiB. *)
Theorem chunkAudioFile_partitions_the_file :
  (forall (env : Env) (f : File) (C : Z) (D : Q)
          (onProgress : ChunkingProgress -> M unit) (w : World),
      0 < size f -> 0 < C -> audioDuration env f = inr D ->
      returns onProgress ->
      exists chunks : list AudioChunk,
        fst (chunkAudioFile env f C onProgress w) = inr chunks /\
        let N := Z.of_nat (List.length chunks) in
        (N - 1) * C < size f <= N * C /\
        List.map index chunks = loop_indices N /\
        List.concat (List.map payload chunks) = bytes (content f) /\
        sum_sizes chunks = size f /\
        forall (i : nat) (c : AudioChunk),
          nth_error chunks i = Some c ->
          index c = Z.of_nat i /\
          size (file c) = (if Z.of_nat i =? N - 1
                           then size f - (N - 1) * (size f / N)
                           else size f / N) /\
          startTime c = fl (inject_Z (Z.of_nat i) * fl (D / inject_Z N)) /\
          duration c = fl (D / inject_Z N)) /\
  (forall (env : Env) (f : File) (D : Q)
          (onProgress : ChunkingProgress -> M unit) (w : World),
      size f = 60 * MiB -> audioDuration env f = inr D ->
      returns onProgress ->
      exists chunks : list AudioChunk,
        fst (chunkAudioFile env f (25 * MiB) onProgress w) = inr chunks /\
        List.map (fun c => size (file c)) chunks
          = [20 * MiB; 20 * MiB; 20 * MiB]).
Proof.
  split.
  - intros env f C D onProgress w HL HC HD Hret.
    pose proof (estimatedChunks_bounds HL HC) as [HN1 HN2].
    set (N := Qceiling (inject_Z (size f) / inject_Z C)) in *.
    pose proof (chunkSize_bounds HL HN2) as [Hs1 [Hs2 Hs3]].
    eexists. split; [apply (@chunkAudioFile_result env onProgress Hret f C D w HD)|].
    fold N. rewrite Qfloor_div.
    set (s := size f / N) in *.
    rewrite length_map, length_loop_indices, Z2Nat.id by lia.
    cbv zeta.
    split; [exact HN1|].
    split; [apply indices_contiguous|].
    split; [apply payloads_partition; lia|].
    split; [apply sizes_sum; lia|].
    intros i c Hc.
    rewrite nth_error_map in Hc.
    destruct (nth_error (loop_indices N) i) as [x|] eqn:Hx; [|discriminate].
    apply nth_error_loop_indices in Hx as [-> Hi].
    inversion Hc; subst c; clear Hc.
    split; [reflexivity|].
    split; [apply size_chunk; lia|].
    split; reflexivity.
  - intros env f D onProgress w HL HD Hret.
    eexists.
    split; [apply (@chunkAudioFile_result env onProgress Hret f (25 * MiB) D w HD)|].
    rewrite HL, map_map.
    assert (E : Qceiling (inject_Z (60 * MiB) / inject_Z (25 * MiB)) = 3)
      by reflexivity.
    rewrite E.
    assert (E' : Qfloor (inject_Z (60 * MiB) / inject_Z 3) = 20 * MiB)
      by reflexivity.
    rewrite E'.
    change (loop_indices 3) with [0; 1; 2].
    cbn [List.map].
    rewrite !(@size_chunk f 3 (20 * MiB) (fl (D / inject_Z 3)))
      by (rewrite ?HL; unfold MiB; lia).
    rewrite HL. reflexivity.
Qed.

Lemma chunkAudioFile_partitions_the_file_witness :
  (exists chunks : list AudioChunk,
      fst (chunkAudioFile studio (audio "talk.mp3" 10) 4
                          onChunkingProgress initial) = inr chunks /\
      List.map index chunks = [0; 1; 2] /\
      List.map (fun c => size (file c)) chunks = [3; 3; 4] /\
      sum_sizes chunks = 10) /\
  (exists chunks : list AudioChunk,
      fst (chunkAudioFile studio (audio "talk.mp3" (60 * MiB)) (25 * MiB)
                          onChunkingProgress initial) = inr chunks /\
      List.map (fun c => size (file c)) chunks
        = [20 * MiB; 20 * MiB; 20 * MiB]).
Proof.
  split.
  - destruct (proj1 chunkAudioFile_partitions_the_file
                studio (audio "talk.mp3" 10) 4 (600 # 1)%Q
                onChunkingProgress initial
                ltac:(reflexivity) ltac:(reflexivity) ltac:(reflexivity)
                ltac:(intros p w0; reflexivity))
      as [chunks [Hrun [_ [Hidx [_ [Hsum _]]]]]].
    exists chunks. split; [exact Hrun|].
    inversion Hrun; subst chunks.
    split; [reflexivity|]. split; [reflexivity|exact Hsum].
  - apply (proj2 chunkAudioFile_partitions_the_file
             studio (audio "talk.mp3" (60 * MiB)) (600 # 1)%Q
             onChunkingProgress initial);
      [reflexivity|reflexivity|intros p w0; reflexivity].
Defined.

(* ================================================================== *)
(** * Runs: what each routine does to the world *)

Section RunFacts.

Lemma emit_nil (w : World) : emit w [] = w.
Proof. destruct w. unfold emit. simpl. now rewrite app_nil_r. Qed.

Lemma emit_emit (w : World) (a b : list BatchProgress) :
  emit (emit w a) b = emit w (a ++ b).
Proof. unfold emit. simpl. now rewrite app_assoc. Qed.

Lemma chunk_loop_run (f : File) (buffer : ArrayBuffer) (N s : Z) (d : Q)
    (todo : list Z) :
  forall chunks w,
    chunk_loop onChunkingProgress f buffer N s d todo chunks w =
    (inr (chunks ++ List.map (chunk_of f buffer N s d) todo),
     emit w (List.map (chunking_event N) todo)).
Proof.
  induction todo as [|i rest IH]; intros chunks w.
  - simpl. now rewrite app_nil_r, emit_nil.
  - cbn [chunk_loop List.map]. unfold bind at 1.
    cbn [onChunkingProgress onBatchProgress cp_phase cp_currentChunk
         cp_totalChunks cp_progress].
    rewrite IH, emit_emit, <- app_assoc. reflexivity.
Qed.

Variable env : Env.

(** The chunks that [chunkAudioFile] cuts [f] into when it lasts [D]. *)
Lemma chunkAudioFile_run (f : File) (C : Z) (w : World) :
  chunkAudioFile env f C onChunkingProgress w =
  match audioDuration env f with
  | inl _ =>
      (inl (JsError PlainError (lit "Failed to chunk audio file")),
       emit w [analyzing_event])
  | inr D =>
      let N := Qceiling (inject_Z (size f) / inject_Z C) in
      let s := Qfloor (inject_Z (size f) / inject_Z N) in
      (inr (List.map (chunk_of f (content f) N s (fl (D / inject_Z N)))
                     (loop_indices N)),
       emit w (analyzing_event :: chunking_started N
                 :: List.map (chunking_event N) (loop_indices N)))
  end.
Proof.
  unfold chunkAudioFile, try_catch, bind, getAudioDuration, lift_result.
  cbn [onChunkingProgress onBatchProgress cp_phase cp_currentChunk
       cp_totalChunks cp_progress].
  destruct (audioDuration env f) as [e|D]; [reflexivity|].
  rewrite chunk_loop_run, !emit_emit. reflexivity.
Qed.

Variables (apiKey : jsstring) (request : TranscriptionRequest).

Lemma transcribeSingleFile_run (q : TranscriptionRequest) (w : World) :
  transcribeSingleFile env apiKey q w =
  (interpret_response (remote env (List.length (submitted w)) apiKey q),
   submit w q).
Proof. reflexivity. Qed.

Variables (total startTime : Z).

Local Notation "'loop'" :=
  (process_chunks env apiKey request total startTime).

Lemma process_chunks_skip (i : Z) (c : AudioChunk) (rest : list AudioChunk)
    (ts : list jsstring) (w : World) :
  size (file c) < 1000 ->
  loop i (c :: rest) ts w = loop (i + 1) rest (ts ++ [[]]) w.
Proof.
  intros H. cbn [process_chunks].
  apply Z.ltb_lt in H. rewrite H. reflexivity.
Qed.

Lemma process_chunks_call (i : Z) (c : AudioChunk) (rest : list AudioChunk)
    (ts : list jsstring) (w : World) :
  1000 <= size (file c) ->
  let q := with_file request (file c) in
  loop i (c :: rest) ts w =
  match interpret_response (remote env (List.length (submitted w)) apiKey q)
  with
  | inr t =>
      loop (i + 1) rest (ts ++ [t])
           (chunk_done env total startTime i (submit w q))
  | inl e =>
      if is_format_error e
      then loop (i + 1) rest (ts ++ [[]])
                (chunk_done env total startTime i (submit w q))
      else (inl e, submit w q)
  end.
Proof.
  intros H q. cbn [process_chunks].
  apply Z.ltb_ge in H. rewrite H.
  unfold bind at 1. unfold try_catch. unfold bind at 1.
  rewrite transcribeSingleFile_run. fold q.
  destruct (interpret_response _) as [e|t].
  - destruct (is_format_error e); reflexivity.
  - reflexivity.
Qed.

(** The loop over [a ++ b] is the loop over [a] followed, unless it
    threw, by the loop over [b]. *)
Lemma process_chunks_app (a b : list AudioChunk) :
  forall i ts w,
    loop i (a ++ b) ts w =
    match loop i a ts w with
    | (inr ts1, w1) => loop (i + Z.of_nat (List.length a)) b ts1 w1
    | (inl e, w1) => (inl e, w1)
    end.
Proof.
  induction a as [|c a IH]; intros i ts w.
  - simpl. unfold ret. now rewrite Z.add_0_r.
  - rewrite <- app_comm_cons.
    replace (i + Z.of_nat (List.length (c :: a)))
      with (i + 1 + Z.of_nat (List.length a))
      by (cbn [List.length]; lia).
    destruct (Z.lt_ge_cases (size (file c)) 1000) as [Hc|Hc].
    + rewrite !process_chunks_skip by assumption. apply IH.
    + rewrite !process_chunks_call by assumption.
      destruct (interpret_response _) as [e|t]; [|apply IH].
      destruct (is_format_error e); [apply IH|reflexivity].
Qed.

Lemma submits_chunk_later (c : AudioChunk) (rest : list AudioChunk)
    (q : TranscriptionRequest) :
  submits_chunk request rest q -> submits_chunk request (c :: rest) q.
Proof.
  intros [Hq [c0 [Hin E]]]. split; [exact Hq|].
  exists c0. split; [right; exact Hin|exact E].
Qed.

Lemma reports_chunk_later (c : AudioChunk) (rest : list AudioChunk) (i : Z)
    (ev : BatchProgress) :
  reports_chunk rest (i + 1) ev -> reports_chunk (c :: rest) i ev.
Proof.
  intros [Hp [k [c0 [Hk [Hc0 E]]]]]. split; [exact Hp|].
  exists (S k), c0. split; [exact Hk|]. split; [exact Hc0|]. lia.
Qed.

(** What every run of the loop does: it reports the processing of chunks
    of 1000 bytes or more and of no other, submits these chunks and no
    other, and, when it completes, has appended one transcript per chunk,
    empty for each chunk under 1000 bytes. *)
Lemma process_chunks_inv (todo : list AudioChunk) :
  forall i ts w,
    exists evs subs,
      events (snd (loop i todo ts w)) = events w ++ evs /\
      submitted (snd (loop i todo ts w)) = submitted w ++ subs /\
      Forall (reports_chunk todo i) evs /\
      Forall (submits_chunk request todo) subs /\
      forall ts', fst (loop i todo ts w) = inr ts' ->
        exists outs,
          ts' = ts ++ outs /\
          List.length outs = List.length todo /\
          forall k c, nth_error todo k = Some c ->
                      size (file c) < 1000 ->
                      nth_error outs k = Some [].
Proof.
  induction todo as [|c rest IH]; intros i ts w.
  - exists [], []. simpl. rewrite !app_nil_r.
    repeat split; auto.
    intros ts' E. inversion E; subst. exists []. rewrite app_nil_r.
    repeat split; auto. intros [|k] c0 H; discriminate.
  - assert (Continue :
      forall t w2 ev subs0,
        events w2 = events w ++ ev ->
        submitted w2 = submitted w ++ subs0 ->
        Forall (reports_chunk (c :: rest) i) ev ->
        Forall (submits_chunk request (c :: rest)) subs0 ->
        (size (file c) < 1000 -> t = []) ->
        exists evs subs,
          events (snd (loop (i + 1) rest (ts ++ [t]) w2)) = events w ++ evs /\
          submitted (snd (loop (i + 1) rest (ts ++ [t]) w2))
            = submitted w ++ subs /\
          Forall (reports_chunk (c :: rest) i) evs /\
          Forall (submits_chunk request (c :: rest)) subs /\
          forall ts', fst (loop (i + 1) rest (ts ++ [t]) w2) = inr ts' ->
            exists outs,
              ts' = ts ++ outs /\
              List.length outs = List.length (c :: rest) /\
              forall k c0, nth_error (c :: rest) k = Some c0 ->
                           size (file c0) < 1000 ->
                           nth_error outs k = Some []).
    { intros t w2 ev subs0 Hev Hsub Fev Fsub Ht.
      destruct (IH (i + 1) (ts ++ [t]) w2)
        as [evs [subs [E1 [E2 [F1 [F2 Houts]]]]]].
      exists (ev ++ evs), (subs0 ++ subs).
      rewrite E1, E2, Hev, Hsub, <- !app_assoc.
      split; [reflexivity|]. split; [reflexivity|].
      split.
      { apply Forall_app. split; [exact Fev|].
        eapply Forall_impl; [|exact F1].
        intros a. apply reports_chunk_later. }
      split.
      { apply Forall_app. split; [exact Fsub|].
        eapply Forall_impl; [|exact F2].
        intros a. apply submits_chunk_later. }
      intros ts' E. destruct (Houts ts' E) as [outs [-> [Hlen Hk]]].
      exists (t :: outs). rewrite <- app_assoc. simpl.
      split; [reflexivity|]. split; [now rewrite Hlen|].
      intros [|k] c0 Hc0 Hsmall; simpl in Hc0.
      + inversion Hc0; subst c0. simpl. now rewrite Ht.
      + simpl. eauto. }
    destruct (Z.lt_ge_cases (size (file c)) 1000) as [Hc|Hc].
    + rewrite process_chunks_skip by assumption.
      apply (Continue [] w [] []); auto using app_nil_r.
    + rewrite process_chunks_call by assumption.
      set (q := with_file request (file c)).
      assert (Hq : Forall (submits_chunk request (c :: rest)) [q]).
      { constructor; [|constructor]. split; [exact Hc|].
        exists c. split; [left; reflexivity|reflexivity]. }
      assert (Hp : forall t, Forall (reports_chunk (c :: rest) i)
                   [processing_event total startTime i t]).
      { intros t. constructor; [|constructor]. split; [reflexivity|].
        exists 0%nat, c. split; [reflexivity|]. split; [exact Hc|].
        simpl. lia. }
      destruct (interpret_response _) as [e|t].
      * destruct (is_format_error e).
        -- eapply Continue; eauto; try reflexivity; intros; lia.
        -- exists [], [q]. simpl. rewrite app_nil_r.
           repeat split; auto. intros ts' E; discriminate.
      * eapply Continue; eauto; try reflexivity; intros; lia.
Qed.

End RunFacts.

Section BatchFacts.

Variables (env : Env) (apiKey : jsstring) (request : TranscriptionRequest).

Lemma transcribeAudioInBatches_run (w : World) :
  transcribeAudioInBatches env apiKey request w =
  match chunkAudioFile env (req_file request) maxFileSize
                       onChunkingProgress w with
  | (inl e, wc) => (inl (batch_failure e), wc)
  | (inr chunks, wc) =>
      let total := Z.of_nat (List.length chunks) in
      match process_chunks env apiKey request total (now env (clockReads wc))
                           0 chunks [] (loop_start chunks wc) with
      | (inl e, wl) => (inl (batch_failure e), wl)
      | (inr ts, wl) =>
          match combineChunkResults chunks ts with
          | inl e => (inl (batch_failure e), emit wl [combining_event total])
          | inr combinedText =>
              (inr {| text := combinedText;
                      audioFileName := name (req_file request);
                      language := req_language request |},
               tick (emit wl [combining_event total]))
          end
      end
  end.
Proof.
  unfold transcribeAudioInBatches, try_catch. unfold bind at 1.
  destruct (chunkAudioFile _ _ _ _ w) as [[e|chunks] wc]; [reflexivity|].
  unfold bind at 1. cbn [date_now]. unfold bind at 1.
  cbn [onBatchProgress]. unfold bind at 1.
  fold (processing_started (Z.of_nat (List.length chunks))
                           (estimateProcessingTime chunks)).
  fold (loop_start chunks wc).
  destruct (process_chunks _ _ _ _ _ _ _ _ _) as [[e|ts] wl]; [reflexivity|].
  unfold bind at 1. cbn [onBatchProgress]. unfold bind at 1.
  unfold lift_result.
  destruct (combineChunkResults chunks ts) as [e|combinedText]; reflexivity.
Qed.

(** Whatever is thrown inside the batch reaches its caller as a new
    [api_error] object. *)
Lemma transcribeAudioInBatches_throws (w : World) (err : Thrown) :
  fst (transcribeAudioInBatches env apiKey request w) = inl err ->
  exists e, err = batch_failure e.
Proof.
  rewrite transcribeAudioInBatches_run.
  destruct (chunkAudioFile _ _ _ _ w) as [[e|chunks] wc]; simpl.
  - intros E; inversion E; eauto.
  - destruct (process_chunks _ _ _ _ _ _ _ _ _) as [[e|ts] wl]; simpl.
    + intros E; inversion E; eauto.
    + destruct (combineChunkResults chunks ts); simpl;
        intros E; inversion E; eauto.
Qed.

End BatchFacts.

Lemma chunkAudioFile_indices (env : Env) (f : File) (C : Z) (w : World)
    (chunks : list AudioChunk) :
  fst (chunkAudioFile env f C onChunkingProgress w) = inr chunks ->
  forall k c, nth_error chunks k = Some c -> index c = Z.of_nat k.
Proof.
  rewrite chunkAudioFile_run.
  destruct (audioDuration env f) as [e|D]; simpl; [discriminate|].
  intros E k c Hc. inversion E; subst chunks; clear E.
  rewrite nth_error_map in Hc.
  destruct (nth_error (loop_indices _) k) as [x|] eqn:Hx; [|discriminate].
  apply nth_error_loop_indices in Hx as [-> _].
  inversion Hc. reflexivity.
Qed.

(** A completed batch: the transcripts that its loop returned are one
    per chunk, and the text of the result is their combination. *)
Lemma transcribeAudioInBatches_completed (env : Env) (apiKey : jsstring)
    (request : TranscriptionRequest) (w : World) (res : TranscriptionResult) :
  fst (transcribeAudioInBatches env apiKey request w) = inr res ->
  exists (chunks : list AudioChunk) (ts : list jsstring),
    fst (chunkAudioFile env (req_file request) maxFileSize
                        onChunkingProgress w) = inr chunks /\
    List.length ts = List.length chunks /\
    (forall k c, nth_error chunks k = Some c ->
                 index c = Z.of_nat k /\
                 (size (file c) < 1000 -> nth_error ts k = Some [])) /\
    combineChunkResults chunks ts = inr (text res) /\
    exists subs,
      submitted (snd (transcribeAudioInBatches env apiKey request w))
        = submitted w ++ subs /\
      Forall (submits_chunk request chunks) subs.
Proof.
  rewrite transcribeAudioInBatches_run.
  pose proof (@chunkAudioFile_indices env (req_file request) maxFileSize w)
    as Hidx.
  pose proof (chunkAudioFile_run env (req_file request) maxFileSize w)
    as Hsub.
  destruct (chunkAudioFile _ _ _ _ w) as [[e|chunks] wc];
    [simpl; intros E; discriminate E|].
  cbv zeta.
  assert (Hwc : submitted wc = submitted w).
  { destruct (audioDuration env (req_file request));
      inversion Hsub; reflexivity. }
  destruct (process_chunks_inv env apiKey request
              (Z.of_nat (List.length chunks)) (now env (clockReads wc))
              chunks 0 [] (loop_start chunks wc))
    as [evs [subs [_ [E2 [_ [F2 Houts]]]]]].
  destruct (process_chunks _ _ _ _ _ _ _ _ _) as [[e|ts] wl];
    [simpl; intros E; discriminate E|].
  destruct (Houts ts eq_refl) as [outs [-> [Hlen Hk]]].
  destruct (combineChunkResults chunks ([] ++ outs)) as [e|txt] eqn:Hc;
    [simpl; intros E; discriminate E|].
  simpl. intros E. inversion E; subst res; clear E.
  exists chunks, outs. simpl in Hc.
  split; [reflexivity|]. split; [exact Hlen|].
  split.
  { intros k c Hkc. split.
    - apply (Hidx chunks eq_refl k c Hkc).
    - intros Hsmall. apply (Hk k c Hkc Hsmall). }
  split; [exact Hc|].
  exists subs. simpl in E2. rewrite E2. simpl. rewrite Hwc. auto.
Qed.

(** The errors that the loop tolerates are those whose message contains
    'file format'; the test for 'Invalid file format' adds nothing to
    it. *)
Lemma is_format_error_iff (e : Thrown) :
  is_format_error e = true <->
  exists m a b, message_of e = Some m /\ m = a ++ lit "file format" ++ b.
Proof.
  unfold is_format_error. destruct (message_of e) as [m|].
  - rewrite orb_true_iff, !includes_spec. split.
    + intros [[a [b E]]|[a [b E]]].
      * exists m, (a ++ lit "Invalid "), b. split; [reflexivity|].
        rewrite E, <- !app_assoc. reflexivity.
      * exists m, a, b. split; [reflexivity|exact E].
    + intros [m' [a [b [Hm E]]]]. injection Hm as Hm. rewrite Hm.
      right. exists a, b. exact E.
  - split; [discriminate|].
    intros [m [a [b [H _]]]]. discriminate.
Qed.

(** C1, as the code has it.  Let the loop of the batch have reached a
    chunk of 1000 bytes or more, at position [p], and let its call to the
    endpoint fail with [e].  If [e] is a format error (its message
    contains 'file format'), the loop goes on with the next chunk, the empty
    transcript being recorded at position [p].  Otherwise the loop throws
    [e] at once, in the world that this call left: nothing more is
    submitted.  The batch then ends in that same world without a result,
    and what its caller receives is not [e] but a new [api_error] whose
    message is 'Batch transcription failed: ' followed by the message of
    [e] when [e] is an instance of [Error] and by 'Unknown error'
    otherwise. *)
Theorem format_errors_tolerated_other_errors_abort :
  (forall (env : Env) (apiKey : jsstring) (request : TranscriptionRequest)
          (total startTime : Z) (before : list AudioChunk) (chunk : AudioChunk)
          (after : list AudioChunk) (w0 w : World) (ts : list jsstring)
          (e : Thrown),
      process_chunks env apiKey request total startTime 0 before [] w0
        = (inr ts, w) ->
      1000 <= size (file chunk) ->
      fst (transcribeSingleFile env apiKey (with_file request (file chunk)) w)
        = inl e ->
      let q := with_file request (file chunk) in
      let p := List.length before in
      let whole := process_chunks env apiKey request total startTime 0
                                  (before ++ chunk :: after) [] w0 in
      if is_format_error e
      then whole = process_chunks env apiKey request total startTime
                     (Z.of_nat p + 1) after (ts ++ [[]])
                     (chunk_done env total startTime (Z.of_nat p) (submit w q))
           /\ forall ts', fst whole = inr ts' -> nth_error ts' p = Some []
      else whole = (inl e, submit w q)) /\
  (forall (env : Env) (apiKey : jsstring) (request : TranscriptionRequest)
          (w wc wl : World) (chunks : list AudioChunk) (e : Thrown),
      chunkAudioFile env (req_file request) maxFileSize onChunkingProgress w
        = (inr chunks, wc) ->
      process_chunks env apiKey request (Z.of_nat (List.length chunks))
                     (now env (clockReads wc)) 0 chunks []
                     (loop_start chunks wc) = (inl e, wl) ->
      transcribeAudioInBatches env apiKey request w
        = (inl (batch_failure e), wl) /\
      batch_failure e =
        JsObject (Some (lit "Batch transcription failed: "
                        ++ match e with
                           | JsError _ m => m
                           | JsObject _ _ _ => lit "Unknown error"
                           end))
                 (Some api_error) None).
Proof.
  split.
  - intros env apiKey request total startTime before chunk after w0 w ts e
           Hreach Hsize Hfail q p whole.
    rewrite transcribeSingleFile_run in Hfail. simpl in Hfail. fold q in Hfail.
    assert (Hlen : List.length ts = p).
    { destruct (process_chunks_inv env apiKey request total startTime
                                   before 0 [] w0)
        as [_ [_ [_ [_ [_ [_ Houts]]]]]].
      rewrite Hreach in Houts.
      destruct (Houts ts eq_refl) as [outs [-> [Hl _]]]. exact Hl. }
    assert (Hwhole :
      whole = if is_format_error e
              then process_chunks env apiKey request total startTime
                     (Z.of_nat p + 1) after (ts ++ [[]])
                     (chunk_done env total startTime (Z.of_nat p) (submit w q))
              else (inl e, submit w q)).
    { subst whole. rewrite process_chunks_app, Hreach.
      rewrite process_chunks_call by assumption.
      fold q. rewrite Hfail. reflexivity. }
    destruct (is_format_error e); [|exact Hwhole].
    split; [exact Hwhole|].
    intros ts' Hts'. rewrite Hwhole in Hts'.
    destruct (process_chunks_inv env apiKey request total startTime
                after (Z.of_nat p + 1) (ts ++ [[]])
                (chunk_done env total startTime (Z.of_nat p) (submit w q)))
      as [_ [_ [_ [_ [_ [_ Houts]]]]]].
    destruct (Houts ts' Hts') as [outs [-> _]].
    rewrite <- app_assoc, nth_error_app2 by lia.
    rewrite Hlen, Nat.sub_diag. reflexivity.
  - intros env apiKey request w wc wl chunks e Hchunks Hloop.
    split; [|reflexivity].
    rewrite transcribeAudioInBatches_run, Hchunks. cbv zeta.
    rewrite Hloop. reflexivity.
Qed.

Lemma format_errors_tolerated_other_errors_abort_witness :
  (let request := request_for (audio "talk.mp3" 6000) in
   let whole := process_chunks garbled key request 3 0 0
                  ([chunk_at 0] ++ chunk_at 1 :: [chunk_at 2]) [] initial in
   fst whole = inr [lit "ok"; []; lit "ok"] /\
   forall ts', fst whole = inr ts' -> nth_error ts' 1 = Some []) /\
  (let request := request_for (audio "talk.mp3" 6000) in
   process_chunks locked_out key request 2 0 0
                  ([] ++ chunk_at 0 :: [chunk_at 1]) [] initial
   = (inl unauthorized_error,
      submit initial (with_file request (file (chunk_at 0))))) /\
  (let request := request_for (audio "talk.mp3" (30 * MiB)) in
   fst (transcribeAudioInBatches locked_out key request initial)
   = inl (batch_failure unauthorized_error)).
Proof.
  split; [|split].
  - intros request whole.
    pose proof (proj1 format_errors_tolerated_other_errors_abort
                  garbled key request 3 0 [chunk_at 0] (chunk_at 1)
                  [chunk_at 2] initial
                  (chunk_done garbled 3 0 0
                     (submit initial (with_file request (file (chunk_at 0)))))
                  [lit "ok"]
                  (JsObject (Some (lit "Transcription failed: Invalid file format."))
                            (Some api_error)
                            (Some (lit "invalid_request_error")))
                  ltac:(reflexivity) ltac:(vm_compute; discriminate)
                  ltac:(reflexivity)) as H.
    cbv zeta in H.
    change (is_format_error _) with true in H. cbv iota in H.
    destruct H as [_ H]. split; [reflexivity|exact H].
  - intros request.
    exact (proj1 format_errors_tolerated_other_errors_abort
             locked_out key request 2 0 [] (chunk_at 0) [chunk_at 1]
             initial initial [] unauthorized_error
             ltac:(reflexivity) ltac:(vm_compute; discriminate)
             ltac:(reflexivity)).
  - intros request.
    set (chunked := chunkAudioFile locked_out (req_file request) maxFileSize
                                   onChunkingProgress initial).
    set (chunks := match fst chunked with inr cs => cs | inl _ => [] end).
    set (looped := process_chunks locked_out key request
                     (Z.of_nat (List.length chunks))
                     (now locked_out (clockReads (snd chunked))) 0 chunks []
                     (loop_start chunks (snd chunked))).
    destruct (proj2 format_errors_tolerated_other_errors_abort
                locked_out key request initial (snd chunked) (snd looped)
                chunks unauthorized_error
                ltac:(reflexivity) ltac:(reflexivity)) as [E _].
    rewrite E. reflexivity.
Defined.

(** C1, counterexample.  With an endpoint that refuses the key, the batch
    over a file of 30 MiB submits its first chunk, whose call fails with
    the unauthorized error, not a format error; the batch aborts, but
    what its caller receives is another object, which has lost the message
    and the code of that error. *)
Lemma batch_does_not_rethrow_the_chunk_error :
  let request := request_for (audio "talk.mp3" (30 * MiB)) in
  let run := transcribeAudioInBatches locked_out key request initial in
  List.map (fun q => size (req_file q)) (submitted (snd run)) = [15 * MiB] /\
  (forall n q, interpret_response (remote locked_out n key q)
               = inl unauthorized_error) /\
  is_format_error unauthorized_error = false /\
  fst run = inl (JsObject
                   (Some (lit "Batch transcription failed: Unknown error"))
                   (Some api_error) None) /\
  fst run <> inl unauthorized_error.
Proof.
  intros request run.
  split; [reflexivity|]. split; [reflexivity|]. split; [reflexivity|].
  split; [reflexivity|]. discriminate.
Qed.

(* ================================================================== *)
(** * The compression route and the entry point *)

Section CompressionFacts.

Variables (env : Env) (apiKey : jsstring) (request : TranscriptionRequest).

Lemma transcribeWithCompression_run (w : World) :
  transcribeWithCompression env apiKey request w =
  let o := encoder env (req_file request) in
  let w1 := emit w (checkpoints_before o) in
  match o with
  | Encoded out =>
      let q := compressed_request request out in
      match interpret_response
              (remote env (List.length (submitted w)) apiKey q) with
      | inr t => (inr (result_of request t),
                  emit (submit w1 q) [checkpoint_transcribed])
      | inl _ => transcribeAudioInBatches env apiKey request (submit w1 q)
      end
  | _ => transcribeAudioInBatches env apiKey request w1
  end.
Proof.
  unfold transcribeWithCompression, try_catch.
  unfold ffmpeg_load, ffmpeg_writeFile, ffmpeg_exec, ffmpeg_readFile.
  unfold bind at 1. cbn [onBatchProgress].
  destruct (encoder env (req_file request)) as [e|e|e|e|out] eqn:Ho;
    cbv zeta; cbn [checkpoints_before].
  - reflexivity.
  - unfold bind, ret, throw. cbn [onBatchProgress].
    rewrite !emit_emit. reflexivity.
  - unfold bind, ret, throw. cbn [onBatchProgress].
    rewrite !emit_emit. reflexivity.
  - unfold bind, ret, throw. cbn [onBatchProgress].
    rewrite !emit_emit. reflexivity.
  - unfold bind at 1. unfold ret at 1. unfold bind at 1.
    cbn [onBatchProgress]. unfold bind at 1. unfold ret at 1.
    unfold bind at 1. cbn [onBatchProgress]. unfold bind at 1.
    unfold ret at 1. unfold bind at 1. cbn [onBatchProgress].
    unfold bind at 1. unfold ret at 1. unfold bind at 1.
    cbn [onBatchProgress]. unfold bind at 1.
    rewrite transcribeSingleFile_run, !emit_emit.
    fold (compressed_request request out).
    cbn [emit submitted app].
    destruct (interpret_response _) as [e|t]; reflexivity.
Qed.

End CompressionFacts.

Section EntryFacts.

Variables (env : Env) (apiKey : jsstring) (request : TranscriptionRequest).

(** What [transcribeWithCompression] throws comes from the batch. *)
Lemma transcribeWithCompression_throws (w : World) (err : Thrown) :
  fst (transcribeWithCompression env apiKey request w) = inl err ->
  exists e, err = batch_failure e.
Proof.
  rewrite transcribeWithCompression_run. cbv zeta.
  destruct (encoder env (req_file request)) as [e|e|e|e|out];
    try apply transcribeAudioInBatches_throws.
  destruct (interpret_response _) as [e|t].
  - apply transcribeAudioInBatches_throws.
  - simpl. discriminate.
Qed.

(** For a file over the limit, [transcribeAudio] returns or throws what
    [transcribeWithCompression] does: its handler rethrows the objects
    that carry a [type]. *)
Lemma transcribeAudio_oversized (w : World) :
  is_empty (trim apiKey) = false ->
  maxFileSize < size (req_file request) ->
  transcribeAudio env apiKey request w =
  transcribeWithCompression env apiKey request w.
Proof.
  intros Hkey Hsize. unfold transcribeAudio, try_catch.
  rewrite Hkey. apply Z.gtb_lt in Hsize. rewrite Hsize.
  pose proof (transcribeWithCompression_throws w) as Hthrows.
  destruct (transcribeWithCompression env apiKey request w)
    as [[err|res] w']; [|reflexivity].
  destruct (Hthrows err eq_refl) as [e ->]. reflexivity.
Qed.

Lemma transcribeAudio_direct (w : World) :
  is_empty (trim apiKey) = false ->
  size (req_file request) <= maxFileSize ->
  events (snd (transcribeAudio env apiKey request w)) = events w /\
  submitted (snd (transcribeAudio env apiKey request w))
    = submitted w ++ [request].
Proof.
  intros Hkey Hsize. unfold transcribeAudio, try_catch.
  rewrite Hkey.
  assert (E : (size (req_file request) >? maxFileSize) = false)
    by (rewrite Z.gtb_ltb; apply Z.ltb_ge; lia).
  rewrite E. unfold bind. rewrite transcribeSingleFile_run.
  destruct (interpret_response _) as [[cls m|m t c]|t]; simpl.
  - destruct cls; [split; reflexivity| |split; reflexivity].
    destruct (includes m (lit "fetch")); split; reflexivity.
  - split; reflexivity.
  - split; reflexivity.
Qed.

Lemma transcribeAudio_no_key (w : World) :
  is_empty (trim apiKey) = true ->
  transcribeAudio env apiKey request w
    = (inl (validation (lit "API key is required")), w).
Proof.
  intros Hkey. unfold transcribeAudio, try_catch. rewrite Hkey.
  reflexivity.
Qed.

(** The batch never consults the encoder. *)
Lemma process_chunks_ignores_encoder (enc : File -> EncoderOutcome)
    (total startTime : Z) (todo : list AudioChunk) :
  forall i ts w,
    process_chunks (with_encoder env enc) apiKey request total startTime
                   i todo ts w
    = process_chunks env apiKey request total startTime i todo ts w.
Proof.
  induction todo as [|c rest IH]; intros i ts w; [reflexivity|].
  destruct (Z.lt_ge_cases (size (file c)) 1000) as [Hc|Hc].
  - rewrite !process_chunks_skip by assumption. apply IH.
  - rewrite !process_chunks_call by assumption.
    change (remote (with_encoder env enc)) with (remote env).
    change (chunk_done (with_encoder env enc)) with (chunk_done env).
    destruct (interpret_response _) as [e|t]; [|apply IH].
    destruct (is_format_error e); [apply IH|reflexivity].
Qed.

Lemma transcribeAudioInBatches_ignores_encoder
    (enc : File -> EncoderOutcome) (w : World) :
  transcribeAudioInBatches (with_encoder env enc) apiKey request w
  = transcribeAudioInBatches env apiKey request w.
Proof.
  rewrite !transcribeAudioInBatches_run, !chunkAudioFile_run.
  change (audioDuration (with_encoder env enc)) with (audioDuration env).
  destruct (audioDuration env (req_file request)) as [e|D]; [reflexivity|].
  cbv beta iota zeta. rewrite process_chunks_ignores_encoder. reflexivity.
Qed.

End EntryFacts.

(** C2. For a file over the size limit (and a key that is not blank),
    whatever the stage at which the compression attempt fails and whatever
    it throws, [transcribeAudio] does exactly what the chunking route does
    from the world that the attempt left: when that route returns a
    result, this result is returned, and its text is the combination of
    one transcript per chunk of the file; what is thrown, if anything, is
    thrown by the chunking route, which never consults the encoder. *)
Theorem compression_failure_falls_back_to_chunking
    (env : Env) (apiKey : jsstring) (request : TranscriptionRequest)
    (w : World) :
  is_empty (trim apiKey) = false ->
  maxFileSize < size (req_file request) ->
  encoder_fails (encoder env (req_file request)) = true ->
  let attempted :=
    emit w (checkpoints_before (encoder env (req_file request))) in
  let fallback := transcribeAudioInBatches env apiKey request attempted in
  transcribeAudio env apiKey request w = fallback /\
  (forall enc, transcribeAudioInBatches (with_encoder env enc) apiKey request
                                        attempted = fallback) /\
  (forall res, fst fallback = inr res ->
     fst (transcribeAudio env apiKey request w) = inr res /\
     exists (chunks : list AudioChunk) (ts : list jsstring),
       fst (chunkAudioFile env (req_file request) maxFileSize
                           onChunkingProgress attempted) = inr chunks /\
       List.length ts = List.length chunks /\
       combineChunkResults chunks ts = inr (text res)) /\
  (forall err, fst (transcribeAudio env apiKey request w) = inl err ->
     exists e, err = batch_failure e).
Proof.
  intros Hkey Hsize Hfails attempted fallback.
  assert (E : transcribeAudio env apiKey request w = fallback).
  { rewrite transcribeAudio_oversized by assumption.
    rewrite transcribeWithCompression_run. cbv zeta.
    subst fallback attempted.
    destruct (encoder env (req_file request)); try reflexivity.
    discriminate Hfails. }
  split; [exact E|].
  split; [intros enc; apply transcribeAudioInBatches_ignores_encoder|].
  split.
  - intros res Hres. split; [rewrite E; exact Hres|].
    destruct (transcribeAudioInBatches_completed
                env apiKey request attempted Hres)
      as [chunks [ts [H1 [H2 [_ [H3 _]]]]]].
    exists chunks, ts. auto.
  - intros err Herr. rewrite E in Herr.
    eapply transcribeAudioInBatches_throws. exact Herr.
Qed.

Lemma compression_failure_falls_back_to_chunking_witness :
  let request := request_for (audio "talk.mp3" (60 * MiB)) in
  fst (transcribeAudio studio key request initial)
    = inr (result_of request (lit "ok ok ok")) /\
  List.map (fun q => size (req_file q))
           (submitted (snd (transcribeAudio studio key request initial)))
    = [20 * MiB; 20 * MiB; 20 * MiB].
Proof.
  intros request.
  destruct (@compression_failure_falls_back_to_chunking
              studio key request initial
              ltac:(reflexivity) ltac:(reflexivity) ltac:(reflexivity))
    as [E _].
  rewrite E. split; reflexivity.
Defined.

(** C3, what the code does.  The call that submits the compressed file
    stands inside the [try] block whose handler starts the chunking route:
    whenever the encoder succeeds and that call fails, with whatever error,
    [transcribeWithCompression] goes on as [transcribeAudioInBatches] on
    the original file.  With an endpoint that refuses the key, the failure
    of the call is so not what the caller receives: the file of 30 MiB is
    chunked, its first chunk of 15 MiB is submitted too, and the caller
    receives the failure of the batch.  With an endpoint that fails once,
    the caller even receives the transcript of the chunks. *)
Theorem direct_call_failure_starts_the_chunking_route :
  (forall (env : Env) (apiKey : jsstring) (request : TranscriptionRequest)
          (w : World) (out : ArrayBuffer) (e : Thrown),
      encoder env (req_file request) = Encoded out ->
      fst (transcribeSingleFile env apiKey (compressed_request request out)
             (emit w (checkpoints_before (Encoded out)))) = inl e ->
      transcribeWithCompression env apiKey request w
      = transcribeAudioInBatches env apiKey request
          (submit (emit w (checkpoints_before (Encoded out)))
                  (compressed_request request out))) /\
  (let request := request_for (audio "talk.mp3" (30 * MiB)) in
   let run := transcribeAudio shrinking_locked_out key request initial in
   interpret_response
     (remote shrinking_locked_out 0 key
             (compressed_request request (zeros 200000)))
     = inl unauthorized_error /\
   fst run = inl (JsObject
                    (Some (lit "Batch transcription failed: Unknown error"))
                    (Some api_error) None) /\
   List.map (fun q => size (req_file q)) (submitted (snd run))
     = [200000; 15 * MiB] /\
   phases (events (snd run))
     = [analyzing; processing; processing; processing; combining;
        analyzing; chunking; chunking; chunking; processing]) /\
  (let request := request_for (audio "talk.mp3" (30 * MiB)) in
   let run := transcribeAudio shrinking_flaky key request initial in
   fst run = inr (result_of request (lit "ok ok")) /\
   List.map (fun q => size (req_file q)) (submitted (snd run))
     = [200000; 15 * MiB; 15 * MiB]).
Proof.
  split; [|split].
  - intros env apiKey request w out e Ho Hfail.
    rewrite transcribeSingleFile_run in Hfail. cbn [fst emit submitted] in Hfail.
    rewrite transcribeWithCompression_run, Ho. cbv beta iota zeta.
    rewrite Hfail. reflexivity.
  - intros request run. repeat split; reflexivity.
  - intros request run. split; reflexivity.
Qed.

Lemma direct_call_failure_starts_the_chunking_route_witness :
  let request := request_for (audio "talk.mp3" (30 * MiB)) in
  transcribeWithCompression shrinking_locked_out key request initial
  = transcribeAudioInBatches shrinking_locked_out key request
      (submit (emit initial (checkpoints_before (Encoded (zeros 200000))))
              (compressed_request request (zeros 200000))).
Proof.
  intros request.
  apply (proj1 direct_call_failure_starts_the_chunking_route
           shrinking_locked_out key request initial (zeros 200000)
           unauthorized_error);
    reflexivity.
Defined.

(** C9, counterexample.  When the encoder fails after it was loaded, the
    chunking route starts again at [analyzing] although [processing] has
    already been reported. *)
Lemma fallback_revisits_analyzing :
  let request := request_for (audio "talk.mp3" (30 * MiB)) in
  let run := transcribeAudio transform_broken key request initial in
  phases (events (snd run))
    = [analyzing; processing; processing;
       analyzing; chunking; chunking; chunking;
       processing; processing; processing; combining] /\
  forward (phases (events (snd run))) = false.
Proof.
  intros request run. split; reflexivity.
Qed.

(* ================================================================== *)
(** * The order of the phases *)

Section PhaseFacts.

Lemma forward_from_weaken (p x : Phase) (b : list Phase) :
  phase_rank p <= phase_rank x ->
  forward_from x b = true -> forward_from p b = true.
Proof.
  destruct b as [|q b]; simpl; [reflexivity|].
  intros Hp H. apply andb_true_iff in H as [H1 H2].
  apply Z.leb_le in H1. apply andb_true_iff. split; [|exact H2].
  apply Z.leb_le. lia.
Qed.

(** A run of one phase [x], entered from [p], then whatever may follow
    [x]. *)
Lemma forward_from_run (x : Phase) (l b : list Phase) :
  Forall (fun y => y = x) l ->
  forward_from x b = true ->
  forall p, phase_rank p <= phase_rank x ->
            forward_from p (l ++ b) = true.
Proof.
  intros Hl Hb. induction Hl as [|y l -> _ IH]; intros p Hp; simpl.
  - eapply forward_from_weaken; eassumption.
  - apply andb_true_iff. split; [apply Z.leb_le; exact Hp|].
    apply IH. lia.
Qed.

Lemma phases_app (a b : list BatchProgress) :
  phases (a ++ b) = phases a ++ phases b.
Proof. apply map_app. Qed.

Lemma phases_processing (chunks : list AudioChunk) (i : Z)
    (evs : list BatchProgress) :
  Forall (reports_chunk chunks i) evs ->
  Forall (fun y => y = processing) (phases evs).
Proof.
  induction 1 as [|ev evs [Hp _] _ IH]; simpl; constructor; auto.
Qed.

Lemma phases_chunking (N : Z) (todo : list Z) :
  Forall (fun y => y = chunking)
         (phases (List.map (chunking_event N) todo)).
Proof.
  induction todo; simpl; constructor; auto.
Qed.

Variables (env : Env) (apiKey : jsstring) (request : TranscriptionRequest).

(** The events of a batch: [analyzing], then [chunking], then
    [processing], then [combining], each phase possibly cut short by a
    failure. *)
Lemma transcribeAudioInBatches_events (w : World) :
  exists evs,
    events (snd (transcribeAudioInBatches env apiKey request w))
      = events w ++ evs /\
    exists rest, phases evs = analyzing :: rest /\
                 forward_from analyzing rest = true.
Proof.
  rewrite transcribeAudioInBatches_run, chunkAudioFile_run.
  destruct (audioDuration env (req_file request)) as [e|D].
  - exists [analyzing_event]. split; [reflexivity|].
    exists []. split; reflexivity.
  - cbv beta iota zeta.
    set (N := Qceiling (inject_Z (size (req_file request))
                        / inject_Z maxFileSize)).
    set (chunks := List.map _ (loop_indices N)).
    set (wc := emit w _).
    destruct (process_chunks_inv env apiKey request
                (Z.of_nat (List.length chunks)) (now env (clockReads wc))
                chunks 0 [] (loop_start chunks wc))
      as [evl [_ [E1 [_ [F1 _]]]]].
    set (started := processing_started (Z.of_nat (List.length chunks))
                                       (estimateProcessingTime chunks)).
    assert (Shape : forall tail,
      Forall (fun y => y = combining) (phases tail) ->
      exists rest,
        phases (analyzing_event :: chunking_started N
                  :: List.map (chunking_event N) (loop_indices N)
                  ++ started :: evl ++ tail)
          = analyzing :: rest /\
        forward_from analyzing rest = true).
    { intros tail Ht.
      exists (phases ((chunking_started N
                         :: List.map (chunking_event N) (loop_indices N))
                      ++ (started :: evl) ++ tail)).
      split; [unfold phases; rewrite <- !app_comm_cons; reflexivity|].
      rewrite !phases_app.
      apply forward_from_run with (x := chunking);
        [constructor; [reflexivity|apply phases_chunking]| |simpl; lia].
      apply forward_from_run with (x := processing);
        [constructor; [reflexivity|eapply phases_processing, F1]|
        |simpl; lia].
      rewrite <- (app_nil_r (phases tail)).
      apply forward_from_run with (x := combining);
        [exact Ht|reflexivity|simpl; lia]. }
    assert (Hwl : forall wl,
      events wl = events (loop_start chunks wc) ++ evl ->
      forall tail,
        events (emit wl tail)
        = events w ++ analyzing_event :: chunking_started N
            :: List.map (chunking_event N) (loop_indices N)
            ++ started :: evl ++ tail).
    { intros wl Hwl tail. unfold emit at 1. cbn [events].
      rewrite Hwl. unfold loop_start, wc, emit. cbn [events tick].
      fold started. rewrite <- !app_assoc. reflexivity. }
    destruct (process_chunks _ _ _ _ _ _ _ _ _) as [[e|ts] wl];
      cbn [snd fst] in E1 |- *.
    + eexists. split.
      * rewrite <- (emit_nil wl). apply Hwl. exact E1.
      * apply Shape. constructor.
    + destruct (combineChunkResults chunks ts) as [e|txt]; cbn [snd].
      * eexists. split; [apply Hwl; exact E1|].
        apply Shape. constructor; [reflexivity|constructor].
      * eexists. split.
        -- change (events (tick ?x)) with (events x).
           apply Hwl; exact E1.
        -- apply Shape. constructor; [reflexivity|constructor].
Qed.

End PhaseFacts.

Lemma checkpoints_before_forward (o : EncoderOutcome) :
  forward (phases (checkpoints_before o)) = true /\
  forward (phases (checkpoints_before o ++ [checkpoint_transcribed])) = true /\
  Forall (fun ev => phase ev <> chunking)
         (checkpoints_before o ++ [checkpoint_transcribed]) /\
  Forall (fun ev => phase ev <> chunking) (checkpoints_before o).
Proof.
  destruct o; simpl; repeat split; repeat constructor; discriminate.
Qed.

(** C9, as the code has it.  The events of one invocation of
    [transcribeAudio] are those of the compression attempt followed by those
    of the chunking run, either part possibly empty.  In each part the
    phases only move forward through analyzing, chunking, processing,
    combining, and the attempt never reports [chunking].  The whole
    sequence moves forward when there is no chunking run (direct route:
    nothing is reported; compression route completed) or when the attempt
    had reported nothing but [analyzing] (the encoder could not be
    loaded). *)
Theorem phases_forward_within_attempt_and_fallback
    (env : Env) (apiKey : jsstring) (request : TranscriptionRequest)
    (w : World) :
  let run := transcribeAudio env apiKey request w in
  let f := req_file request in
  exists attempt fallback : list BatchProgress,
    events (snd run) = events w ++ attempt ++ fallback /\
    forward (phases attempt) = true /\
    Forall (fun ev => phase ev <> chunking) attempt /\
    forward (phases fallback) = true /\
    (fallback = [] \/ phases attempt = [analyzing] ->
     forward (phases (attempt ++ fallback)) = true) /\
    (size f <= maxFileSize -> attempt = [] /\ fallback = []) /\
    (is_empty (trim apiKey) = false -> maxFileSize < size f ->
     (forall e, encoder env f = EncoderUnavailable e ->
                phases attempt = [analyzing]) /\
     (forall out t,
         encoder env f = Encoded out ->
         interpret_response
           (remote env (List.length (submitted w)) apiKey
                   (compressed_request request out)) = inr t ->
         fallback = [])).
Proof.
  intros run f. subst run f.
  assert (Quiet :
    events (snd (transcribeAudio env apiKey request w)) = events w ->
    (is_empty (trim apiKey) = false ->
     maxFileSize < size (req_file request) -> False) ->
    exists attempt fallback : list BatchProgress,
      events (snd (transcribeAudio env apiKey request w))
        = events w ++ attempt ++ fallback /\
      forward (phases attempt) = true /\
      Forall (fun ev => phase ev <> chunking) attempt /\
      forward (phases fallback) = true /\
      (fallback = [] \/ phases attempt = [analyzing] ->
       forward (phases (attempt ++ fallback)) = true) /\
      (size (req_file request) <= maxFileSize ->
       attempt = [] /\ fallback = []) /\
      (is_empty (trim apiKey) = false ->
       maxFileSize < size (req_file request) ->
       (forall e, encoder env (req_file request) = EncoderUnavailable e ->
                  phases attempt = [analyzing]) /\
       (forall out t,
           encoder env (req_file request) = Encoded out ->
           interpret_response
             (remote env (List.length (submitted w)) apiKey
                     (compressed_request request out)) = inr t ->
           fallback = []))).
  { intros E Hno. exists [], []. rewrite E, app_nil_r.
    split; [reflexivity|]. split; [reflexivity|]. split; [constructor|].
    split; [reflexivity|]. split; [intros _; reflexivity|].
    split; [intros _; split; reflexivity|].
    intros Hk Hs. destruct (Hno Hk Hs). }
  destruct (is_empty (trim apiKey)) eqn:Hkey.
  { apply Quiet; [|discriminate].
    now rewrite transcribeAudio_no_key. }
  destruct (Z.le_gt_cases (size (req_file request)) maxFileSize) as [Hs|Hs].
  { apply Quiet; [|intros; lia].
    apply transcribeAudio_direct; assumption. }
  rewrite transcribeAudio_oversized by assumption.
  rewrite transcribeWithCompression_run. cbv zeta.
  pose proof (checkpoints_before_forward (encoder env (req_file request)))
    as [Fa [Fb [Fc Fd]]].
  assert (Fallback : forall w1,
    events w1 = events w ++ checkpoints_before (encoder env (req_file request)) ->
    (forall out t,
        encoder env (req_file request) = Encoded out ->
        interpret_response
          (remote env (List.length (submitted w)) apiKey
                  (compressed_request request out)) = inr t -> False) ->
    exists attempt fallback : list BatchProgress,
      events (snd (transcribeAudioInBatches env apiKey request w1))
        = events w ++ attempt ++ fallback /\
      forward (phases attempt) = true /\
      Forall (fun ev => phase ev <> chunking) attempt /\
      forward (phases fallback) = true /\
      (fallback = [] \/ phases attempt = [analyzing] ->
       forward (phases (attempt ++ fallback)) = true) /\
      (size (req_file request) <= maxFileSize ->
       attempt = [] /\ fallback = []) /\
      (false = false ->
       maxFileSize < size (req_file request) ->
       (forall e, encoder env (req_file request) = EncoderUnavailable e ->
                  phases attempt = [analyzing]) /\
       (forall out t,
           encoder env (req_file request) = Encoded out ->
           interpret_response
             (remote env (List.length (submitted w)) apiKey
                     (compressed_request request out)) = inr t ->
           fallback = []))).
  { intros w1 Hw1 Hnot.
    destruct (transcribeAudioInBatches_events env apiKey request w1)
      as [evs [E [rest [Hev Hrest]]]].
    exists (checkpoints_before (encoder env (req_file request))), evs.
    rewrite E, Hw1, <- app_assoc.
    split; [reflexivity|]. split; [exact Fa|]. split; [exact Fd|].
    split; [rewrite Hev; exact Hrest|].
    split.
    { intros [Hnil|Han].
      - rewrite Hnil in Hev. discriminate.
      - rewrite phases_app, Han, Hev. simpl. exact Hrest. }
    split; [intros; lia|].
    intros _ _. split.
    - intros e He. rewrite He. reflexivity.
    - intros out t Ho Ht. destruct (Hnot out t Ho Ht). }
  destruct (encoder env (req_file request)) as [e|e|e|e|out] eqn:Ho;
    try (apply Fallback; [reflexivity|intros; discriminate]).
  destruct (interpret_response _) as [e|t] eqn:Hr.
  - apply Fallback; [reflexivity|].
    intros out' t' Hout Ht. inversion Hout; subst out'.
    rewrite Hr in Ht. discriminate.
  - exists (checkpoints_before (Encoded out) ++ [checkpoint_transcribed]), [].
    rewrite !app_nil_r. cbn [snd emit submit events].
    rewrite <- app_assoc.
    split; [reflexivity|]. split; [exact Fb|]. split; [exact Fc|].
    split; [reflexivity|]. split; [intros _; exact Fb|].
    split; [intros; lia|].
    intros _ _. split; [intros e He; discriminate|reflexivity].
Qed.

Lemma phases_forward_within_attempt_and_fallback_witness :
  forward
    (phases
       (events
          (snd (transcribeAudio studio key
                  (request_for (audio "talk.mp3" (60 * MiB))) initial))))
  = true.
Proof.
  destruct (phases_forward_within_attempt_and_fallback
              studio key (request_for (audio "talk.mp3" (60 * MiB))) initial)
    as [attempt [fallback [E [_ [_ [_ [Hwhole [_ Hroute]]]]]]]].
  rewrite E. simpl app. apply Hwhole. right.
  destruct (Hroute ltac:(reflexivity) ltac:(reflexivity)) as [Hunavailable _].
  eapply Hunavailable. reflexivity.
Defined.

(* ================================================================== *)
(** * Progress of the processing phase when no chunk is skipped *)

Section ProgressFacts.

Variables (env : Env) (apiKey : jsstring) (request : TranscriptionRequest).
Variables (total startTime : Z).

(** Every chunk of 1000 bytes or more whose call returns, or fails with
    a format error, is followed by one report: chunk [i] by
    [currentChunk = i + 1] out of [total], with the remaining time
    computed from the clock read after the call. *)
Lemma process_chunks_reports (todo : list AudioChunk) :
  Forall (fun c => 1000 <= size (file c)) todo ->
  forall i ts w ts',
    fst (process_chunks env apiKey request total startTime i todo ts w)
      = inr ts' ->
    events (snd (process_chunks env apiKey request total startTime
                                i todo ts w))
    = events w
      ++ List.map (fun k => processing_event total startTime
                              (i + Z.of_nat k)
                              (now env (clockReads w + k)))
                  (seq 0 (List.length todo)).
Proof.
  induction 1 as [|c rest Hc _ IH]; intros i ts w ts' Hrun.
  - simpl. now rewrite app_nil_r.
  - rewrite process_chunks_call in Hrun |- * by assumption.
    assert (Step : forall t,
      fst (process_chunks env apiKey request total startTime (i + 1) rest
             (ts ++ [t])
             (chunk_done env total startTime i
                (submit w (with_file request (file c))))) = inr ts' ->
      events (snd (process_chunks env apiKey request total startTime
                     (i + 1) rest (ts ++ [t])
                     (chunk_done env total startTime i
                        (submit w (with_file request (file c))))))
      = events w
        ++ List.map (fun k => processing_event total startTime
                                (i + Z.of_nat k)
                                (now env (clockReads w + k)))
                    (seq 0 (List.length (c :: rest)))).
    { intros t Ht. rewrite (IH _ _ _ _ Ht).
      cbn [chunk_done emit tick submit events clockReads List.length seq
           List.map].
      rewrite <- app_assoc. cbn [app].
      rewrite Z.add_0_r, Nat.add_0_r. do 2 f_equal.
      rewrite <- seq_shift, map_map. apply map_ext. intros k.
      f_equal; [lia|]. f_equal. lia. }
    destruct (interpret_response _) as [e|t]; [|apply Step; exact Hrun].
    destruct (is_format_error e); [apply Step; exact Hrun|].
    simpl in Hrun. discriminate.
Qed.

Lemma progress_nondecreasing (i j : Z) :
  0 < total -> 0 <= i <= j ->
  (progress (processing_event total startTime i 0)
   <= progress (processing_event total startTime j 0))%Q.
Proof.
  intros Ht Hij. cbn [progress processing_event].
  apply fl_percentage_le; lia.
Qed.

End ProgressFacts.

(* ================================================================== *)
(** * Further properties: the entry point *)

Lemma trimStart_nil_iff (s : jsstring) : trimStart s = [] <-> blank s.
Proof.
  unfold blank. induction s as [|c r IH]; simpl.
  - split; [constructor|reflexivity].
  - destruct (is_ws c) eqn:Hc.
    + rewrite IH. split; [intros H; constructor; assumption|].
      intros H; inversion H; assumption.
    + split; [discriminate|].
      intros H; inversion H; congruence.
Qed.

Lemma trimEnd_nil_iff (s : jsstring) : trimEnd s = [] <-> blank s.
Proof.
  unfold blank. induction s as [|c r IH]; simpl.
  - split; [constructor|reflexivity].
  - destruct (trimEnd r) as [|x r'] eqn:Hr.
    + destruct (is_ws c) eqn:Hc.
      * split; [intros _; constructor; [exact Hc|apply IH; reflexivity]|].
        reflexivity.
      * split; [discriminate|]. intros H; inversion H; congruence.
    + split; [discriminate|].
      intros H; inversion H; subst.
      assert (E : x :: r' = []) by (apply IH; assumption). discriminate.
Qed.

Lemma trimStart_head (s : jsstring) :
  match trimStart s with
  | [] => True
  | c :: _ => is_ws c = false
  end.
Proof.
  induction s as [|c r IH]; simpl; [exact I|].
  destruct (is_ws c) eqn:Hc; [exact IH|exact Hc].
Qed.

(** [s.trim()] is empty exactly when [s] is blank. *)
Lemma trim_empty_iff (s : jsstring) : is_empty (trim s) = true <-> blank s.
Proof.
  unfold trim. rewrite <- trimStart_nil_iff.
  pose proof (trimStart_head s) as H.
  destruct (trimStart s) as [|c r] eqn:E.
  - simpl. split; reflexivity.
  - split; [|discriminate].
    intros Hempty.
    assert (Hnil : trimEnd (c :: r) = [])
      by (destruct (trimEnd (c :: r)); [reflexivity|discriminate]).
    apply trimEnd_nil_iff in Hnil. inversion Hnil; congruence.
Qed.

(** X1. A key that is empty or made of white space only is refused before
    anything is done: [transcribeAudio] throws the validation error 'API key
    is required' and leaves the world as it was, with no request submitted
    and no progress reported, whatever the file. *)
Theorem blank_key_is_rejected (env : Env) (apiKey : jsstring)
    (request : TranscriptionRequest) (w : World) :
  blank apiKey ->
  transcribeAudio env apiKey request w = (inl key_required, w).
Proof.
  intros H. apply trim_empty_iff in H.
  unfold transcribeAudio, try_catch. rewrite H. reflexivity.
Qed.

Lemma blank_key_is_rejected_witness :
  transcribeAudio studio (lit "   ") (request_for (audio "talk.mp3" (60 * MiB)))
                  initial
  = (inl key_required, initial).
Proof.
  apply blank_key_is_rejected. repeat constructor.
Defined.

(** X2. Whatever [transcribeAudio] throws, on whatever route, is an object
    that carries a message and a type: never an instance of [Error]. *)
Theorem transcribeAudio_throws_typed_objects (env : Env) (apiKey : jsstring)
    (request : TranscriptionRequest) (w : World) (err : Thrown) :
  fst (transcribeAudio env apiKey request w) = inl err ->
  exists m t c, err = JsObject (Some m) (Some t) c.
Proof.
  destruct (is_empty (trim apiKey)) eqn:Hkey.
  { rewrite transcribeAudio_no_key by assumption. simpl.
    intros E; inversion E. unfold validation. eauto. }
  destruct (Z.le_gt_cases (size (req_file request)) maxFileSize) as [Hs|Hs].
  - unfold transcribeAudio, try_catch. rewrite Hkey.
    assert (E : (size (req_file request) >? maxFileSize) = false)
      by (rewrite Z.gtb_ltb; apply Z.ltb_ge; lia).
    rewrite E. unfold bind. rewrite transcribeSingleFile_run.
    destruct (remote env (List.length (submitted w)) apiKey request)
      as [m|em ec|m|t]; simpl.
    + destruct (includes m (lit "fetch")); simpl;
        intros H; inversion H; unfold validation; eauto.
    + intros H; inversion H; eauto.
    + intros H; inversion H; unfold validation; eauto.
    + discriminate.
  - rewrite transcribeAudio_oversized by assumption.
    intros H. destruct (transcribeWithCompression_throws _ _ _ _ H) as [e ->].
    unfold batch_failure. eauto.
Qed.

Lemma transcribeAudio_throws_typed_objects_witness :
  exists m t c,
    unauthorized_error = JsObject (Some m) (Some t) c.
Proof.
  apply (@transcribeAudio_throws_typed_objects
           locked_out key (request_for (audio "memo.mp3" 4096)) initial
           unauthorized_error).
  reflexivity.
Defined.

(** X3. A file of at most 25 MiB goes to the endpoint as it is: with a
    key that is not blank, [transcribeAudio] submits exactly one request,
    the caller's own, reports no progress and does not call [Date.now];
    when the endpoint answers with a text, the result carries that text (the
    empty string when the answer has none) and the name of the file. *)
Theorem small_file_is_submitted_once (env : Env) (apiKey : jsstring)
    (request : TranscriptionRequest) (w : World) :
  is_empty (trim apiKey) = false ->
  size (req_file request) <= maxFileSize ->
  snd (transcribeAudio env apiKey request w) = submit w request /\
  forall t,
    remote env (List.length (submitted w)) apiKey request = HttpOk t ->
    fst (transcribeAudio env apiKey request w)
    = inr {| text := match t with Some s => s | None => [] end;
             audioFileName := name (req_file request);
             language := req_language request |}.
Proof.
  intros Hkey Hs. unfold transcribeAudio, try_catch. rewrite Hkey.
  assert (E : (size (req_file request) >? maxFileSize) = false)
    by (rewrite Z.gtb_ltb; apply Z.ltb_ge; lia).
  rewrite E. unfold bind. rewrite transcribeSingleFile_run.
  destruct (remote env (List.length (submitted w)) apiKey request)
    as [m|em ec|m|t]; simpl.
  - destruct (includes m (lit "fetch")); simpl;
      (split; [reflexivity|intros; discriminate]).
  - split; [reflexivity|intros; discriminate].
  - split; [reflexivity|intros; discriminate].
  - split; [reflexivity|]. intros t' H. inversion H. reflexivity.
Qed.

Lemma small_file_is_submitted_once_witness :
  let request := request_for (audio "memo.mp3" 4096) in
  snd (transcribeAudio studio key request initial) = submit initial request /\
  fst (transcribeAudio studio key request initial)
  = inr {| text := lit "ok"; audioFileName := lit "memo.mp3";
           language := None |}.
Proof.
  intros request.
  destruct (@small_file_is_submitted_once studio key request initial
              ltac:(reflexivity) ltac:(vm_compute; discriminate))
    as [Hw Hr].
  split; [exact Hw|]. apply (Hr (Some (lit "ok"))). reflexivity.
Defined.

(** X4. How the failures of the direct route reach the caller.  A failed
    [fetch] whose message contains 'fetch' becomes the network error; a
    failed [fetch] with another message, and an answer whose body does not
    parse, become validation errors that carry the message; an error
    answer of the endpoint is thrown as the [api_error] that
    [transcribeSingleFile] built, with its code, and its message is
    'Transcription failed: Unknown error' when the body has no message or
    an empty one. *)
Theorem direct_route_failures (env : Env) (apiKey : jsstring)
    (request : TranscriptionRequest) (w : World) :
  is_empty (trim apiKey) = false ->
  size (req_file request) <= maxFileSize ->
  let answer := remote env (List.length (submitted w)) apiKey request in
  let thrown := fst (transcribeAudio env apiKey request w) in
  (forall m, answer = FetchRejects m -> includes m (lit "fetch") = true ->
             thrown = inl network_failure) /\
  (forall m, answer = FetchRejects m -> includes m (lit "fetch") = false ->
             thrown = inl (JsObject (Some m) (Some validation_error) None)) /\
  (forall m, answer = HttpOkUnparsable m ->
             thrown = inl (JsObject (Some m) (Some validation_error) None)) /\
  (forall m code, answer = HttpFailure (Some m) code -> m <> [] ->
             thrown = inl (JsObject (Some (lit "Transcription failed: " ++ m))
                                    (Some api_error) code)) /\
  (forall em code, answer = HttpFailure em code ->
             em = None \/ em = Some [] ->
             thrown = inl (JsObject
                             (Some (lit "Transcription failed: Unknown error"))
                             (Some api_error) code)).
Proof.
  intros Hkey Hs answer thrown. subst answer thrown.
  unfold transcribeAudio, try_catch. rewrite Hkey.
  assert (E : (size (req_file request) >? maxFileSize) = false)
    by (rewrite Z.gtb_ltb; apply Z.ltb_ge; lia).
  rewrite E. unfold bind. rewrite transcribeSingleFile_run.
  repeat split.
  - intros m -> Hm. simpl. rewrite Hm. reflexivity.
  - intros m -> Hm. simpl. rewrite Hm. reflexivity.
  - intros m ->. reflexivity.
  - intros m code -> Hm. simpl. destruct m; [congruence|reflexivity].
  - intros em code -> [->| ->]; reflexivity.
Qed.

Lemma direct_route_failures_witness :
  let request := request_for (audio "memo.mp3" 4096) in
  fst (transcribeAudio (offline "Failed to fetch") key request initial)
    = inl network_failure /\
  fst (transcribeAudio (offline "Load failed") key request initial)
    = inl (JsObject (Some (lit "Load failed")) (Some validation_error) None).
Proof.
  intros request. split.
  - apply (proj1 (@direct_route_failures (offline "Failed to fetch") key
                    request initial ltac:(reflexivity)
                    ltac:(vm_compute; discriminate))
                 (lit "Failed to fetch"));
      reflexivity.
  - apply (proj1 (proj2 (@direct_route_failures (offline "Load failed") key
                           request initial ltac:(reflexivity)
                           ltac:(vm_compute; discriminate)))
                 (lit "Load failed"));
      reflexivity.
Defined.

(* ================================================================== *)
(** * Further properties: the compression route and the batch *)

(** X5. When the encoder succeeds and the endpoint transcribes the
    compressed file, a file over 25 MiB costs one request only: the one
    that carries the encoder's output as 'compressed_audio.ogg' of type
    'audio/ogg', whatever the size of that output, with the model, language
    and format of the caller's request.  The six checkpoints are reported
    in order, the result bears the name of the original file, and
    [Date.now] is not called. *)
Theorem compression_route_completes (env : Env) (apiKey : jsstring)
    (request : TranscriptionRequest) (w : World) (out : ArrayBuffer)
    (t : option jsstring) :
  is_empty (trim apiKey) = false ->
  maxFileSize < size (req_file request) ->
  encoder env (req_file request) = Encoded out ->
  remote env (List.length (submitted w)) apiKey
         (compressed_request request out) = HttpOk t ->
  let run := transcribeAudio env apiKey request w in
  fst run = inr {| text := match t with Some s => s | None => [] end;
                   audioFileName := name (req_file request);
                   language := req_language request |} /\
  submitted (snd run) = submitted w ++ [compressed_request request out] /\
  events (snd run)
    = events w ++ [checkpoint_analyzing; checkpoint_loaded; checkpoint_staged;
                   checkpoint_transformed; checkpoint_read;
                   checkpoint_transcribed] /\
  clockReads (snd run) = clockReads w /\
  name (req_file (compressed_request request out))
    = lit "compressed_audio.ogg" /\
  mime (req_file (compressed_request request out)) = lit "audio/ogg" /\
  req_model (compressed_request request out) = req_model request.
Proof.
  intros Hkey Hs Ho Hr run. subst run.
  rewrite transcribeAudio_oversized by assumption.
  rewrite transcribeWithCompression_run, Ho. cbv beta iota zeta.
  rewrite Hr. cbn [interpret_response fst snd emit submit events submitted
                   clockReads checkpoints_before].
  rewrite <- app_assoc.
  repeat split; reflexivity.
Qed.

Lemma compression_route_completes_witness :
  let request := request_for (audio "talk.mp3" (60 * MiB)) in
  let run := transcribeAudio (echoing (lit "hello")) key request initial in
  fst run = inr (result_of request (lit "hello")) /\
  List.map (fun q => size (req_file q)) (submitted (snd run)) = [200000].
Proof.
  intros request run.
  destruct (@compression_route_completes (echoing (lit "hello")) key request
              initial (zeros 200000) (Some (lit "hello"))
              ltac:(reflexivity) ltac:(reflexivity) ltac:(reflexivity)
              ltac:(reflexivity))
    as [Hres [Hsub _]].
  split; [exact Hres|]. subst run. rewrite Hsub. reflexivity.
Defined.

(** X6. When the duration of the file cannot be read, the batch stops
    before it cuts anything: it has reported the [analyzing] event only,
    submits nothing, and throws 'Batch transcription failed: Failed to
    chunk audio file', whatever the reason of the failure was. *)
Theorem unreadable_duration_fails_the_batch (env : Env) (apiKey : jsstring)
    (request : TranscriptionRequest) (w : World) (e : Thrown) :
  audioDuration env (req_file request) = inl e ->
  transcribeAudioInBatches env apiKey request w
  = (inl chunking_failed, emit w [analyzing_event]).
Proof.
  intros H. rewrite transcribeAudioInBatches_run, chunkAudioFile_run, H.
  reflexivity.
Qed.

Lemma unreadable_duration_fails_the_batch_witness :
  let request := request_for (audio "talk.mp3" (60 * MiB)) in
  transcribeAudioInBatches unreadable key request initial
  = (inl chunking_failed, emit initial [analyzing_event]).
Proof.
  intros request.
  apply (@unreadable_duration_fails_the_batch unreadable key request initial
           (JsError PlainError (lit "Failed to load audio metadata"))).
  reflexivity.
Defined.

Section LoopFacts.

Variables (env : Env) (apiKey : jsstring) (request : TranscriptionRequest).
Variables (total startTime : Z).

Lemma process_chunks_submits (todo : list AudioChunk) :
  forall i ts w,
    exists k,
      (k <= List.length todo)%nat /\
      submitted (snd (process_chunks env apiKey request total startTime
                                     i todo ts w))
      = submitted w
        ++ List.map (chunk_request request)
                    (filter big_enough (firstn k todo)) /\
      ((exists ts', fst (process_chunks env apiKey request total startTime
                                        i todo ts w) = inr ts') ->
       k = List.length todo).
Proof.
  induction todo as [|c rest IH]; intros i ts w.
  - exists 0%nat. simpl. rewrite app_nil_r. auto.
  - destruct (Z.lt_ge_cases (size (file c)) 1000) as [Hc|Hc].
    + rewrite process_chunks_skip by assumption.
      destruct (IH (i + 1) (ts ++ [[]]) w) as [k [Hk [Hs Hd]]].
      exists (S k).
      assert (Hb : big_enough c = false)
        by (unfold big_enough; apply Z.ltb_lt in Hc; now rewrite Hc).
      cbn [firstn filter List.length]. rewrite Hb.
      split; [lia|]. split; [exact Hs|].
      intros H. f_equal. apply Hd. exact H.
    + rewrite process_chunks_call by assumption.
      assert (Hb : big_enough c = true)
        by (unfold big_enough; apply Z.ltb_ge in Hc; now rewrite Hc).
      assert (Go : forall t,
        exists k,
          (k <= List.length (c :: rest))%nat /\
          submitted (snd (process_chunks env apiKey request total startTime
                            (i + 1) rest (ts ++ [t])
                            (chunk_done env total startTime i
                               (submit w (with_file request (file c))))))
          = submitted w
            ++ List.map (chunk_request request)
                        (filter big_enough (firstn k (c :: rest))) /\
          ((exists ts', fst (process_chunks env apiKey request total startTime
                               (i + 1) rest (ts ++ [t])
                               (chunk_done env total startTime i
                                  (submit w (with_file request (file c)))))
                        = inr ts') ->
           k = List.length (c :: rest))).
      { intros t.
        destruct (IH (i + 1) (ts ++ [t])
                     (chunk_done env total startTime i
                        (submit w (with_file request (file c)))))
          as [k [Hk [Hs Hd]]].
        exists (S k). cbn [firstn filter List.length List.map]. rewrite Hb.
        rewrite Hs.
        cbn [chunk_done emit tick submit submitted List.map].
        rewrite <- app_assoc.
        split; [lia|]. split; [reflexivity|].
        intros H. f_equal. apply Hd. exact H. }
      destruct (interpret_response _) as [e|t]; [|apply Go].
      destruct (is_format_error e); [apply Go|].
      exists 1%nat. cbn [firstn filter List.length List.map snd fst].
      rewrite Hb.
      split; [lia|]. split; [reflexivity|].
      intros [ts' H]; discriminate.
Qed.

End LoopFacts.

(** X7. The loop of the batch submits the chunks of 1000 bytes or more in
    the order of the list, each one once, with the caller's settings: at
    any end of the loop the requests it has submitted are those of such
    chunks among the first [k] of the list, for some [k], in order; when the
    loop completes, [k] is the number of chunks, so that every chunk of
    1000 bytes or more has been submitted exactly once. *)
Theorem chunks_are_submitted_once_in_order
    (env : Env) (apiKey : jsstring) (request : TranscriptionRequest)
    (total startTime : Z) (chunks : list AudioChunk) (w : World) :
  let run := process_chunks env apiKey request total startTime
                            0 chunks [] w in
  (exists k,
      (k <= List.length chunks)%nat /\
      submitted (snd run)
      = submitted w
        ++ List.map (chunk_request request)
                    (filter big_enough (firstn k chunks))) /\
  (forall ts, fst run = inr ts ->
     submitted (snd run)
     = submitted w
       ++ List.map (chunk_request request) (filter big_enough chunks)).
Proof.
  intros run. subst run.
  destruct (process_chunks_submits env apiKey request total startTime
                                   chunks 0 [] w) as [k [Hk [Hs Hd]]].
  split; [exists k; auto|].
  intros ts Hts. rewrite Hs, (Hd (ex_intro _ ts Hts)), firstn_all.
  reflexivity.
Qed.

Lemma chunks_are_submitted_once_in_order_witness :
  submitted
    (snd (process_chunks studio key (request_for (audio "talk.mp3" 9000))
                         3 0 0 [chunk_at 0; scrap_at 1; chunk_at 2] []
                         initial))
  = [] ++ List.map (chunk_request (request_for (audio "talk.mp3" 9000)))
                   (filter big_enough [chunk_at 0; scrap_at 1; chunk_at 2]).
Proof.
  apply (proj2 (chunks_are_submitted_once_in_order
                  studio key (request_for (audio "talk.mp3" 9000)) 3 0
                  [chunk_at 0; scrap_at 1; chunk_at 2] initial)
               [lit "ok"; []; lit "ok"]).
  reflexivity.
Defined.

Lemma StronglySorted_map_seq {A} (R : A -> A -> Prop) (g : nat -> A) :
  (forall i j, (i <= j)%nat -> R (g i) (g j)) ->
  forall n a, StronglySorted R (List.map g (seq a n)).
Proof.
  intros HR. induction n as [|n IH]; intros a; simpl; constructor.
  - apply IH.
  - apply Forall_forall. intros x Hx.
    apply in_map_iff in Hx as [j [<- Hj]].
    apply in_seq in Hj. apply HR. lia.
Qed.

(** X8. When every chunk holds 1000 bytes or more and the loop completes,
    it reports once per chunk, in order: the reports are in the
    [processing] phase, out of [N] chunks, with [currentChunk] going through
    1, 2, ..., [N] and a progress that never decreases; the last one shows
    a progress of 100 and no time remaining. *)
Theorem every_call_is_reported
    (env : Env) (apiKey : jsstring) (request : TranscriptionRequest)
    (startTime : Z) (chunks : list AudioChunk) (w : World)
    (ts : list jsstring) :
  chunks <> [] ->
  Forall (fun c => 1000 <= size (file c)) chunks ->
  let N := Z.of_nat (List.length chunks) in
  let run := process_chunks env apiKey request N startTime 0 chunks [] w in
  fst run = inr ts ->
  exists evs,
    events (snd run) = events w ++ evs /\
    List.map currentChunk evs
      = List.map (fun k => Z.of_nat k + 1) (seq 0 (List.length chunks)) /\
    Forall (fun ev => phase ev = processing /\ totalChunks ev = N) evs /\
    StronglySorted (fun a b => (progress a <= progress b)%Q) evs /\
    exists front final,
      evs = front ++ [final] /\
      (progress final == 100)%Q /\
      estimatedTimeRemaining final = Some 0.
Proof.
  intros Hne Hbig N run Hrun. subst run.
  rewrite (process_chunks_reports env apiKey request N startTime Hbig
                                  0 [] w Hrun).
  eexists. split; [reflexivity|].
  assert (HN : 0 < N) by (subst N; destruct chunks; [congruence|simpl; lia]).
  split; [|split; [|split]].
  - rewrite map_map. apply map_ext. intros k. simpl. lia.
  - apply Forall_forall. intros ev Hev.
    apply in_map_iff in Hev as [k [<- _]]. split; reflexivity.
  - apply StronglySorted_map_seq. intros i j Hij.
    apply (@progress_nondecreasing N startTime (0 + Z.of_nat i)
                                   (0 + Z.of_nat j) HN).
    lia.
  - destruct (List.length chunks) as [|m] eqn:Hm;
      [destruct chunks; [congruence|discriminate]|].
    rewrite seq_S, map_app. cbn [List.map].
    eexists. eexists. split; [reflexivity|].
    cbn [progress estimatedTimeRemaining processing_event].
    replace (0 + Z.of_nat (0 + m) + 1) with N by (subst N; lia).
    split.
    + rewrite (fl_whole N HN). reflexivity.
    + rewrite Z.sub_diag, fl_mult_0. reflexivity.
Qed.

Lemma every_call_is_reported_witness :
  exists evs,
    events (snd (process_chunks studio key
                   (request_for (audio "talk.mp3" 9000)) 2 0 0
                   [chunk_at 0; chunk_at 1] [] initial)) = [] ++ evs /\
    List.map currentChunk evs = [1; 2].
Proof.
  destruct (@every_call_is_reported
              studio key (request_for (audio "talk.mp3" 9000)) 0
              [chunk_at 0; chunk_at 1] initial [lit "ok"; lit "ok"]
              ltac:(discriminate)
              ltac:(repeat constructor; vm_compute; discriminate)
              ltac:(reflexivity))
    as [evs [E [Hcur _]]].
  exists evs. split; [exact E|exact Hcur].
Defined.

(* ================================================================== *)
(** * Further properties: the chunks *)

(** The chunk at position [k] of what [chunkAudioFile] returns. *)
Lemma chunkAudioFile_nth (env : Env) (f : File) (C : Z) (w : World)
    (chunks : list AudioChunk) :
  fst (chunkAudioFile env f C onChunkingProgress w) = inr chunks ->
  exists D,
    audioDuration env f = inr D /\
    let N := Qceiling (inject_Z (size f) / inject_Z C) in
    chunks = List.map (chunk_of f (content f) N (size f / N)
                                (fl (D / inject_Z N)))
                      (loop_indices N) /\
    List.length chunks = Z.to_nat N /\
    forall k c, nth_error chunks k = Some c ->
      Z.of_nat k < N /\
      c = chunk_of f (content f) N (size f / N) (fl (D / inject_Z N))
                   (Z.of_nat k).
Proof.
  rewrite chunkAudioFile_run.
  destruct (audioDuration env f) as [e|D]; cbv zeta; cbn [fst];
    [discriminate|].
  rewrite Qfloor_div. intros E.
  assert (Hc : List.map
                 (chunk_of f (content f)
                    (Qceiling (inject_Z (size f) / inject_Z C))
                    (size f / Qceiling (inject_Z (size f) / inject_Z C))
                    (fl (D / inject_Z
                               (Qceiling (inject_Z (size f) / inject_Z C)))))
                 (loop_indices (Qceiling (inject_Z (size f) / inject_Z C)))
               = chunks) by congruence.
  clear E. subst chunks.
  exists D. split; [reflexivity|].
  split; [reflexivity|].
  split; [now rewrite length_map, length_loop_indices|].
  intros k c Hc. rewrite nth_error_map in Hc.
  destruct (nth_error (loop_indices _) k) as [x|] eqn:Hx; [|discriminate].
  apply nth_error_loop_indices in Hx as [-> Hk].
  inversion Hc. split; [exact Hk|reflexivity].
Qed.

Lemma forallb_not_dot (x y : jsstring) :
  forallb not_dot_or_slash (x ++ DOT :: y) = false.
Proof.
  induction x as [|c x IH]; simpl; [reflexivity|].
  rewrite IH. apply andb_false_r.
Qed.

Lemma strip_extension_ext (base ext : jsstring) :
  ext <> [] -> forallb not_dot_or_slash ext = true ->
  strip_extension (base ++ DOT :: ext) = base.
Proof.
  intros Hne Hext. induction base as [|c base IH]; simpl.
  - rewrite Hext. destruct ext; [congruence|reflexivity].
  - rewrite IH, forallb_not_dot, andb_false_r. reflexivity.
Qed.

Lemma strip_extension_no_dot (n : jsstring) :
  ~ In DOT n -> strip_extension n = n.
Proof.
  induction n as [|c n IH]; intros H; simpl; [reflexivity|].
  destruct (N.eqb_spec c DOT) as [->|Hc]; [destruct H; left; reflexivity|].
  simpl. rewrite IH; [reflexivity|]. intros Hin. apply H. right. exact Hin.
Qed.

Lemma strip_extension_trailing_dot (base : jsstring) :
  strip_extension (base ++ [DOT]) = base ++ [DOT].
Proof.
  induction base as [|c base IH]; simpl; [reflexivity|].
  rewrite IH, forallb_not_dot, andb_false_r. reflexivity.
Qed.

Lemma last_segment_no_dot (e : jsstring) :
  ~ In DOT e -> forall acc, last_segment acc e = acc ++ e.
Proof.
  induction e as [|c e IH]; intros H acc; simpl; [now rewrite app_nil_r|].
  destruct (N.eqb_spec c DOT) as [->|Hc]; [destruct H; left; reflexivity|].
  rewrite IH, <- app_assoc; [reflexivity|].
  intros Hin. apply H. right. exact Hin.
Qed.

Lemma last_segment_after_dot (a e : jsstring) :
  forall acc, last_segment acc (a ++ DOT :: e) = last_segment [] e.
Proof.
  induction a as [|c a IH]; intros acc; simpl; [reflexivity|].
  destruct (N.eqb c DOT); apply IH.
Qed.

Lemma no_dot_of_forallb (e : jsstring) :
  forallb not_dot_or_slash e = true -> ~ In DOT e.
Proof.
  intros H Hin. rewrite forallb_forall in H. specialize (H _ Hin).
  discriminate.
Qed.

(** X9. The chunks keep the type of the file and, in their names, its
    extension: the chunk at position [k] of a file named [base.ext] is
    named [base_chunk_(k+1).ext]; for a name without a dot the whole name
    is taken as the extension, and for a name that ends with a dot the
    extension is 'mp3'. *)
Theorem chunks_keep_type_and_extension
    (env : Env) (f : File) (C : Z) (w : World) (chunks : list AudioChunk)
    (k : nat) (c : AudioChunk) :
  fst (chunkAudioFile env f C onChunkingProgress w) = inr chunks ->
  nth_error chunks k = Some c ->
  let number := of_int (Z.of_nat k + 1) in
  mime (file c) = mime f /\
  (forall base ext,
      name f = base ++ DOT :: ext -> ext <> [] ->
      forallb not_dot_or_slash ext = true ->
      name (file c) = base ++ lit "_chunk_" ++ number ++ lit "." ++ ext) /\
  (name f <> [] -> ~ In DOT (name f) ->
   name (file c) = name f ++ lit "_chunk_" ++ number ++ lit "." ++ name f) /\
  (forall base,
      name f = base ++ [DOT] ->
      name (file c)
      = name f ++ lit "_chunk_" ++ number ++ lit "." ++ lit "mp3").
Proof.
  intros Hrun Hk number.
  destruct (chunkAudioFile_nth _ _ _ _ Hrun) as [D [_ [_ [_ Hnth]]]].
  destruct (Hnth k c Hk) as [_ ->].
  cbn [chunk_of file name mime]. unfold chunk_file_name. fold number.
  split; [reflexivity|]. split; [|split].
  - intros base ext Hname Hne Hext. rewrite Hname.
    rewrite strip_extension_ext, last_segment_after_dot by assumption.
    rewrite last_segment_no_dot by (apply no_dot_of_forallb; exact Hext).
    destruct ext; [congruence|reflexivity].
  - intros Hne Hdot.
    rewrite strip_extension_no_dot, last_segment_no_dot by assumption.
    destruct (name f); [congruence|reflexivity].
  - intros base Hname. rewrite Hname at 1 2.
    rewrite strip_extension_trailing_dot, last_segment_after_dot.
    rewrite <- Hname. reflexivity.
Qed.

Lemma chunks_keep_type_and_extension_witness :
  exists c,
    nth_error
      (match fst (chunkAudioFile studio (audio "my.talk.mp3" (60 * MiB))
                                 maxFileSize onChunkingProgress initial) with
       | inr chunks => chunks
       | inl _ => []
       end) 2 = Some c /\
    name (file c) = lit "my.talk_chunk_3.mp3".
Proof.
  set (f := audio "my.talk.mp3" (60 * MiB)).
  set (c := chunk_of f (content f) 3 (20 * MiB) (fl ((600 # 1) / 3)) 2).
  exists c. split; [reflexivity|].
  apply (proj1 (proj2 (@chunks_keep_type_and_extension
                         studio f maxFileSize initial
                         [chunk_of f (content f) 3 (20 * MiB)
                                   (fl ((600 # 1) / 3)) 0;
                          chunk_of f (content f) 3 (20 * MiB)
                                   (fl ((600 # 1) / 3)) 1; c]
                         2 c ltac:(reflexivity) ltac:(reflexivity)))
               (lit "my.talk") (lit "mp3"));
    [reflexivity|discriminate|reflexivity].
Defined.

(** The number of chunks and the size of the chunk at each position. *)
Lemma chunkAudioFile_sizes (env : Env) (f : File) (C : Z) (w : World)
    (chunks : list AudioChunk) :
  0 < size f -> 0 < C ->
  fst (chunkAudioFile env f C onChunkingProgress w) = inr chunks ->
  let N := Z.of_nat (List.length chunks) in
  (N - 1) * C < size f <= N * C /\ 1 <= N <= size f /\
  forall k c, nth_error chunks k = Some c ->
    Z.of_nat k < N /\
    size (file c) = if Z.of_nat k =? N - 1
                    then size f - (N - 1) * (size f / N)
                    else size f / N.
Proof.
  intros HL HC Hrun.
  destruct (chunkAudioFile_nth _ _ _ _ Hrun) as [D [_ [_ [Hlen Hnth]]]].
  cbv zeta in *.
  pose proof (estimatedChunks_bounds HL HC) as [HB HN]. cbv zeta in HB, HN.
  set (N := Qceiling (inject_Z (size f) / inject_Z C)) in *.
  rewrite Hlen, Z2Nat.id by lia.
  split; [exact HB|]. split; [exact HN|].
  intros k c Hc. destruct (Hnth _ _ Hc) as [Hk ->].
  split; [exact Hk|].
  pose proof (chunkSize_bounds HL HN) as [Hs [Hfit _]].
  apply size_chunk; lia.
Qed.

(** X12. How [chunkAudioFile] sizes its chunks, for a file of [L] bytes
    cut into [N] chunks under a limit of [C] bytes: every chunk but the
    last holds [floor(L / N)] bytes, which is at least 1 and at most [C];
    the last one holds the remainder of the division as well, so that it
    has fewer than [N] bytes more than the others. *)
Theorem chunk_sizes_follow_the_even_split
    (env : Env) (f : File) (C : Z) (w : World) (chunks : list AudioChunk) :
  0 < size f -> 0 < C ->
  fst (chunkAudioFile env f C onChunkingProgress w) = inr chunks ->
  let N := Z.of_nat (List.length chunks) in
  let s := size f / N in
  1 <= s <= C /\ 0 <= size f mod N < N /\
  forall k c, nth_error chunks k = Some c ->
    size (file c) = if Z.of_nat k =? N - 1 then s + size f mod N else s.
Proof.
  intros HL HC Hrun N s.
  destruct (chunkAudioFile_sizes _ _ _ HL HC Hrun) as [HB [HN Hsz]].
  fold N in HB, HN, Hsz.
  pose proof (Z.div_mod (size f) N ltac:(lia)) as E.
  pose proof (Z.mod_pos_bound (size f) N ltac:(lia)) as B.
  pose proof (chunkSize_bounds HL HN) as [Hs _].
  fold s in E, Hs.
  split; [|split; [exact B|]].
  - split; [exact Hs|]. subst s. apply Z.div_le_upper_bound; lia.
  - intros k c Hc. destruct (Hsz _ _ Hc) as [_ ->]. fold s.
    destruct (Z.eqb_spec (Z.of_nat k) (N - 1)); lia.
Qed.

Lemma chunk_sizes_follow_the_even_split_witness :
  exists chunks c,
    fst (chunkAudioFile studio (audio "talk.mp3" (60 * MiB + 2)) maxFileSize
                        onChunkingProgress initial) = inr chunks /\
    nth_error chunks 2 = Some c /\
    size (file c) = 20 * MiB + 2.
Proof.
  eexists. eexists. split; [reflexivity|]. split; [reflexivity|].
  apply (proj2 (proj2 (@chunk_sizes_follow_the_even_split
                         studio (audio "talk.mp3" (60 * MiB + 2)) maxFileSize
                         initial _
                         ltac:(reflexivity) ltac:(reflexivity)
                         ltac:(reflexivity))) 2%nat).
  reflexivity.
Defined.

(** X13. The limit is not a bound on the last chunk: a file of [3 * C - 1]
    bytes is cut, under a limit of [C >= 2] bytes, into three chunks of
    [C - 1], [C - 1] and [C + 1] bytes. *)
Theorem last_chunk_can_exceed_the_limit
    (env : Env) (f : File) (C : Z) (w : World) (chunks : list AudioChunk) :
  2 <= C -> size f = 3 * C - 1 ->
  fst (chunkAudioFile env f C onChunkingProgress w) = inr chunks ->
  List.map (fun c => size (file c)) chunks = [C - 1; C - 1; C + 1].
Proof.
  intros HC HL Hrun.
  destruct (@chunkAudioFile_sizes env f C w chunks ltac:(lia) ltac:(lia) Hrun)
    as [HB [HN Hsz]].
  assert (H3 : Z.of_nat (List.length chunks) = 3) by nia.
  rewrite H3 in Hsz.
  assert (Hs : size f / 3 = C - 1).
  { rewrite HL. symmetry. apply (Z.div_unique _ 3 (C - 1) 2); lia. }
  rewrite Hs in Hsz.
  destruct chunks as [|c0 [|c1 [|c2 [|c3 rest]]]];
    try (exfalso; cbn [List.length] in H3; lia).
  cbn [List.map].
  destruct (Hsz 0%nat c0 eq_refl) as [_ ->].
  destruct (Hsz 1%nat c1 eq_refl) as [_ ->].
  destruct (Hsz 2%nat c2 eq_refl) as [_ ->].
  cbn [Z.of_nat Z.eqb Pos.of_succ_nat Pos.succ Z.sub Z.add Z.opp
       Z.pos_sub Pos.eqb Z.succ_double Z.pred_double Z.double].
  replace (size f - 2 * (C - 1)) with (C + 1) by lia. reflexivity.
Qed.

Lemma last_chunk_can_exceed_the_limit_witness :
  match fst (chunkAudioFile studio (audio "talk.mp3" (3 * maxFileSize - 1))
                            maxFileSize onChunkingProgress initial) with
  | inr chunks => List.map (fun c => size (file c)) chunks
  | inl _ => []
  end = [maxFileSize - 1; maxFileSize - 1; maxFileSize + 1].
Proof.
  apply (@last_chunk_can_exceed_the_limit
           studio (audio "talk.mp3" (3 * maxFileSize - 1)) maxFileSize
           initial _ ltac:(vm_compute; discriminate) ltac:(reflexivity)
           ltac:(reflexivity)).
Defined.

Lemma chunkAudioFile_submits_nothing (env : Env) (f : File) (C : Z)
    (w : World) :
  submitted (snd (chunkAudioFile env f C onChunkingProgress w)) = submitted w.
Proof.
  rewrite chunkAudioFile_run.
  destruct (audioDuration env f); reflexivity.
Qed.

Lemma filter_big_enough (chunks : list AudioChunk) :
  Forall (fun c => 1000 <= size (file c)) chunks ->
  filter big_enough chunks = chunks.
Proof.
  induction 1 as [|c rest Hc _ IH]; [reflexivity|].
  cbn [filter]. unfold big_enough at 1.
  destruct (Z.ltb_spec (size (file c)) 1000); [lia|].
  cbn [negb]. now rewrite IH.
Qed.

(** The chunks of a file that is over the limit of the service hold at
    least half the limit each. *)
Lemma oversized_chunks_are_large (env : Env) (f : File) (w : World)
    (chunks : list AudioChunk) :
  maxFileSize < size f ->
  fst (chunkAudioFile env f maxFileSize onChunkingProgress w) = inr chunks ->
  Forall (fun c => maxFileSize / 2 <= size (file c)) chunks.
Proof.
  intros HL Hrun.
  assert (HC : 0 < maxFileSize) by reflexivity.
  destruct (@chunkAudioFile_sizes env f maxFileSize w chunks
              ltac:(lia) HC Hrun) as [HB [HN Hsz]].
  set (N := Z.of_nat (List.length chunks)) in *.
  change (maxFileSize / 2) with 13107200.
  change maxFileSize with 26214400 in HB, HL.
  assert (H2 : 2 <= N) by nia.
  assert (Hs : 13107200 <= size f / N)
    by (apply Z.div_le_lower_bound; nia).
  pose proof (@chunkSize_bounds (size f) N ltac:(lia) HN) as [_ [_ Hfit]].
  apply Forall_forall. intros c Hin.
  apply In_nth_error in Hin as [k Hk].
  destruct (Hsz _ _ Hk) as [_ ->].
  destruct (Z.eqb_spec (Z.of_nat k) (N - 1)); nia.
Qed.

(** X14. A file over the limit of the service never meets the rule for
    chunks of less than 1000 bytes: each of its chunks holds at least
    half the limit (12.5 MiB), and a batch that completes has submitted
    exactly one request per chunk, in the order of the chunks, each with
    the settings of the caller's request. *)
Theorem oversized_file_submits_every_chunk
    (env : Env) (apiKey : jsstring) (request : TranscriptionRequest)
    (w : World) (res : TranscriptionResult) :
  maxFileSize < size (req_file request) ->
  fst (transcribeAudioInBatches env apiKey request w) = inr res ->
  exists chunks,
    fst (chunkAudioFile env (req_file request) maxFileSize
                        onChunkingProgress w) = inr chunks /\
    Forall (fun c => maxFileSize / 2 <= size (file c)) chunks /\
    submitted (snd (transcribeAudioInBatches env apiKey request w))
    = submitted w ++ List.map (chunk_request request) chunks.
Proof.
  intros HL.
  rewrite transcribeAudioInBatches_run.
  pose proof (@oversized_chunks_are_large env (req_file request) w) as Hbig.
  pose proof (chunkAudioFile_submits_nothing env (req_file request)
                                             maxFileSize w) as Hwc.
  destruct (chunkAudioFile _ _ _ _ w) as [[e|chunks] wc];
    [simpl; intros E; discriminate E|].
  cbv zeta. cbn [snd fst] in Hwc, Hbig.
  specialize (Hbig chunks HL eq_refl).
  destruct (process_chunks_submits env apiKey request
              (Z.of_nat (List.length chunks)) (now env (clockReads wc))
              chunks 0 [] (loop_start chunks wc)) as [k [_ [Hs Hd]]].
  destruct (process_chunks _ _ _ _ _ _ _ _ _) as [[e|ts] wl];
    [simpl; intros E; discriminate E|].
  cbn [fst snd] in Hs, Hd.
  rewrite (Hd (ex_intro _ ts eq_refl)), firstn_all in Hs.
  rewrite filter_big_enough in Hs.
  2:{ eapply Forall_impl; [|exact Hbig]. intros c Hc.
      change (maxFileSize / 2) with 13107200 in Hc. simpl in Hc. lia. }
  intros _. exists chunks. split; [reflexivity|]. split; [exact Hbig|].
  destruct (combineChunkResults chunks ts); cbn [snd];
    cbn [emit tick submitted]; rewrite Hs;
    unfold loop_start; cbn [emit tick submitted]; now rewrite Hwc.
Qed.

Lemma oversized_file_submits_every_chunk_witness :
  let request := request_for (audio "talk.mp3" (60 * MiB)) in
  exists chunks,
    fst (chunkAudioFile studio (req_file request) maxFileSize
                        onChunkingProgress initial) = inr chunks /\
    submitted (snd (transcribeAudioInBatches studio key request initial))
    = [] ++ List.map (chunk_request request) chunks.
Proof.
  intros request.
  destruct (@oversized_file_submits_every_chunk
              studio key request initial
              {| text := lit "ok ok ok"; audioFileName := lit "talk.mp3";
                 language := req_language request |}
              ltac:(reflexivity) ltac:(reflexivity))
    as [chunks [Hc [_ Hs]]].
  exists chunks. split; [exact Hc|exact Hs].
Defined.

(* ================================================================== *)
(** * The loop of the batch: the transcripts and the reports *)

Section TranscriptFacts.

Variables (env : Env) (apiKey : jsstring) (request : TranscriptionRequest).
Variables (total startTime : Z).

(** What a completed loop has recorded, position by position. *)
Lemma process_chunks_outputs (todo : list AudioChunk) :
  forall i ts w ts',
    fst (process_chunks env apiKey request total startTime i todo ts w)
      = inr ts' ->
    exists outs,
      ts' = ts ++ outs /\
      List.length outs = List.length todo /\
      forall k c, nth_error todo k = Some c ->
        nth_error outs k
        = Some (chunk_transcript env apiKey request
                  (List.length (submitted w)) (firstn k todo) c).
Proof.
  induction todo as [|c rest IH]; intros i ts w ts' Hrun.
  - simpl in Hrun. injection Hrun as <-. exists [].
    rewrite app_nil_r. split; [reflexivity|]. split; [reflexivity|].
    intros [|k] c0 H; discriminate H.
  - assert (Go : forall t w2,
      List.length (submitted w2)
        = (List.length (submitted w)
           + List.length (filter big_enough [c]))%nat ->
      chunk_transcript env apiKey request (List.length (submitted w)) [] c
        = t ->
      fst (process_chunks env apiKey request total startTime (i + 1) rest
                          (ts ++ [t]) w2) = inr ts' ->
      exists outs,
        ts' = ts ++ outs /\
        List.length outs = List.length (c :: rest) /\
        forall k c0, nth_error (c :: rest) k = Some c0 ->
          nth_error outs k
          = Some (chunk_transcript env apiKey request
                    (List.length (submitted w)) (firstn k (c :: rest)) c0)).
    { intros t w2 Hn Ht H.
      destruct (IH (i + 1) (ts ++ [t]) w2 ts' H) as [outs [-> [Hlen Hk]]].
      exists (t :: outs). rewrite <- app_assoc.
      split; [reflexivity|]. split; [simpl; now rewrite Hlen|].
      intros [|k] c0 H0.
      - injection H0 as <-. cbn [nth_error firstn]. now rewrite Ht.
      - cbn [nth_error firstn] in *. rewrite (Hk k c0 H0).
        assert (Hidx :
          (List.length (submitted w) + List.length (filter big_enough [c])
           + List.length (filter big_enough (firstn k rest))
           = List.length (submitted w)
             + List.length (filter big_enough (c :: firstn k rest)))%nat)
          by (cbn [filter]; destruct (big_enough c); cbn [List.length]; lia).
        unfold chunk_transcript. rewrite Hn, Hidx. reflexivity. }
    destruct (Z.lt_ge_cases (size (file c)) 1000) as [Hc|Hc].
    + rewrite process_chunks_skip in Hrun by assumption.
      assert (Hb : big_enough c = false)
        by (unfold big_enough; apply Z.ltb_lt in Hc; now rewrite Hc).
      apply (Go [] w); [|unfold chunk_transcript; now rewrite Hb|exact Hrun].
      cbn [filter]. rewrite Hb. simpl. now rewrite Nat.add_0_r.
    + rewrite process_chunks_call in Hrun by assumption.
      assert (Hb : big_enough c = true)
        by (unfold big_enough; apply Z.ltb_ge in Hc; now rewrite Hc).
      assert (Hn : List.length
                     (submitted (chunk_done env total startTime i
                                   (submit w (with_file request (file c)))))
                   = (List.length (submitted w)
                      + List.length (filter big_enough [c]))%nat).
      { cbn [filter]. rewrite Hb.
        cbn [chunk_done emit tick submit submitted].
        now rewrite length_app. }
      assert (Ht : chunk_transcript env apiKey request
                     (List.length (submitted w)) [] c
                   = recorded_text
                       (remote env (List.length (submitted w)) apiKey
                               (with_file request (file c)))).
      { unfold chunk_transcript. rewrite Hb. cbn [filter List.length].
        now rewrite Nat.add_0_r. }
      unfold recorded_text in Ht.
      destruct (interpret_response _) as [e|t].
      * destruct (is_format_error e); [|discriminate Hrun].
        apply (Go [] _ Hn Ht Hrun).
      * apply (Go t _ Hn Ht Hrun).
Qed.

End TranscriptFacts.

Lemma StronglySorted_snoc {A} (R : A -> A -> Prop) (l : list A) (x : A) :
  StronglySorted R l -> Forall (fun a => R a x) l ->
  StronglySorted R (l ++ [x]).
Proof.
  induction 1 as [|a l Hs IH Ha]; intros Hx; simpl.
  - constructor; constructor.
  - inversion Hx; subst. constructor; [apply IH; assumption|].
    apply Forall_app. split; [exact Ha|]. constructor; [assumption|constructor].
Qed.

(** C7. A chunk of fewer than 1000 bytes is never submitted to the
    endpoint: whatever the chunks and however the loop ends, the requests
    that the loop has submitted are those of the chunks of 1000 bytes or
    more among the first [k] of the list, for some [k], in order.  When
    the loop completes, it has recorded one transcript per chunk, at the
    position of the chunk: the empty string for a chunk under 1000 bytes;
    for another chunk the text that the endpoint answered to the request
    made for that chunk, or the empty string when the call failed with a
    tolerated error.  In every completed batch these transcripts, those
    that the loop returned for the chunks of [chunkAudioFile], are what
    [combineChunkResults] receives, and the chunk at position [k] bears
    the index [k]. *)
Theorem small_chunks_skipped_and_transcripts_aligned :
  (forall (env : Env) (apiKey : jsstring) (request : TranscriptionRequest)
          (total startTime : Z) (chunks : list AudioChunk) (w : World),
      let run :=
        process_chunks env apiKey request total startTime 0 chunks [] w in
      (exists k,
          (k <= List.length chunks)%nat /\
          submitted (snd run)
          = submitted w
            ++ List.map (chunk_request request)
                        (filter big_enough (firstn k chunks))) /\
      forall ts, fst run = inr ts ->
        List.length ts = List.length chunks /\
        (forall k c, nth_error chunks k = Some c ->
           nth_error ts k
           = Some (chunk_transcript env apiKey request
                     (List.length (submitted w)) (firstn k chunks) c)) /\
        (forall k c, nth_error chunks k = Some c ->
           size (file c) < 1000 -> nth_error ts k = Some []) /\
        submitted (snd run)
        = submitted w
          ++ List.map (chunk_request request) (filter big_enough chunks)) /\
  (forall (env : Env) (apiKey : jsstring) (request : TranscriptionRequest)
          (w : World) (res : TranscriptionResult),
      fst (transcribeAudioInBatches env apiKey request w) = inr res ->
      exists (chunks : list AudioChunk) (wc : World)
             (ts : list jsstring) (wl : World),
        chunkAudioFile env (req_file request) maxFileSize
                       onChunkingProgress w = (inr chunks, wc) /\
        process_chunks env apiKey request (Z.of_nat (List.length chunks))
                       (now env (clockReads wc)) 0 chunks []
                       (loop_start chunks wc) = (inr ts, wl) /\
        List.length ts = List.length chunks /\
        (forall k c, nth_error chunks k = Some c ->
           index c = Z.of_nat k /\
           nth_error ts k
           = Some (chunk_transcript env apiKey request
                     (List.length (submitted w)) (firstn k chunks) c)) /\
        combineChunkResults chunks ts = inr (text res) /\
        submitted (snd (transcribeAudioInBatches env apiKey request w))
        = submitted w
          ++ List.map (chunk_request request) (filter big_enough chunks)).
Proof.
  split.
  - intros env apiKey request total startTime chunks w run. subst run.
    destruct (process_chunks_submits env apiKey request total startTime
                                     chunks 0 [] w) as [k [Hk [Hs Hd]]].
    split; [exists k; auto|].
    intros ts Hts.
    destruct (process_chunks_outputs env apiKey request total startTime
                                     chunks 0 [] w Hts)
      as [outs [E [Hlen Hout]]].
    cbn [app] in E. subst outs.
    split; [exact Hlen|]. split; [exact Hout|]. split.
    + intros k0 c Hc Hsmall. rewrite (Hout k0 c Hc).
      unfold chunk_transcript, big_enough.
      apply Z.ltb_lt in Hsmall. now rewrite Hsmall.
    + rewrite Hs, (Hd (ex_intro _ ts Hts)), firstn_all. reflexivity.
  - intros env apiKey request w res.
    rewrite transcribeAudioInBatches_run.
    pose proof (@chunkAudioFile_indices env (req_file request) maxFileSize w)
      as Hidx.
    pose proof (chunkAudioFile_submits_nothing env (req_file request)
                                               maxFileSize w) as Hwc.
    destruct (chunkAudioFile _ _ _ _ w) as [[e|chunks] wc];
      [simpl; intros E; discriminate E|].
    cbv zeta. cbn [snd fst] in Hwc, Hidx.
    destruct (process_chunks_submits env apiKey request
                (Z.of_nat (List.length chunks)) (now env (clockReads wc))
                chunks 0 [] (loop_start chunks wc)) as [k [_ [Hs Hd]]].
    pose proof (process_chunks_outputs env apiKey request
                  (Z.of_nat (List.length chunks)) (now env (clockReads wc))
                  chunks 0 [] (loop_start chunks wc)) as Hout.
    destruct (process_chunks _ _ _ _ _ _ _ _ _) as [[e|ts] wl] eqn:Hl;
      [simpl; intros E; discriminate E|].
    cbn [fst snd] in Hs, Hd, Hout.
    destruct (Hout ts eq_refl) as [outs [E [Hlen Hk]]].
    cbn [app] in E. subst outs.
    rewrite (Hd (ex_intro _ ts eq_refl)), firstn_all in Hs.
    assert (Hn : List.length (submitted (loop_start chunks wc))
                 = List.length (submitted w))
      by (unfold loop_start; cbn [emit tick submitted]; now rewrite Hwc).
    rewrite Hn in Hk.
    destruct (combineChunkResults chunks ts) as [e|out] eqn:Hc;
      [simpl; intros E; discriminate E|].
    cbn [fst snd]. intros E. injection E as <-.
    exists chunks, wc, ts, wl.
    split; [reflexivity|]. split; [exact Hl|]. split; [exact Hlen|].
    split; [|split; [exact Hc|]].
    + intros k0 c Hkc. split; [apply (Hidx chunks eq_refl k0 c Hkc)|].
      apply Hk, Hkc.
    + cbn [emit tick submitted text]. rewrite Hs.
      unfold loop_start. cbn [emit tick submitted]. now rewrite Hwc.
Qed.

Lemma small_chunks_skipped_and_transcripts_aligned_witness :
  let request := request_for (audio "talk.mp3" 9000) in
  let chunks := [chunk_at 0; scrap_at 1; chunk_at 2] in
  let run := process_chunks garbled key request 3 0 0 chunks [] initial in
  fst run = inr [lit "ok"; []; []] /\
  nth_error [lit "ok"; []; []] 1 = Some [] /\
  submitted (snd run)
  = [] ++ List.map (chunk_request request) [chunk_at 0; chunk_at 2].
Proof.
  intros request chunks run.
  destruct (proj1 small_chunks_skipped_and_transcripts_aligned
              garbled key request 3 0 chunks initial) as [_ H].
  destruct (H [lit "ok"; []; []] eq_refl) as [_ [_ [Hsmall Hsub]]].
  split; [reflexivity|].
  split; [exact (Hsmall 1%nat (scrap_at 1) eq_refl eq_refl)|exact Hsub].
Defined.

(** In a batch over a file above the limit every chunk is called, so that
    each chunk is followed by its report. *)
Lemma percentage_le_100 (i n : Z) :
  0 <= i <= n -> 0 < n ->
  (fl (fl (inject_Z i / inject_Z n) * 100) <= 100)%Q.
Proof.
  intros Hi Hn.
  rewrite <- (fl_whole n Hn) at 2.
  apply fl_percentage_le; lia.
Qed.

(** C8. The batch routine runs on files above the limit of 25 MiB only
    (its one call site is guarded by that test).  On such a file no chunk
    is under 1000 bytes, and in every batch that completes the events of
    the processing phase are: the start of the phase, at [currentChunk = 0]
    with progress 0, then for each chunk [i] in turn, after its call
    returned or failed with a tolerated error, one report with
    [currentChunk = i + 1], [totalChunks = N],
    [progress = (i + 1) / N * 100] and the remaining time recomputed from
    the clock read after that call, [ceil((elapsed / (i + 1)) * (N - (i +
    1)))], each operation on doubles; the phase is followed by the
    [combining] event.  So the [currentChunk] values of the phase are
    0, 1, ..., N, and the progress never decreases from the start of the
    phase to the end of the batch. *)
Theorem batch_reports_every_chunk
    (env : Env) (apiKey : jsstring) (request : TranscriptionRequest)
    (w : World) (res : TranscriptionResult) :
  maxFileSize < size (req_file request) ->
  fst (transcribeAudioInBatches env apiKey request w) = inr res ->
  exists (chunks : list AudioChunk) (wc : World),
    chunkAudioFile env (req_file request) maxFileSize onChunkingProgress w
      = (inr chunks, wc) /\
    Forall (fun c => 1000 <= size (file c)) chunks /\
    let N := Z.of_nat (List.length chunks) in
    let startTime := now env (clockReads wc) in
    let clock (i : nat) := now env (clockReads wc + 1 + i) in
    let report (i : nat) :=
      {| phase := processing;
         currentChunk := Z.of_nat i + 1;
         totalChunks := N;
         progress := fl (fl (inject_Z (Z.of_nat i + 1) / inject_Z N) * 100);
         estimatedTimeRemaining :=
           Some (Qceiling
                   (fl (fl (fl (inject_Z (clock i - startTime) / 1000)
                            / inject_Z (Z.of_nat i + 1))
                        * inject_Z (N - (Z.of_nat i + 1))))) |} in
    let reports :=
      {| phase := processing; currentChunk := 0; totalChunks := N;
         progress := 0;
         estimatedTimeRemaining := Some (estimateProcessingTime chunks) |}
      :: List.map report (seq 0 (List.length chunks)) in
    events (snd (transcribeAudioInBatches env apiKey request w))
      = events wc ++ reports ++ [combining_event N] /\
    List.map currentChunk reports
      = List.map Z.of_nat (seq 0 (S (List.length chunks))) /\
    StronglySorted (fun a b => (progress a <= progress b)%Q)
                   (reports ++ [combining_event N]).
Proof.
  intros HL.
  rewrite transcribeAudioInBatches_run.
  pose proof (@oversized_chunks_are_large env (req_file request) w) as Hbig.
  pose proof (@chunkAudioFile_sizes env (req_file request) maxFileSize w)
    as Hsz.
  destruct (chunkAudioFile _ _ _ _ w) as [[e|chunks] wc];
    [simpl; intros E; discriminate E|].
  cbv zeta. cbn [snd fst] in Hbig, Hsz.
  specialize (Hbig chunks HL eq_refl).
  assert (HN : 0 < Z.of_nat (List.length chunks)).
  { assert (H0 : 0 < maxFileSize) by reflexivity.
    destruct (Hsz chunks ltac:(lia) H0 eq_refl) as [_ [H1 _]]. lia. }
  clear Hsz.
  assert (Hbig' : Forall (fun c => 1000 <= size (file c)) chunks).
  { eapply Forall_impl; [|exact Hbig]. intros c Hc.
    change (maxFileSize / 2) with 13107200 in Hc. simpl in Hc. lia. }
  pose proof (process_chunks_reports env apiKey request
                (Z.of_nat (List.length chunks)) (now env (clockReads wc))
                Hbig' 0 [] (loop_start chunks wc)) as Hev.
  destruct (process_chunks _ _ _ _ _ _ _ _ _) as [[e|ts] wl];
    [simpl; intros E; discriminate E|].
  specialize (Hev ts eq_refl). cbn [snd] in Hev.
  destruct (combineChunkResults chunks ts) as [e|out];
    [simpl; intros E; discriminate E|].
  intros _. exists chunks, wc.
  split; [reflexivity|]. split; [exact Hbig'|].
  set (N := Z.of_nat (List.length chunks)) in *.
  split; [|split].
  - cbn [snd tick emit events]. rewrite Hev.
    unfold loop_start. cbn [tick emit events clockReads].
    rewrite <- !app_assoc. cbn [app]. do 3 f_equal.
    apply map_ext. intros k. unfold processing_event.
    replace (clockReads wc + 1 + k)%nat with (S (clockReads wc) + k)%nat
      by lia.
    rewrite Z.add_0_l. reflexivity.
  - cbn [List.map currentChunk seq]. f_equal.
    rewrite <- seq_shift, !map_map. apply map_ext. intros k.
    cbn [currentChunk]. lia.
  - apply StronglySorted_snoc.
    + constructor.
      * apply StronglySorted_map_seq. intros i j Hij. cbn [progress].
        apply fl_percentage_le; lia.
      * apply Forall_forall. intros ev Hin.
        apply in_map_iff in Hin as [k [<- Hk]]. cbn [progress].
        apply fl_nonneg. apply Qmult_le_0_compat; [|discriminate].
        apply fl_nonneg.
        unfold Qdiv. apply Qmult_le_0_compat.
        -- rewrite <- (Zle_Qle 0). lia.
        -- apply Qinv_le_0_compat. rewrite <- (Zle_Qle 0). lia.
    + constructor; [discriminate|].
      apply Forall_forall. intros ev Hin.
      apply in_map_iff in Hin as [k [<- Hk]]. cbn [progress combining_event].
      apply in_seq in Hk.
      apply percentage_le_100; subst N; lia.
Qed.

Lemma batch_reports_every_chunk_witness :
  let request := request_for (audio "talk.mp3" (60 * MiB)) in
  exists (chunks : list AudioChunk) (wc : World),
    chunkAudioFile studio (req_file request) maxFileSize onChunkingProgress
                   initial = (inr chunks, wc) /\
    List.map currentChunk
      (filter is_processing
         (events (snd (transcribeAudioInBatches studio key request
                                                initial))))
    = [0; 1; 2; 3].
Proof.
  intros request.
  destruct (@batch_reports_every_chunk
              studio key request initial
              {| text := lit "ok ok ok"; audioFileName := lit "talk.mp3";
                 language := None |}
              ltac:(reflexivity) ltac:(reflexivity))
    as [chunks [wc [Hc _]]].
  exists chunks, wc. split; [exact Hc|reflexivity].
Defined.

(* ================================================================== *)
(** * Further properties: the combined text *)

Section WordFacts.

Lemma tokens_not_ws (s : jsstring) :
  forall cur, Forall not_ws cur -> Forall (Forall not_ws) (tokens cur s).
Proof.
  induction s as [|c r IH]; intros cur Hcur; simpl.
  - destruct cur; simpl; [constructor|].
    constructor; [exact Hcur|constructor].
  - destruct (is_ws c) eqn:Hc.
    + apply Forall_app. split; [|apply IH; constructor].
      destruct cur; simpl; [constructor|].
      constructor; [exact Hcur|constructor].
    + apply IH. apply Forall_app. split; [exact Hcur|].
      constructor; [exact Hc|constructor].
Qed.

Lemma words_are_words (s : jsstring) : Forall is_word (words s).
Proof.
  pose proof (tokens_nonempty s []) as H1.
  pose proof (@tokens_not_ws s [] (Forall_nil _)) as H2.
  unfold words. rewrite Forall_forall in *. intros w Hw.
  split; [apply H1|apply H2]; exact Hw.
Qed.

Lemma flat_map_words_are_words (parts : list jsstring) :
  Forall is_word (flat_map words parts).
Proof.
  apply Forall_flat_map, Forall_forall. intros s _. apply words_are_words.
Qed.

Lemma replace_ws_runs_word (w r : jsstring) (b : bool) :
  is_word w -> replace_ws_runs b (w ++ r) = w ++ replace_ws_runs false r.
Proof.
  intros [Hne Hw]. revert b.
  induction Hw as [|c w Hc Hw IH]; intros b; [congruence|].
  simpl. unfold not_ws in Hc. rewrite Hc. f_equal.
  destruct w as [|c' w']; [reflexivity|].
  apply IH. discriminate.
Qed.

Lemma unwords_split (w : jsstring) (ws : list jsstring) :
  unwords (w :: ws) = w ++ match ws with
                           | [] => []
                           | _ :: _ => SPACE :: unwords ws
                           end.
Proof. destruct ws; [symmetry; apply app_nil_r|reflexivity]. Qed.

Lemma replace_ws_runs_unwords (W : list jsstring) :
  Forall is_word W -> forall b, replace_ws_runs b (unwords W) = unwords W.
Proof.
  induction 1 as [|w ws Hw Hws IH]; intros b; [reflexivity|].
  rewrite unwords_split, replace_ws_runs_word by exact Hw.
  f_equal. destruct ws as [|w' ws']; [reflexivity|].
  cbn [replace_ws_runs]. rewrite is_ws_SPACE. f_equal. apply IH.
Qed.

Lemma trimStart_unwords (W : list jsstring) :
  Forall is_word W -> trimStart (unwords W) = unwords W.
Proof.
  intros H. destruct H as [|w ws [Hne Hw] _]; [reflexivity|].
  rewrite unwords_split.
  destruct Hw as [|c w' Hc _]; [congruence|].
  simpl. unfold not_ws in Hc. now rewrite Hc.
Qed.

Lemma trimEnd_unwords (W : list jsstring) :
  Forall is_word W -> trimEnd (unwords W) = unwords W.
Proof.
  induction 1 as [|w ws Hw Hws IH]; [reflexivity|].
  rewrite unwords_split.
  destruct ws as [|w' ws'].
  - rewrite app_nil_r. apply trimEnd_word, Hw.
  - rewrite trimEnd_app.
    assert (E : trimEnd (SPACE :: unwords (w' :: ws'))
                = SPACE :: unwords (w' :: ws')).
    { cbn [trimEnd]. rewrite IH.
      destruct (unwords (w' :: ws')) eqn:U; [|reflexivity].
      exfalso. inversion Hws as [|? ? [Hne _] _]; subst.
      exact (unwords_nonempty ws' Hne U). }
    rewrite E. reflexivity.
Qed.

Lemma tokens_word (s : jsstring) :
  Forall not_ws s -> forall cur, tokens cur s = emit_word (cur ++ s).
Proof.
  induction 1 as [|c r Hc Hr IH]; intros cur; simpl.
  - now rewrite app_nil_r.
  - unfold not_ws in Hc. rewrite Hc, IH, <- app_assoc. reflexivity.
Qed.

Lemma words_word (w : jsstring) : is_word w -> words w = [w].
Proof.
  intros [Hne Hw]. unfold words. rewrite tokens_word by exact Hw.
  simpl. destruct w; [congruence|reflexivity].
Qed.

Lemma words_unwords (W : list jsstring) :
  Forall is_word W -> words (unwords W) = W.
Proof.
  intros H. unfold unwords. rewrite words_join.
  induction H as [|w ws Hw _ IH]; [reflexivity|].
  cbn [flat_map]. rewrite words_word, IH by exact Hw. reflexivity.
Qed.

Lemma tokens_nil_iff (s : jsstring) :
  forall cur, tokens cur s = [] <-> cur = [] /\ blank s.
Proof.
  induction s as [|c r IH]; intros cur; simpl.
  - destruct cur; simpl; split.
    + intros _. split; [reflexivity|constructor].
    + reflexivity.
    + discriminate.
    + intros [E _]; discriminate E.
  - destruct (is_ws c) eqn:Hc.
    + split.
      * intros E. apply app_eq_nil in E as [E1 E2].
        apply IH in E2 as [_ Hb].
        split; [destruct cur; [reflexivity|discriminate E1]|].
        constructor; assumption.
      * intros [-> Hb]. inversion Hb; subst. simpl.
        apply IH. split; [reflexivity|assumption].
    + rewrite IH. split.
      * intros [E _]. destruct cur; discriminate E.
      * intros [_ Hb]. inversion Hb; subst. congruence.
Qed.

Lemma words_nil_iff (s : jsstring) : words s = [] <-> blank s.
Proof.
  unfold words. rewrite tokens_nil_iff. split; [intros [_ H]; exact H|auto].
Qed.

Lemma flat_map_words_nil_iff (parts : list jsstring) :
  flat_map words parts = [] <-> Forall blank parts.
Proof.
  induction parts as [|s parts IH]; simpl.
  - split; [constructor|reflexivity].
  - split.
    + intros E. apply app_eq_nil in E as [E1 E2].
      constructor; [apply words_nil_iff, E1|apply IH, E2].
    + intros H. inversion H; subst.
      replace (words s) with (@nil jsstring)
        by (symmetry; now apply words_nil_iff).
      now apply IH.
Qed.

Lemma unwords_nil_iff (W : list jsstring) :
  Forall is_word W -> unwords W = [] <-> W = [].
Proof.
  intros H. split; [|intros ->; reflexivity].
  destruct H as [|w ws [Hne _] _]; [reflexivity|].
  intros U. exfalso. exact (unwords_nonempty ws Hne U).
Qed.

Lemma map_snd_combine_eq {A B} (a : list A) :
  forall b : list B,
    List.length a = List.length b -> List.map snd (List.combine a b) = b.
Proof.
  induction a as [|x a IH]; intros [|y b] H; try discriminate H;
    [reflexivity|].
  simpl. f_equal. apply IH. now injection H.
Qed.

Lemma sort_results_id (chunks : list AudioChunk) :
  StronglySorted (fun a b => index a <= index b) chunks ->
  forall ts, sort_results (List.combine chunks ts) = List.combine chunks ts.
Proof.
  induction 1 as [|c rest Hs IH Hc]; intros ts; [reflexivity|].
  destruct ts as [|t ts]; [reflexivity|].
  cbn [List.combine sort_results fold_right].
  fold (sort_results (List.combine rest ts)). rewrite IH.
  destruct rest as [|c' rest']; [reflexivity|].
  destruct ts as [|t' ts']; [reflexivity|].
  cbn [List.combine insert_result fst].
  inversion Hc as [|? ? Hle _]; subst.
  destruct (Z.leb_spec (index c - index c') 0); [reflexivity|lia].
Qed.

Lemma combined_words_nil_iff (l : list ChunkResult) :
  unwords (flat_map words (List.map snd (sort_results l))) = []
  <-> Forall blank (List.map snd l).
Proof.
  rewrite unwords_nil_iff by apply flat_map_words_are_words.
  rewrite flat_map_words_nil_iff.
  pose proof (Permutation_map snd (sort_results_perm l)) as P.
  split; intros H.
  - eapply Permutation_Forall; [exact P|exact H].
  - eapply Permutation_Forall; [symmetry; exact P|exact H].
Qed.

End WordFacts.

(** X15. The text that [combineChunkResults] returns is in normal form:
    trimming it, or collapsing its white space, changes nothing, and its
    words are one space apart; combining it again, as the transcript of
    one chunk, gives it back. *)
Theorem combined_text_is_normalised
    (chunks : list AudioChunk) (transcriptions : list jsstring)
    (out : jsstring) :
  combineChunkResults chunks transcriptions = inr out ->
  trim out = out /\ collapse_ws out = out /\ unwords (words out) = out /\
  forall c, combineChunkResults [c] [out] = inr out.
Proof.
  unfold combineChunkResults at 1.
  destruct (negb _); [intros E; discriminate E|].
  rewrite <- map_map, normalise_parts. intros E. injection E as <-.
  set (W := flat_map words _).
  assert (HW : Forall is_word W) by apply flat_map_words_are_words.
  split; [|split; [|split]].
  - unfold trim. now rewrite trimStart_unwords, trimEnd_unwords.
  - apply replace_ws_runs_unwords, HW.
  - now rewrite words_unwords.
  - intros c. rewrite combineChunkResults_ok by reflexivity.
    cbn [List.combine sort_results fold_right insert_result List.map snd
         flat_map].
    rewrite app_nil_r, words_unwords by exact HW. reflexivity.
Qed.

Lemma combined_text_is_normalised_witness :
  trim (lit "a b c") = lit "a b c" /\
  collapse_ws (lit "a b c") = lit "a b c".
Proof.
  destruct (@combined_text_is_normalised
              [chunk_at 0; chunk_at 1; chunk_at 2]
              [lit " a  b "; []; lit " c"] (lit "a b c")
              ltac:(reflexivity)) as [H1 [H2 _]].
  split; [exact H1|exact H2].
Defined.

(** X16. For chunks listed by non-decreasing index, as [chunkAudioFile]
    lists them, the sort changes nothing: the combined text is the words
    of the transcripts, in the order of the list, one space apart. *)
Theorem sorted_chunks_combine_in_list_order
    (chunks : list AudioChunk) (transcriptions : list jsstring) :
  StronglySorted (fun a b => index a <= index b) chunks ->
  List.length chunks = List.length transcriptions ->
  combineChunkResults chunks transcriptions
  = inr (unwords (flat_map words transcriptions)).
Proof.
  intros Hs Hlen.
  rewrite combineChunkResults_ok, sort_results_id, map_snd_combine_eq
    by assumption.
  reflexivity.
Qed.

Lemma sorted_chunks_combine_in_list_order_witness :
  combineChunkResults [chunk_at 0; chunk_at 0; chunk_at 3]
                      [lit "one"; lit " two "; lit "three"]
  = inr (unwords (flat_map words [lit "one"; lit " two "; lit "three"])).
Proof.
  apply sorted_chunks_combine_in_list_order; [|reflexivity].
  repeat constructor; simpl; lia.
Defined.

(** X17. The combined text is empty exactly when every transcript is
    blank (empty or white space only). *)
Theorem combined_text_empty_iff_all_blank
    (chunks : list AudioChunk) (transcriptions : list jsstring) :
  List.length chunks = List.length transcriptions ->
  combineChunkResults chunks transcriptions = inr []
  <-> Forall blank transcriptions.
Proof.
  intros Hlen. rewrite combineChunkResults_ok by assumption.
  rewrite <- (map_snd_combine_eq chunks transcriptions Hlen) at 2.
  rewrite <- combined_words_nil_iff.
  split; [intros E; now injection E|intros ->; reflexivity].
Qed.

Lemma combined_text_empty_iff_all_blank_witness :
  combineChunkResults [chunk_at 0; chunk_at 1] [lit "  "; []] = inr [].
Proof.
  apply (proj2 (@combined_text_empty_iff_all_blank
                  [chunk_at 0; chunk_at 1] [lit "  "; []]
                  ltac:(reflexivity))).
  repeat constructor.
Defined.

(* ================================================================== *)
(** * Further properties: the batch as a whole *)

Lemma chunkAudioFile_sorted (env : Env) (f : File) (C : Z) (w : World)
    (chunks : list AudioChunk) :
  fst (chunkAudioFile env f C onChunkingProgress w) = inr chunks ->
  StronglySorted (fun a b => index a <= index b) chunks.
Proof.
  intros Hrun.
  destruct (chunkAudioFile_nth _ _ _ _ Hrun) as [D [_ [-> _]]].
  unfold loop_indices. rewrite map_map.
  apply StronglySorted_map_seq. intros i j Hij.
  cbn [index chunk_of]. lia.
Qed.

Lemma combine_same_length (chunks : list AudioChunk)
    (ts : list jsstring) (out : jsstring) :
  combineChunkResults chunks ts = inr out ->
  List.length chunks = List.length ts.
Proof.
  unfold combineChunkResults.
  destruct (Nat.eqb_spec (List.length chunks) (List.length ts));
    [auto|intros E; discriminate E].
Qed.

(** X18. What a completed batch returns: the text is the words of the
    transcripts that the loop collected, in the order of the chunks, one
    space apart (the sort has nothing to reorder); the file name is that
    of the caller's file and the language the one the caller asked for,
    whatever the endpoint answered. *)
Theorem batch_result_is_the_words_in_chunk_order
    (env : Env) (apiKey : jsstring) (request : TranscriptionRequest)
    (w : World) (res : TranscriptionResult) :
  fst (transcribeAudioInBatches env apiKey request w) = inr res ->
  exists chunks wc transcriptions wl,
    chunkAudioFile env (req_file request) maxFileSize onChunkingProgress w
      = (inr chunks, wc) /\
    process_chunks env apiKey request (Z.of_nat (List.length chunks))
                   (now env (clockReads wc)) 0 chunks []
                   (loop_start chunks wc)
      = (inr transcriptions, wl) /\
    res = {| text := unwords (flat_map words transcriptions);
             audioFileName := name (req_file request);
             language := req_language request |}.
Proof.
  rewrite transcribeAudioInBatches_run.
  pose proof (@chunkAudioFile_sorted env (req_file request) maxFileSize w)
    as Hsorted.
  destruct (chunkAudioFile _ _ _ _ w) as [[e|chunks] wc];
    [simpl; intros E; discriminate E|].
  cbv zeta. specialize (Hsorted chunks eq_refl).
  destruct (process_chunks _ _ _ _ _ _ _ _ _) as [[e|ts] wl] eqn:Hl;
    [simpl; intros E; discriminate E|].
  destruct (combineChunkResults chunks ts) as [e|out] eqn:Hc;
    [simpl; intros E; discriminate E|].
  cbn [fst]. intros E. injection E as <-.
  exists chunks, wc, ts, wl. split; [reflexivity|]. split; [exact Hl|].
  pose proof (combine_same_length _ _ Hc) as Hlen.
  rewrite combineChunkResults_ok, sort_results_id, map_snd_combine_eq in Hc
    by assumption.
  injection Hc as <-. reflexivity.
Qed.

Lemma batch_result_is_the_words_in_chunk_order_witness :
  exists chunks wc transcriptions wl,
    chunkAudioFile studio (audio "talk.mp3" (60 * MiB)) maxFileSize
                   onChunkingProgress initial = (inr chunks, wc) /\
    process_chunks studio key (request_for (audio "talk.mp3" (60 * MiB)))
                   (Z.of_nat (List.length chunks))
                   (now studio (clockReads wc)) 0 chunks []
                   (loop_start chunks wc)
      = (inr transcriptions, wl) /\
    {| text := lit "ok ok ok"; audioFileName := lit "talk.mp3";
       language := None |}
    = {| text := unwords (flat_map words transcriptions);
         audioFileName := name (req_file
                                  (request_for (audio "talk.mp3" (60 * MiB))));
         language := req_language
                       (request_for (audio "talk.mp3" (60 * MiB))) |}.
Proof.
  apply (@batch_result_is_the_words_in_chunk_order
           studio key (request_for (audio "talk.mp3" (60 * MiB))) initial).
  reflexivity.
Defined.

Section ToleratedFacts.

Variables (env : Env) (apiKey : jsstring) (request : TranscriptionRequest).
Variables (total startTime : Z).
Hypothesis Hremote : always_tolerated env apiKey.

Lemma process_chunks_all_tolerated (todo : list AudioChunk) :
  forall i ts w,
    fst (process_chunks env apiKey request total startTime i todo ts w)
    = inr (ts ++ repeat [] (List.length todo)).
Proof.
  induction todo as [|c rest IH]; intros i ts w.
  - simpl. now rewrite app_nil_r.
  - cbn [List.length repeat].
    replace (ts ++ [] :: repeat [] (List.length rest))
      with ((ts ++ [[]]) ++ repeat [] (List.length rest))
      by (now rewrite <- app_assoc).
    destruct (Z.lt_ge_cases (size (file c)) 1000) as [Hc|Hc].
    + rewrite process_chunks_skip by assumption. apply IH.
    + rewrite process_chunks_call by assumption.
      destruct (Hremote (List.length (submitted w))
                        (with_file request (file c))) as [e [-> ->]].
      apply IH.
Qed.

End ToleratedFacts.

Lemma blank_repeat (n : nat) : Forall blank (repeat (@nil codeunit) n).
Proof. induction n; constructor; [constructor|assumption]. Qed.

(** X19. When the endpoint refuses every chunk with an error whose message
    mentions the file format, the batch does not fail: it completes, and
    returns an empty text. *)
Theorem undecodable_chunks_give_an_empty_text
    (env : Env) (apiKey : jsstring) (request : TranscriptionRequest)
    (w : World) (D : Q) :
  audioDuration env (req_file request) = inr D ->
  always_tolerated env apiKey ->
  fst (transcribeAudioInBatches env apiKey request w)
  = inr {| text := [];
           audioFileName := name (req_file request);
           language := req_language request |}.
Proof.
  intros HD Hremote.
  rewrite transcribeAudioInBatches_run, chunkAudioFile_run, HD.
  cbv beta iota zeta.
  set (chunks := List.map (chunk_of _ _ _ _ _) _).
  destruct (process_chunks _ _ _ _ _ _ _ _ _) as [[err|ts] wl] eqn:Hloop;
    apply (f_equal fst) in Hloop;
    rewrite process_chunks_all_tolerated in Hloop by exact Hremote;
    [discriminate Hloop|].
  cbn [fst app] in Hloop. injection Hloop as <-.
  assert (Hc : combineChunkResults chunks (repeat [] (List.length chunks))
               = inr []).
  { rewrite combineChunkResults_ok by (now rewrite repeat_length).
    f_equal. apply combined_words_nil_iff.
    rewrite map_snd_combine_eq by (now rewrite repeat_length).
    apply blank_repeat. }
  rewrite Hc. reflexivity.
Qed.

Lemma undecodable_chunks_give_an_empty_text_witness :
  fst (transcribeAudioInBatches undecodable key
         (request_for (audio "talk.mp3" (60 * MiB))) initial)
  = inr {| text := []; audioFileName := lit "talk.mp3"; language := None |}.
Proof.
  apply (@undecodable_chunks_give_an_empty_text
           undecodable key (request_for (audio "talk.mp3" (60 * MiB)))
           initial (600 # 1)%Q).
  - reflexivity.
  - intros n q. eexists. split; reflexivity.
Defined.

(* ================================================================== *)
(** * Further properties: which answers the loop tolerates *)

Lemma includes_invalid_file_format (m : jsstring) :
  includes m (lit "Invalid file format") = true ->
  includes m (lit "file format") = true.
Proof.
  rewrite !includes_spec. intros [a [b E]].
  exists (a ++ lit "Invalid "), b. rewrite E, <- !app_assoc. reflexivity.
Qed.

Lemma is_format_error_message (cls : ErrorClass) (m : jsstring) :
  is_format_error (JsError cls m) = includes m (lit "file format").
Proof.
  unfold is_format_error. cbn [message_of].
  pose proof (includes_invalid_file_format m) as H.
  destruct (includes m (lit "Invalid file format")); [|reflexivity].
  now rewrite H.
Qed.

Lemma includes_after_prefix (m : jsstring) :
  includes (lit "Transcription failed: " ++ m) (lit "file format")
  = includes m (lit "file format").
Proof.
  let p := eval vm_compute in (lit "Transcription failed: ") in
  change (lit "Transcription failed: ") with p.
  let p := eval vm_compute in (lit "file format") in
  change (lit "file format") with p.
  cbn [app includes starts_with N.eqb Pos.eqb andb orb]. reflexivity.
Qed.

Lemma is_format_error_refusal (detail : jsstring)
    (c : option jsstring) :
  is_format_error
    (JsObject (Some (lit "Transcription failed: " ++ detail))
              (Some api_error) c)
  = includes detail (lit "file format").
Proof.
  unfold is_format_error. cbn [message_of].
  pose proof (includes_invalid_file_format
                (lit "Transcription failed: " ++ detail)) as H.
  rewrite includes_after_prefix in H |- *.
  destruct (includes _ (lit "Invalid file format")); [|reflexivity].
  cbn [orb]. symmetry. apply H. reflexivity.
Qed.

(** X20. Which failed answers the loop of the batch tolerates.  A failed
    connection or an unparsable body is tolerated exactly when the message
    of its error contains 'file format'; a refusal of the endpoint exactly
    when the message that the endpoint sent does (the words 'Transcription
    failed' that the service puts in front change nothing); a refusal
    without a message, reported as 'Unknown error', never.  The test for
    'Invalid file format' adds nothing. *)
Theorem tolerated_answers (response : RemoteResponse) (e : Thrown) :
  interpret_response response = inl e ->
  is_format_error e =
  match response with
  | FetchRejects m | HttpOkUnparsable m | HttpFailure (Some m) _ =>
      includes m (lit "file format")
  | HttpFailure None _ | HttpOk _ => false
  end.
Proof.
  destruct response as [m|om c|m|t]; cbn [interpret_response].
  - intros E. injection E as <-. apply is_format_error_message.
  - set (detail := match om with
                   | Some m => if is_empty m then unknown_error else m
                   | None => unknown_error
                   end).
    intros E.
    assert (E' : e = JsObject (Some (lit "Transcription failed: " ++ detail))
                              (Some api_error) c) by congruence.
    rewrite E', is_format_error_refusal.
    subst detail. destruct om as [[|x m']|]; reflexivity.
  - intros E. injection E as <-. apply is_format_error_message.
  - intros E. discriminate E.
Qed.

Lemma tolerated_answers_witness :
  is_format_error
    (JsObject (Some (lit "Transcription failed: Invalid file format."))
              (Some api_error) (Some (lit "invalid_request_error")))
  = includes (lit "Invalid file format.") (lit "file format").
Proof.
  apply (@tolerated_answers
           (HttpFailure (Some (lit "Invalid file format."))
                        (Some (lit "invalid_request_error")))).
  reflexivity.
Defined.

(* ================================================================== *)
(** * Further properties: [isAudioFile], [formatDuration],
      [validateApiKey] *)

Lemma string_eqb_eq (a : jsstring) :
  forall b, string_eqb a b = true <-> a = b.
Proof.
  induction a as [|x a IH]; intros [|y b]; simpl;
    try (split; [discriminate|intros E; discriminate E]);
    [split; reflexivity|].
  rewrite andb_true_iff, N.eqb_eq, IH.
  split; [intros [-> ->]; reflexivity|intros E; now injection E].
Qed.

Lemma array_includes_In (array : list jsstring) (s : jsstring) :
  array_includes array s = true <-> In s array.
Proof.
  unfold array_includes. rewrite existsb_exists. split.
  - intros [x [Hx E]]. apply string_eqb_eq in E. now subst.
  - intros H. exists s. split; [exact H|now apply string_eqb_eq].
Qed.

Lemma audioTypes_start_with_audio (m : jsstring) :
  array_includes audioTypes m = true ->
  starts_with (lit "audio/") m = true.
Proof.
  rewrite array_includes_In. unfold audioTypes. cbn [In].
  intros H.
  repeat (destruct H as [<-|H]; [reflexivity|]). destruct H.
Qed.

(** X21. [isAudioFile] accepts a file exactly when its type starts with
    'audio/' or the part of its name after the last dot is, once in lower
    case, one of the nine audio extensions; the list of audio types and
    the guard against an empty extension add nothing. *)
Theorem isAudioFile_iff (f : File) :
  isAudioFile f = true <->
  starts_with (lit "audio/") (mime f) = true \/
  In (toLowerCase (last_segment [] (name f))) audioExtensions.
Proof.
  unfold isAudioFile. cbv zeta.
  rewrite <- array_includes_In.
  pose proof (audioTypes_start_with_audio (mime f)) as Ht.
  set (ext := toLowerCase (last_segment [] (name f))).
  assert (Hext : (if is_empty ext then false
                  else array_includes audioExtensions ext)
                 = array_includes audioExtensions ext)
    by (destruct ext; reflexivity).
  rewrite Hext, !orb_true_iff. tauto.
Qed.

Lemma lower_unit_DOT (c : codeunit) : lower_unit c = DOT -> c = DOT.
Proof.
  unfold lower_unit, inN, DOT.
  destruct (N.leb_spec 65 c); cbn [andb]; [|auto].
  destruct (N.leb_spec c 90); [lia|auto].
Qed.

Lemma In_DOT_toLowerCase (s : jsstring) :
  In DOT s -> In DOT (toLowerCase s).
Proof.
  intros H. unfold toLowerCase. apply in_map_iff. exists DOT.
  split; [reflexivity|exact H].
Qed.

(** X22. Every format that the service lists as supported passes
    [isAudioFile] by its extension alone, in any letter case and whatever
    the type of the file: a name that ends with a dot and such an
    extension is accepted. *)
Theorem supported_formats_pass_isAudioFile
    (f : File) (base ext : jsstring) :
  name f = base ++ DOT :: ext ->
  In (toLowerCase ext) getSupportedFormats ->
  isAudioFile f = true.
Proof.
  intros Hname Hin.
  unfold getSupportedFormats, supportedFormats in Hin. cbn [In] in Hin.
  assert (Hdot : ~ In DOT ext).
  { intros H. apply In_DOT_toLowerCase in H.
    repeat (destruct Hin as [E|Hin];
            [rewrite <- E in H; vm_compute in H; intuition discriminate|]).
    destruct Hin. }
  unfold isAudioFile. cbv zeta.
  rewrite Hname, last_segment_after_dot, last_segment_no_dot by exact Hdot.
  cbn [app].
  repeat (destruct Hin as [<-|Hin];
          [rewrite orb_true_iff; right; reflexivity|]).
  destruct Hin.
Qed.

Lemma supported_formats_pass_isAudioFile_witness :
  isAudioFile {| name := lit "Interview.final.MP3";
                 mime := lit "application/octet-stream";
                 content := zeros 10 |} = true.
Proof.
  apply (@supported_formats_pass_isAudioFile _ (lit "Interview.final")
                                             (lit "MP3")).
  - reflexivity.
  - vm_compute. tauto.
Defined.

Section DurationFacts.

Lemma Qfloor_unique (x : Q) (n : Z) :
  (inject_Z n <= x)%Q -> (x < inject_Z (n + 1))%Q -> Qfloor x = n.
Proof.
  intros H1 H2.
  pose proof (Qfloor_le x) as F1.
  pose proof (Qlt_floor x) as F2.
  assert (n < Qfloor x + 1)
    by (rewrite Zlt_Qlt; eapply Qle_lt_trans; eauto).
  assert (Qfloor x < n + 1)
    by (rewrite Zlt_Qlt; eapply Qle_lt_trans; eauto).
  lia.
Qed.

Lemma Math_round_Z (n : Z) : Math_round (inject_Z n) = n.
Proof.
  unfold Math_round. apply Qfloor_unique.
  - lra.
  - rewrite inject_Z_plus. change (inject_Z 1) with 1%Q. lra.
Qed.

Lemma Qle_bool_60 (n : Z) : Qle_bool 60 (inject_Z n) = (60 <=? n).
Proof.
  unfold Qle_bool, inject_Z. cbn [Qnum Qden].
  now rewrite !Z.mul_1_r.
Qed.

Lemma Qfloor_div_60 (n : Z) : Qfloor (inject_Z n / 60) = n / 60.
Proof. change 60%Q with (inject_Z 60). apply Qfloor_div. Qed.

Lemma Qtruncate_nonneg (x : Q) : (0 <= x)%Q -> Qtruncate x = Qfloor x.
Proof.
  intros H. unfold Qtruncate. apply Qle_bool_iff in H. now rewrite H.
Qed.

Lemma js_rem_Z (n : Z) :
  0 <= n -> js_rem (inject_Z n) 60 = inject_Z (n mod 60).
Proof.
  intros Hn. unfold js_rem.
  rewrite Qtruncate_nonneg, Qfloor_div_60.
  - change 60%Q with (inject_Z 60).
    rewrite <- inject_Z_mult. unfold Qminus.
    rewrite <- inject_Z_opp, <- inject_Z_plus. f_equal.
    rewrite Z.mod_eq; lia.
  - apply Qle_shift_div_l; [reflexivity|].
    rewrite Qmult_0_l. change 0%Q with (inject_Z 0).
    rewrite <- Zle_Qle. exact Hn.
Qed.

Lemma in_range (x : Q) :
  (Qabs x < inject_Z (2 ^ 53))%Q ->
  Qle_bool (inject_Z (2 ^ 53)) (Qabs x) = false.
Proof.
  intros H. destruct (Qle_bool _ _) eqn:E; [|reflexivity].
  apply Qle_bool_iff in E. exfalso. apply (Qlt_not_le _ _ H E).
Qed.

Lemma number_to_string_nonneg (n : Z) :
  0 <= n -> number_to_string n = of_int n.
Proof.
  intros H. unfold number_to_string.
  destruct (Z.ltb_spec n 0); [lia|reflexivity].
Qed.

End DurationFacts.

(** X23. [formatDuration] on a whole number [n] of seconds, from 0 to
    below 2^53: below one minute it shows [n] seconds; below one hour the
    minutes [n / 60] and the seconds [n mod 60]; from one hour on the hours
    [n / 3600], the minutes [(n / 60) mod 60] and the seconds
    [n mod 60]. *)
Theorem formatDuration_whole_seconds (n : Z) :
  0 <= n < 2 ^ 53 ->
  formatDuration (inject_Z n) =
    Some (if n <? 60 then of_int n ++ lit "s"
          else if n <? 3600
          then of_int (n / 60) ++ lit "m " ++ of_int (n mod 60) ++ lit "s"
          else of_int (n / 3600) ++ lit "h " ++ of_int ((n / 60) mod 60)
                 ++ lit "m " ++ of_int (n mod 60) ++ lit "s").
Proof.
  intros [Hn Hmax]. unfold formatDuration.
  rewrite (@in_range (inject_Z n))
    by (rewrite Qabs_pos by (rewrite <- (Zle_Qle 0); exact Hn);
        rewrite <- Zlt_Qlt; exact Hmax).
  rewrite Qle_bool_60.
  destruct (Z.ltb_spec n 60) as [H60|H60];
    destruct (Z.leb_spec 60 n) as [H60'|H60']; try lia; cbn [negb].
  - now rewrite Math_round_Z, number_to_string_nonneg.
  - cbv zeta. rewrite Qfloor_div_60, js_rem_Z, Math_round_Z by exact Hn.
    pose proof (Z.mod_pos_bound n 60 ltac:(lia)) as Hs.
    pose proof (Z.mod_pos_bound (n / 60) 60 ltac:(lia)) as Hm.
    assert (Hq : 0 <= n / 60) by (apply Z.div_pos; lia).
    destruct (Z.ltb_spec n 3600) as [H36|H36];
      destruct (Z.ltb_spec (n / 60) 60) as [Hd|Hd].
    + now rewrite !number_to_string_nonneg by lia.
    + exfalso. assert (n / 60 < 60)
        by (apply Z.div_lt_upper_bound; lia). lia.
    + exfalso. assert (60 <= n / 60)
        by (apply Z.div_le_lower_bound; lia). lia.
    + rewrite Qfloor_div_60, Z.div_div by lia.
      change (60 * 60) with 3600.
      assert (0 <= n / 3600) by (apply Z.div_pos; lia).
      now rewrite !number_to_string_nonneg by lia.
Qed.

Lemma formatDuration_whole_seconds_witness :
  formatDuration 3725 = Some (lit "1h 2m 5s").
Proof.
  apply (@formatDuration_whole_seconds 3725). split; [lia|reflexivity].
Defined.

(** X24. The seconds shown by [formatDuration] can be 60: the minutes are
    taken by rounding down and the seconds by rounding to the nearest, so
    that a duration within half a second below a whole minute, under one
    hour, is shown with 60 seconds ('60s', or '1m 60s' for 119.5 seconds),
    not as the next whole minute. *)
Theorem formatDuration_shows_sixty_seconds (k : Z) (s : Q) :
  0 <= k < 60 ->
  (inject_Z (60 * k) + (119 # 2) <= s)%Q ->
  (s < inject_Z (60 * (k + 1)))%Q ->
  formatDuration s
  = Some (if k =? 0 then lit "60s" else of_int k ++ lit "m 60s").
Proof.
  intros Hk Hlo Hhi.
  rewrite inject_Z_mult in Hlo, Hhi. rewrite inject_Z_plus in Hhi.
  change (inject_Z 60) with 60%Q in *. change (inject_Z 1) with 1%Q in *.
  assert (Hk0 : (0 <= inject_Z k)%Q)
    by (change 0%Q with (inject_Z 0); rewrite <- Zle_Qle; lia).
  assert (Hk60 : (inject_Z k <= 59)%Q)
    by (change 59%Q with (inject_Z 59); rewrite <- Zle_Qle; lia).
  unfold formatDuration.
  rewrite (@in_range s)
    by (rewrite Qabs_pos by lra;
        apply Qlt_le_trans with (y := 3600%Q); [lra|discriminate]).
  destruct (Z.eqb_spec k 0) as [->|Hne].
  - change (inject_Z 0) with 0%Q in *.
    assert (Hlt : Qle_bool 60 s = false).
    { destruct (Qle_bool 60 s) eqn:E; [|reflexivity].
      apply Qle_bool_iff in E. lra. }
    rewrite Hlt. cbn [negb].
    assert (Hr : Math_round s = 60).
    { unfold Math_round. apply Qfloor_unique.
      - change (inject_Z 60) with 60%Q. lra.
      - change (inject_Z (60 + 1)) with 61%Q. lra. }
    rewrite Hr. reflexivity.
  - assert (Hk1 : (1 <= inject_Z k)%Q)
      by (change 1%Q with (inject_Z 1); rewrite <- Zle_Qle; lia).
    assert (Hge : Qle_bool 60 s = true) by (apply Qle_bool_iff; lra).
    assert (Hfl : Qfloor (s / 60) = k).
    { apply Qfloor_unique.
      - apply Qle_shift_div_l; [reflexivity|lra].
      - apply Qlt_shift_div_r; [reflexivity|].
        rewrite inject_Z_plus. change (inject_Z 1) with 1%Q. lra. }
    assert (Htr : Qtruncate (s / 60) = k).
    { rewrite Qtruncate_nonneg; [exact Hfl|].
      apply Qle_shift_div_l; [reflexivity|lra]. }
    assert (Hr : Math_round (js_rem s 60) = 60).
    { unfold Math_round, js_rem. rewrite Htr. apply Qfloor_unique.
      - change (inject_Z 60) with 60%Q. lra.
      - change (inject_Z (60 + 1)) with 61%Q. lra. }
    rewrite Hge. cbn [negb]. cbv zeta. rewrite Hfl, Hr.
    destruct (Z.ltb_spec k 60); [|lia].
    rewrite number_to_string_nonneg by lia. reflexivity.
Qed.

Lemma formatDuration_shows_sixty_seconds_witness :
  formatDuration (239 # 2) = Some (lit "1m 60s").
Proof.
  apply (@formatDuration_shows_sixty_seconds 1 (239 # 2));
    [lia|vm_compute; discriminate|reflexivity].
Defined.

(** X25. [validateApiKey] accepts a key exactly when, once trimmed, it
    starts with 'sk-' (the test on the length adds nothing); a key that
    it accepts is not blank, so that [transcribeAudio] does not refuse it
    as missing. *)
Theorem validateApiKey_iff (apiKey : jsstring) :
  (validateApiKey apiKey = true
   <-> exists rest, trim apiKey = lit "sk-" ++ rest) /\
  (validateApiKey apiKey = true -> is_empty (trim apiKey) = false).
Proof.
  unfold validateApiKey. cbv zeta.
  rewrite andb_true_iff, starts_with_spec. split; [split|].
  - intros [_ H]. exact H.
  - intros [rest E]. split; [|exists rest; exact E].
    rewrite E. reflexivity.
  - intros [_ [rest E]]. rewrite E. reflexivity.
Qed.
